(** * Cryptographic voting engine: a shallow embedding and its properties

    The development follows the three services of the repository:
    - [HomomorphicEncryption] (Paillier encryption, homomorphic addition,
      threshold decryption over Shamir shares),
    - [ZeroKnowledgeProof] (sigma proofs, Fiat-Shamir challenge, nullifiers),
    - [Mixnets] (shuffle rounds, re-randomisation, shuffle proofs).

    JavaScript [BigInt] values are integers of [Z]; the operators [%] and [/]
    on them truncate towards zero, hence [Z.rem] and [Z.quot].  Exceptions
    are the [Throw] outcome of a small error monad; the sources of
    non-determinism ([randomBytes], [Math.random], [Date.now]) are read from
    an explicit [World]. *)

From Stdlib Require Import ZArith List Lia Bool String Ascii Permutation.
From Stdlib Require Import Znumtheory Zquot Zdivisibility Zcong.
From Stdlib Require Import DecimalString DecimalZ.
From Stdlib Require HexadecimalString.
From Bignums Require Import BigZ.
From Stdlib Require Zmod.ZmodInv.
Import ListNotations.

#[local] Open Scope Z_scope.

(** ** Exceptions and outcomes *)

Inductive Exn : Type :=
| Error (msg : string)
| RangeError (msg : string)
| TypeError (msg : string)
| SyntaxError (msg : string)
| Diverged.

Inductive Outcome (A : Type) : Type :=
| Ret (a : A)
| Throw (e : Exn).

Arguments Ret {A} a.
Arguments Throw {A} e.

Definition obind {A B : Type} (c : Outcome A) (k : A -> Outcome B) : Outcome B :=
  match c with
  | Ret a => k a
  | Throw e => Throw e
  end.

Notation "x <~ c ;; k" := (obind c (fun x => k))
  (at level 61, c at next level, right associativity).
Notation "' pat <~ c ;; k" := (obind c (fun x => match x with pat => k end))
  (at level 61, pat pattern, c at next level, right associativity).

(** ** The world: entropy and clock *)

Record World : Type := mkWorld {
  entropy : nat -> Z;   (* the bytes [randomBytes] will deliver, in order *)
  drawn : nat;          (* how many of them were consumed *)
  clock : nat -> Z;     (* the successive answers of [Date.now()] *)
  reads : nat           (* how many of them were consumed *)
}.

Definition M (A : Type) : Type := World -> Outcome A * World.

Definition ret {A : Type} (a : A) : M A := fun w => (Ret a, w).
Definition throw {A : Type} (e : Exn) : M A := fun w => (Throw e, w).
Definition bind {A B : Type} (c : M A) (k : A -> M B) : M B :=
  fun w =>
    match c w with
    | (Ret a, w') => k a w'
    | (Throw e, w') => (Throw e, w')
    end.
Definition lift {A : Type} (c : Outcome A) : M A := fun w => (c, w).

Notation "x <- c ;; k" := (bind c (fun x => k))
  (at level 61, c at next level, right associativity).
Notation "' pat <- c ;; k" := (bind c (fun x => match x with pat => k end))
  (at level 61, pat pattern, c at next level, right associativity).

(** [randomBytes(size)]: the next [size] bytes of the entropy stream; node
    rejects a negative size and one above 2^31 - 1. *)
Definition randomBytes (size : Z) : M (list Z) :=
  fun w =>
    if (size <? 0) || (size >? 2147483647)
    then (Throw (RangeError "The value of size is out of range"), w)
    else
      let len := Z.to_nat size in
      (Ret (map (fun i => (entropy w (drawn w + i)%nat) mod 256) (seq 0 len)),
       mkWorld (entropy w) (drawn w + len)%nat (clock w) (reads w)).

(** [Date.now()]. *)
Definition Date_now : M Z :=
  fun w => (Ret (clock w (reads w)),
            mkWorld (entropy w) (drawn w) (clock w) (S (reads w))).

(** [Math.floor(Math.random() * bound)] for a positive integer [bound]: some
    index below [bound]; the model takes it from the entropy stream. *)
Definition Math_random_below (bound : Z) : M Z :=
  fun w => (Ret ((entropy w (drawn w)) mod bound),
            mkWorld (entropy w) (S (drawn w)) (clock w) (reads w)).

(** ** BigInt primitives *)

Definition toString (z : Z) : string := NilZero.string_of_int (Z.to_int z).

(** [BigInt(s)] for a string [s] (StringToBigInt): surrounding white space
    is dropped, the empty string is zero, [0x], [0o] and [0b] introduce an
    unsigned literal, anything else is a decimal literal with an optional
    sign.  White space is the ASCII part of the ECMAScript set. *)
Definition is_white_space (c : ascii) : bool :=
  let k := nat_of_ascii c in
  ((9 <=? k) && (k <=? 13))%nat || (k =? 32)%nat.

Fixpoint trim_start (s : string) : string :=
  match s with
  | EmptyString => EmptyString
  | String c s' => if is_white_space c then trim_start s' else s
  end.

Fixpoint trim_end (s : string) : string :=
  match s with
  | EmptyString => EmptyString
  | String c s' =>
      match trim_end s' with
      | EmptyString => if is_white_space c then EmptyString else String c EmptyString
      | t => String c t
      end
  end.

Definition trim (s : string) : string := trim_end (trim_start s).

Definition digit_value (c : ascii) : option Z :=
  let k := Z.of_nat (nat_of_ascii c) in
  if (48 <=? k) && (k <=? 57) then Some (k - 48)
  else if (97 <=? k) && (k <=? 102) then Some (k - 87)
  else if (65 <=? k) && (k <=? 70) then Some (k - 55)
  else None.

Fixpoint parse_digits (radix : Z) (s : string) (acc : Z) : option Z :=
  match s with
  | EmptyString => Some acc
  | String c s' =>
      match digit_value c with
      | Some d => if d <? radix then parse_digits radix s' (acc * radix + d) else None
      | None => None
      end
  end.

Definition parse_literal (radix : Z) (s : string) : option Z :=
  match s with
  | EmptyString => None
  | _ => parse_digits radix s 0
  end.

Definition radix_of_prefix (c : ascii) : option Z :=
  if (Ascii.eqb c "x" || Ascii.eqb c "X")%char then Some 16
  else if (Ascii.eqb c "o" || Ascii.eqb c "O")%char then Some 8
  else if (Ascii.eqb c "b" || Ascii.eqb c "B")%char then Some 2
  else None.

Definition StringToBigInt (s : string) : option Z :=
  match trim s with
  | EmptyString => Some 0
  | String c rest =>
      let decimal :=
        if Ascii.eqb c "+"
        then option_map Z.of_uint (NilZero.uint_of_string rest)
        else option_map Z.of_int (NilZero.int_of_string (String c rest)) in
      if Ascii.eqb c "0" then
        match rest with
        | String p digits =>
            match radix_of_prefix p with
            | Some radix => parse_literal radix digits
            | None => decimal
            end
        | EmptyString => decimal
        end
      else decimal
  end.

Definition BigInt (s : string) : Outcome Z :=
  match StringToBigInt s with
  | Some z => Ret z
  | None => Throw (SyntaxError ("Cannot convert " ++ s ++ " to a BigInt"))
  end.

(** [a % b] and [a / b] on BigInt: a zero divisor is a RangeError. *)
Definition bigint_rem (a b : Z) : Outcome Z :=
  if b =? 0 then Throw (RangeError "Division by zero") else Ret (Z.rem a b).
Definition bigint_div (a b : Z) : Outcome Z :=
  if b =? 0 then Throw (RangeError "Division by zero") else Ret (Z.quot a b).

(** [x.toString(2).length]. *)
Definition binary_length (x : Z) : Z :=
  if x =? 0 then 1
  else if x <? 0 then Z.log2 (- x) + 2
  else Z.log2 x + 1.

(** The loop [for (i...) r = (r << 8n) | BigInt(buffer[i])]. *)
Definition bytes_to_bigint (buffer : list Z) : Z :=
  fold_left (fun r b => Z.lor (Z.shiftl r 8) b) buffer 0.

(** [Number(m)] for a BigInt [m]: the nearest double, ties to even. *)
Inductive JSNumber : Type :=
| Finite (z : Z)
| Infinity (negative : bool).

Definition round_to_double (m : Z) : Z :=
  let b := Z.log2 m in
  if b <? 53 then m
  else
    let s := b - 52 in
    let q := Z.shiftr m s in
    let r := Z.land m (Z.ones s) in
    let half := Z.shiftl 1 (s - 1) in
    let q' := if (r >? half) || ((r =? half) && Z.odd q) then q + 1 else q in
    Z.shiftl q' s.

Definition Number (m : Z) : JSNumber :=
  let v := round_to_double (Z.abs m) in
  if v >=? 2 ^ 1024 then Infinity (m <? 0) else Finite (Z.sgn m * v).

(** ** bigint-crypto-utils (external package; its documented behaviour) *)

Definition toZn (a n : Z) : Outcome Z :=
  if n <=? 0 then Throw (RangeError "n must be > 0")
  else
    let aZn := Z.rem a n in
    Ret (if aZn <? 0 then aZn + n else aZn).

Record Egcd : Type := mkEgcd { eg_g : Z; eg_x : Z; eg_y : Z }.

Fixpoint eGcd_loop (fuel : nat) (a b x y u v : Z) : Outcome Egcd :=
  if a =? 0 then Ret (mkEgcd b x y)
  else
    match fuel with
    | O => Throw Diverged
    | S fuel' =>
        let q := Z.quot b a in
        let r := Z.rem b a in
        let m := x - u * q in
        let n := y - v * q in
        eGcd_loop fuel' r a u v m n
    end.

Definition eGcd (a b : Z) : Outcome Egcd :=
  if (a <=? 0) || (b <=? 0) then Throw (RangeError "a and b MUST be > 0")
  else eGcd_loop (S (Z.to_nat a)) a b 0 1 1 0.

Definition modInv (a n : Z) : Outcome Z :=
  aZn <~ toZn a n ;;
  egcd <~ eGcd aZn n ;;
  if negb (eg_g egcd =? 1)
  then Throw (RangeError (toString a ++ " does not have inverse modulo " ++ toString n))
  else toZn (eg_x egcd) n.

(** The square-and-multiply loop of [modPow], one iteration per binary
    digit of the exponent. *)
Fixpoint modPow_loop (e : positive) (b r n : Z) : Z :=
  match e with
  | xH => Z.rem (r * b) n
  | xO e' => modPow_loop e' (Z.rem (b * b) n) r n
  | xI e' => modPow_loop e' (Z.rem (b * b) n) (Z.rem (r * b) n) n
  end.

Definition modPow (b e n : Z) : Outcome Z :=
  if n <=? 0 then Throw (RangeError "n must be > 0")
  else if n =? 1 then Ret 0
  else
    b' <~ toZn b n ;;
    match e with
    | Z0 => Ret 1
    | Zpos p => Ret (modPow_loop p b' 1 n)
    | Zneg p => modInv (modPow_loop p b' 1 n) n
    end.

(** ** HomomorphicEncryption *)

Module HomomorphicEncryption.

Record PublicKey : Type := mkPublicKey { pk_n : Z; pk_g : Z; pk_nsq : Z }.
Record PrivateKey : Type :=
  mkPrivateKey { sk_lambda : Z; sk_mu : Z; sk_n : Z; sk_nsq : Z }.
Record Share : Type := mkShare { id : Z; value : Z }.

(** [this.privateKeyShares]; [ks_shares] is [None] when the object was
    loaded in the single-key shape and has no [shares] property. *)
Record KeyShares : Type := mkKeyShares {
  ks_shares : option (list Share);
  ks_mu : Z;
  ks_n : Z;
  ks_nsq : Z;
  ks_thresholdN : Z;
  ks_thresholdK : Z
}.

Record ThresholdParams : Type := mkThresholdParams { tp_n : Z; tp_k : Z }.

Record Engine : Type := mkEngine {
  keySize : Z;
  publicKey : option PublicKey;
  privateKey : option PrivateKey;
  privateKeyShares : option KeyShares;
  thresholdParams : option ThresholdParams
}.

Definition constructor : Engine := mkEngine 1024 None None None None.

Record EncryptedVote : Type :=
  mkEncryptedVote { ciphertext : string; randomness : string }.

(** *** Helper functions *)

Definition L (u n : Z) : Outcome Z := bigint_div (u - 1) n.

Fixpoint gcd_loop (fuel : nat) (a b : Z) : Outcome Z :=
  if b =? 0 then Ret a
  else
    match fuel with
    | O => Throw Diverged
    | S fuel' => gcd_loop fuel' b (Z.rem a b)
    end.

Definition gcd (a b : Z) : Outcome Z := gcd_loop (S (Z.to_nat (Z.abs b))) a b.

Definition lcm (a b : Z) : Outcome Z :=
  d <~ gcd a b ;;
  bigint_div (a * b) d.

(** [generateRandomBigInt(max)]. *)
Definition generateRandomBigInt (max : Z) : M Z :=
  let byteLength := (binary_length max + 7) / 8 in
  buffer <- randomBytes byteLength ;;
  lift (bigint_rem (bytes_to_bigint buffer) max).

Section KeyGeneration.

(** [isProbablyPrime(w, iterations)] of bigint-crypto-utils, a probabilistic
    test the model leaves open. *)
Variable isProbablyPrime : Z -> Z -> bool.

(** The [while (attempts < maxAttempts)] loop of [generatePrime]; [fuel] is
    the number of attempts left. *)
Fixpoint generatePrime_loop (fuel : nat) (bits : Z) : M Z :=
  match fuel with
  | O => throw (Error ("Failed to generate " ++ toString bits
                         ++ "-bit prime after 2000 attempts"))
  | S fuel' =>
      let byteLength := (bits + 7) / 8 in
      buffer <- randomBytes byteLength ;;
      let candidate := bytes_to_bigint buffer in
      let bitMask := Z.shiftl 1 bits - 1 in
      let candidate := Z.land candidate bitMask in
      let candidate := Z.lor candidate (Z.shiftl 1 (bits - 1)) in
      let candidate := Z.lor candidate 1 in
      if (Z.rem candidate 3 =? 0) || (Z.rem candidate 5 =? 0)
         || (Z.rem candidate 7 =? 0) || (Z.rem candidate 11 =? 0)
         || (Z.rem candidate 13 =? 0) || (Z.rem candidate 17 =? 0)
      then generatePrime_loop fuel' bits
      else if isProbablyPrime candidate 15 then ret candidate
      else generatePrime_loop fuel' bits
  end.

Definition generatePrime (bits : Z) : M Z := generatePrime_loop 2000 bits.

End KeyGeneration.

(** *** Shamir secret sharing *)

Fixpoint random_coefficients (count : nat) (modulus : Z) : M (list Z) :=
  match count with
  | O => ret []
  | S count' =>
      a <- generateRandomBigInt modulus ;;
      rest <- random_coefficients count' modulus ;;
      ret (a :: rest)
  end.

(** The inner loop of [generateSecretShares]: [y] and [xPower] after the
    coefficients still to visit. *)
Fixpoint evaluate_loop (coefficients : list Z) (x modulus y xPower : Z)
  : Outcome Z :=
  match coefficients with
  | [] => Ret y
  | c :: rest =>
      t <~ bigint_rem (c * xPower) modulus ;;
      y' <~ bigint_rem (y + t) modulus ;;
      xPower' <~ bigint_rem (xPower * x) modulus ;;
      evaluate_loop rest x modulus y' xPower'
  end.

Fixpoint shares_loop (xs : list nat) (coefficients : list Z) (modulus : Z)
  : Outcome (list Share) :=
  match xs with
  | [] => Ret []
  | x :: xs' =>
      y <~ evaluate_loop coefficients (Z.of_nat x) modulus 0 1 ;;
      rest <~ shares_loop xs' coefficients modulus ;;
      Ret (mkShare (Z.of_nat x) y :: rest)
  end.

Definition generateSecretShares (secret : Z) (n k : nat) (modulus : Z)
  : M (list Share) :=
  random <- random_coefficients (k - 1) modulus ;;
  let coefficients := secret :: random in
  lift (shares_loop (seq 1 n) (firstn k coefficients) modulus).

(** The inner loop of [reconstructSecret] for the share at index [i]. *)
Fixpoint lagrange_loop (i : nat) (xi : Z) (js : list (nat * Share))
  (modulus numerator denominator : Z) : Outcome (Z * Z) :=
  match js with
  | [] => Ret (numerator, denominator)
  | (j, sj) :: js' =>
      if (i =? j)%nat then lagrange_loop i xi js' modulus numerator denominator
      else
        numerator' <~ bigint_rem (numerator * (- id sj)) modulus ;;
        denominator' <~ bigint_rem (denominator * (xi - id sj)) modulus ;;
        lagrange_loop i xi js' modulus numerator' denominator'
  end.

Definition indexed {A : Type} (l : list A) : list (nat * A) :=
  combine (seq 0 (List.length l)) l.

Fixpoint reconstruct_loop (rows : list (nat * Share)) (shares : list Share)
  (modulus secret : Z) : Outcome Z :=
  match rows with
  | [] => Ret secret
  | (i, si) :: rows' =>
      '(numerator, denominator) <~
         lagrange_loop i (id si) (indexed shares) modulus 1 1 ;;
      denominatorInv <~ modInv denominator modulus ;;
      lagrangeCoeff <~ bigint_rem (numerator * denominatorInv) modulus ;;
      t <~ bigint_rem (value si * lagrangeCoeff) modulus ;;
      secret' <~ bigint_rem (secret + t) modulus ;;
      reconstruct_loop rows' shares modulus secret'
  end.

Definition reconstructSecret (shares : list Share) (modulus : Z) : Outcome Z :=
  secret <~ reconstruct_loop (indexed shares) shares modulus 0 ;;
  s1 <~ bigint_rem secret modulus ;;
  bigint_rem (s1 + modulus) modulus.

(** *** Key generation *)

Record GeneratedKeys : Type := mkGeneratedKeys {
  gk_publicKey : PublicKey;
  gk_privateKey : PrivateKey;
  gk_privateKeyShares : KeyShares;
  gk_thresholdN : Z;
  gk_thresholdK : Z
}.

(** The arithmetic of [generateKeys] between the two prime draws and the
    assignment of [this.publicKey] and [this.privateKey]. *)
Definition derive_keys (p q : Z) : Outcome (PublicKey * PrivateKey) :=
  let n := p * q in
  lambda <~ lcm (p - 1) (q - 1) ;;
  let g := n + 1 in
  let nsq := n * n in
  gLambda <~ modPow g lambda nsq ;;
  l <~ L gLambda n ;;
  mu <~ modInv l n ;;
  Ret (mkPublicKey n g nsq, mkPrivateKey lambda mu n nsq).

Section GenerateKeys.

Variable isProbablyPrime : Z -> Z -> bool.

(** [generatePrime(this.keySize / 2)].  An odd [keySize] makes [bits] a
    fraction: the first attempt draws its bytes and [BigInt(bits)] throws. *)
Definition generatePrime_half (keySize : Z) : M Z :=
  if Z.even keySize then generatePrime isProbablyPrime (keySize / 2)
  else
    _ <- randomBytes ((keySize + 15) / 16) ;;
    throw (RangeError "The number cannot be converted to a BigInt because it is not an integer").

(** [generateKeys()]: the keys returned and the engine afterwards.  Nothing
    throws once the fields of [this] have been assigned. *)
Definition generateKeys (this : Engine) : M (GeneratedKeys * Engine) :=
  p <- generatePrime_half (keySize this) ;;
  q <- generatePrime_half (keySize this) ;;
  '(pk, sk) <- lift (derive_keys p q) ;;
  let thresholdN := 5%nat in
  let thresholdK := 3%nat in
  shares <- generateSecretShares (sk_lambda sk) thresholdN thresholdK (pk_n pk) ;;
  let ks := mkKeyShares (Some shares) (sk_mu sk) (pk_n pk) (pk_nsq pk)
              (Z.of_nat thresholdN) (Z.of_nat thresholdK) in
  let tp := mkThresholdParams (Z.of_nat thresholdN) (Z.of_nat thresholdK) in
  ret (mkGeneratedKeys pk sk ks (Z.of_nat thresholdN) (Z.of_nat thresholdK),
       mkEngine (keySize this) (Some pk) (Some sk) (Some ks) (Some tp)).

End GenerateKeys.

(** *** Encryption *)

(** A parameter with a default: [publicKey = this.publicKey]. *)
Definition default_to {A : Type} (arg dflt : option A) : option A :=
  match arg with
  | Some a => Some a
  | None => dflt
  end.

(** The [do ... while] loop of [encrypt]; it yields [r] and [attempts]. *)
Fixpoint encrypt_loop (fuel : nat) (n attempts : Z) : M (Z * Z) :=
  match fuel with
  | O => throw Diverged
  | S fuel' =>
      if attempts >? 1000
      then throw (Error "Failed to generate valid random number r")
      else
        let attempts := attempts + 1 in
        buffer <- randomBytes ((binary_length n + 7) / 8) ;;
        let r := bytes_to_bigint buffer in
        if n <=? 2 then throw (Error "n is too small for encryption")
        else
          r0 <- lift (bigint_rem r (n - 2)) ;;
          let r := r0 + 2 in
          d <- lift (gcd r n) ;;
          if negb (d =? 1) && (attempts <? 1000)
          then encrypt_loop fuel' n attempts
          else ret (r, attempts)
  end.

Definition encrypt (this : Engine) (vote : Z) (publicKey_arg : option PublicKey)
  : M EncryptedVote :=
  match default_to publicKey_arg (publicKey this) with
  | None => throw (Error "Public key required for encryption")
  | Some pk =>
      let n := pk_n pk in
      let g := pk_g pk in
      let nsq := pk_nsq pk in
      let m := vote in
      if n <=? 100
      then throw (Error ("Public key n is too small (" ++ toString n
                           ++ "). Keys may be corrupted."))
      else
        '(r, attempts) <- encrypt_loop 1001 n 0 ;;
        if attempts >=? 1000
        then throw (Error "Could not find coprime random number")
        else
          gm <- lift (modPow g m nsq) ;;
          rn <- lift (modPow r n nsq) ;;
          c <- lift (bigint_rem (gm * rn) nsq) ;;
          ret (mkEncryptedVote (toString c) (toString r))
  end.

(** *** Homomorphic addition *)

(** The shapes [addEncrypted] accepts: a string, or an object that may have
    a [ciphertext] and may have a [homomorphic_data] (which in turn may have
    a [ciphertext]). *)
Inductive VoteRef : Type :=
| VoteString (s : string)
| VoteObject (ciphertext : option string)
             (homomorphic_data : option (option string)).

(** Truthiness of a property that is a string or absent. *)
Definition truthy (v : option string) : bool :=
  match v with
  | Some (String _ _) => true
  | _ => false
  end.

Definition vote_ciphertext (vote : VoteRef) : Outcome string :=
  match vote with
  | VoteString s => Ret s
  | VoteObject c h =>
      if truthy c then Ret (match c with Some s => s | None => EmptyString end)
      else
        match h with
        | Some hc =>
            if truthy hc
            then Ret (match hc with Some s => s | None => EmptyString end)
            else Throw (Error "Invalid vote structure for homomorphic addition")
        | None => Throw (Error "Invalid vote structure for homomorphic addition")
        end
  end.

Fixpoint addEncrypted_loop (encryptedVotes : list VoteRef) (nsq result : Z)
  : Outcome Z :=
  match encryptedVotes with
  | [] => Ret result
  | vote :: rest =>
      ciphertext <~ vote_ciphertext vote ;;
      c <~ BigInt ciphertext ;;
      result' <~ bigint_rem (result * c) nsq ;;
      addEncrypted_loop rest nsq result'
  end.

Definition addEncrypted (this : Engine) (encryptedVotes : list VoteRef)
  (publicKey_arg : option PublicKey) : Outcome string :=
  match default_to publicKey_arg (publicKey this) with
  | None => Throw (Error "Public key required for homomorphic addition")
  | Some pk =>
      result <~ addEncrypted_loop encryptedVotes (pk_nsq pk) 1 ;;
      Ret (toString result)
  end.

(** *** Decryption *)

Definition decrypt (this : Engine) (ciphertext : string)
  (privateKey_arg : option PrivateKey) : Outcome JSNumber :=
  match default_to privateKey_arg (privateKey this) with
  | None => Throw (Error "Private key required for decryption")
  | Some sk =>
      c <~ BigInt ciphertext ;;
      cLambda <~ modPow c (sk_lambda sk) (sk_nsq sk) ;;
      l <~ L cLambda (sk_n sk) ;;
      m <~ bigint_rem (l * sk_mu sk) (sk_n sk) ;;
      Ret (Number m)
  end.

(** [shares.slice(0, threshold)] for an integer [threshold]. *)
Definition slice0 {A : Type} (l : list A) (e : Z) : list A :=
  if e <? 0 then firstn (Z.to_nat (Z.max (Z.of_nat (List.length l) + e) 0)) l
  else firstn (Z.to_nat e) l.

Definition performThresholdDecryption (this : Engine) (ciphertext : string)
  (threshold : Z) : Outcome JSNumber :=
  match privateKeyShares this with
  | Some (mkKeyShares (Some shares) mu n nsq _ _) =>
      c <~ BigInt ciphertext ;;
      let activeShares := slice0 shares threshold in
      if Z.of_nat (List.length activeShares) <? threshold
      then Throw (Error ("Insufficient shares: need " ++ toString threshold
                           ++ ", have "
                           ++ toString (Z.of_nat (List.length activeShares))))
      else
        reconstructedLambda <~ reconstructSecret activeShares n ;;
        cLambda <~ modPow c reconstructedLambda nsq ;;
        l <~ L cLambda n ;;
        m <~ bigint_rem (l * mu) n ;;
        Ret (Number m)
  | _ => Throw (Error "Private key shares not available for threshold decryption")
  end.

(** The guard of [thresholdDecrypt]:
    [this.privateKeyShares && this.privateKeyShares.shares &&
     this.privateKeyShares.shares.length >= threshold]. *)
Definition enough_shares (this : Engine) (threshold : Z) : bool :=
  match privateKeyShares this with
  | Some ks =>
      match ks_shares ks with
      | Some shares => Z.of_nat (List.length shares) >=? threshold
      | None => false
      end
  | None => false
  end.

Definition thresholdDecrypt (this : Engine) (ciphertext : string)
  (threshold : Z) : Outcome JSNumber :=
  if enough_shares this threshold
  then performThresholdDecryption this ciphertext threshold
  else
    match privateKey this with
    | Some sk => decrypt this ciphertext (Some sk)
    | None => Throw (Error "No valid decryption keys available")
    end.

End HomomorphicEncryption.

(** Trial division, which finds the small primes of the hash constants and
    certifies those of the examples. *)
Definition trial_division (p : Z) : bool :=
  (1 <? p)
  && forallb (fun d => negb (p mod (Z.of_nat d) =? 0)) (seq 2 (Z.to_nat p - 2)).

(** ** node:crypto - SHA-256 and hexadecimal digests *)

Module Sha256.

Definition w32 (x : Z) : Z := x mod 4294967296.

Definition rotr (k x : Z) : Z :=
  Z.lor (Z.shiftr x k) (w32 (Z.shiftl x (32 - k))).

Definition Ch (x y z : Z) : Z :=
  Z.lxor (Z.land x y) (Z.land (Z.lxor x 4294967295) z).
Definition Maj (x y z : Z) : Z :=
  Z.lxor (Z.lxor (Z.land x y) (Z.land x z)) (Z.land y z).
Definition Sigma0 (x : Z) : Z := Z.lxor (Z.lxor (rotr 2 x) (rotr 13 x)) (rotr 22 x).
Definition Sigma1 (x : Z) : Z := Z.lxor (Z.lxor (rotr 6 x) (rotr 11 x)) (rotr 25 x).
Definition sigma0 (x : Z) : Z := Z.lxor (Z.lxor (rotr 7 x) (rotr 18 x)) (Z.shiftr x 3).
Definition sigma1 (x : Z) : Z := Z.lxor (Z.lxor (rotr 17 x) (rotr 19 x)) (Z.shiftr x 10).

(** The round constants are the first 32 bits of the fractional parts of
    the cube roots of the first 64 primes; the initial state takes the
    square roots of the first 8. *)
Fixpoint cube_root_loop (fuel : nat) (x lo hi : Z) : Z :=
  match fuel with
  | O => lo
  | S fuel' =>
      if hi - lo <=? 1 then lo
      else
        let mid := (lo + hi) / 2 in
        if mid * mid * mid <=? x
        then cube_root_loop fuel' x mid hi
        else cube_root_loop fuel' x lo mid
  end.

Definition cube_root (x : Z) : Z := cube_root_loop 64 x 0 (2 ^ 40).

Definition first_primes : list Z :=
  Eval vm_compute in filter trial_division (map Z.of_nat (seq 2 310)).

Definition K : list Z :=
  Eval vm_compute in map (fun p => w32 (cube_root (p * 2 ^ 96))) first_primes.

Definition H0 : list Z :=
  Eval vm_compute in
    map (fun p => w32 (Z.sqrt (p * 2 ^ 64))) (firstn 8 first_primes).

(** Padding: a one bit, zeros, and the bit length on eight bytes. *)
Definition be_bytes (count : nat) (x : Z) : list Z :=
  map (fun i => (Z.shiftr x (8 * Z.of_nat (count - 1 - i))) mod 256) (seq 0 count).

Definition pad (msg : list Z) : list Z :=
  let len := List.length msg in
  let zeros := ((64 - (len + 9) mod 64) mod 64)%nat in
  msg ++ [128] ++ repeat 0 zeros ++ be_bytes 8 (8 * Z.of_nat len).

Definition be_word (b0 b1 b2 b3 : Z) : Z :=
  Z.lor (Z.lor (Z.lor (Z.shiftl b0 24) (Z.shiftl b1 16)) (Z.shiftl b2 8)) b3.

(** The big-endian words of a byte list, [fuel] bounding their number. *)
Fixpoint words (fuel : nat) (bytes : list Z) : list Z :=
  match fuel, bytes with
  | S fuel', b0 :: b1 :: b2 :: b3 :: rest => be_word b0 b1 b2 b3 :: words fuel' rest
  | _, _ => []
  end.

(** The message schedule, latest word first. *)
Fixpoint extend (count : nat) (rw : list Z) : list Z :=
  match count with
  | O => rw
  | S count' =>
      let w := w32 (sigma1 (nth 1 rw 0) + nth 6 rw 0
                    + sigma0 (nth 14 rw 0) + nth 15 rw 0) in
      extend count' (w :: rw)
  end.

Definition schedule (block : list Z) : list Z := rev (extend 48 (rev block)).

Record State : Type :=
  mkState { sa : Z; sb : Z; sc : Z; sd : Z; se : Z; sf : Z; sg : Z; sh : Z }.

Definition round (s : State) (kw : Z * Z) : State :=
  let t1 := w32 (sh s + Sigma1 (se s) + Ch (se s) (sf s) (sg s) + fst kw + snd kw) in
  let t2 := w32 (Sigma0 (sa s) + Maj (sa s) (sb s) (sc s)) in
  mkState (w32 (t1 + t2)) (sa s) (sb s) (sc s) (w32 (sd s + t1)) (se s) (sf s) (sg s).

Definition compress (h : State) (block : list Z) : State :=
  let s := fold_left round (combine K (schedule block)) h in
  mkState (w32 (sa h + sa s)) (w32 (sb h + sb s)) (w32 (sc h + sc s))
          (w32 (sd h + sd s)) (w32 (se h + se s)) (w32 (sf h + sf s))
          (w32 (sg h + sg s)) (w32 (sh h + sh s)).

Fixpoint blocks (fuel : nat) (ws : list Z) (h : State) : State :=
  match fuel, ws with
  | S fuel', _ :: _ => blocks fuel' (skipn 16 ws) (compress h (firstn 16 ws))
  | _, _ => h
  end.

Definition initial : State :=
  mkState (nth 0 H0 0) (nth 1 H0 0) (nth 2 H0 0) (nth 3 H0 0)
          (nth 4 H0 0) (nth 5 H0 0) (nth 6 H0 0) (nth 7 H0 0).

(** The 32 bytes of the digest. *)
Definition digest (msg : list Z) : list Z :=
  let padded := pad msg in
  let ws := words (List.length padded) padded in
  let s := blocks (List.length ws) ws initial in
  flat_map (be_bytes 4) [sa s; sb s; sc s; sd s; se s; sf s; sg s; sh s].

End Sha256.

(** The bytes of a string (its UTF-8 encoding, which is how a Rocq string
    stores it). *)
Fixpoint string_bytes (s : string) : list Z :=
  match s with
  | EmptyString => []
  | String c s' => Z.of_nat (nat_of_ascii c) :: string_bytes s'
  end.

Definition hex_digit (d : Z) : ascii :=
  ascii_of_nat (Z.to_nat (if d <? 10 then 48 + d else 87 + d)).

(** [buffer.toString('hex')]. *)
Fixpoint hex_of_bytes (bytes : list Z) : string :=
  match bytes with
  | [] => EmptyString
  | b :: rest => String (hex_digit (b / 16)) (String (hex_digit (b mod 16)) (hex_of_bytes rest))
  end.

(** [createHash('sha256').update(data).digest('hex')]. *)
Definition sha256_hex (data : string) : string :=
  hex_of_bytes (Sha256.digest (string_bytes data)).

(** [x.toString(16)] for a BigInt [x]. *)
Definition toString16 (z : Z) : string :=
  HexadecimalString.NilZero.string_of_int (Z.to_hex_int z).

(** ** @noble/secp256k1 (external package; the curve and its point API) *)

Module Secp256k1.

(** The field prime, the group order and the base point. *)
Definition P : Z := 2 ^ 256 - 2 ^ 32 - 977.
Definition n : Z :=
  0xfffffffffffffffffffffffffffffffebaaedce6af48a03bbfd25e8cd0364141.
Definition Gx : Z :=
  0x79be667ef9dcbbac55a06295ce870b07029bfcdb2dce28d959f2815b16f81798.
Definition Gy : Z :=
  0x483ada7726a3c4655da4fbfc0e1108a8fd17b448a68554199c47d08ffb10d4b8.

(** An affine point; [ZERO] is the point at infinity. *)
Inductive Point : Type :=
| ZERO
| Affine (x y : Z).

Definition BASE : Point := Affine Gx Gy.

(** Field elements are big integers of [bigZ], which the virtual machine
    multiplies word by word; [BigZ.to_Z] reads them back. *)
Definition bP : bigZ := BigZ.of_Z P.

Definition fmod (x : bigZ) : bigZ := (x mod bP)%bigZ.

Fixpoint fpow_loop (e : positive) (b r : bigZ) : bigZ :=
  match e with
  | xH => fmod (r * b)
  | xO e' => fpow_loop e' (fmod (b * b)) r
  | xI e' => fpow_loop e' (fmod (b * b)) (fmod (r * b))
  end.

Definition fpow (b : bigZ) (e : positive) : bigZ := fpow_loop e (fmod b) 1%bigZ.

(** The inverse in the field, by Fermat's little theorem. *)
Definition finv (x : bigZ) : bigZ := fpow x (Z.to_pos (P - 2)).

(** Jacobian coordinates, used by the scalar multiplication. *)
Record Jacobian : Type := mkJacobian { jx : bigZ; jy : bigZ; jz : bigZ }.

Definition jzero : Jacobian := mkJacobian 0%bigZ 1%bigZ 0%bigZ.

Definition jdouble (p : Jacobian) : Jacobian :=
  (let A := fmod (jx p * jx p) in
   let B := fmod (jy p * jy p) in
   let C := fmod (B * B) in
   let D := fmod (2 * (fmod ((jx p + B) * (jx p + B)) - A - C)) in
   let E := fmod (3 * A) in
   let F := fmod (E * E) in
   let X3 := fmod (F - 2 * D) in
   let Y3 := fmod (E * (D - X3) - 8 * C) in
   let Z3 := fmod (2 * jy p * jz p) in
   mkJacobian X3 Y3 Z3)%bigZ.

Definition jadd (p q : Jacobian) : Jacobian :=
  (if jz p =? 0 then q
   else if jz q =? 0 then p
   else
     let Z1Z1 := fmod (jz p * jz p) in
     let Z2Z2 := fmod (jz q * jz q) in
     let U1 := fmod (jx p * Z2Z2) in
     let U2 := fmod (jx q * Z1Z1) in
     let S1 := fmod (jy p * jz q * Z2Z2) in
     let S2 := fmod (jy q * jz p * Z1Z1) in
     let H := fmod (U2 - U1) in
     let R := fmod (S2 - S1) in
     if H =? 0 then
       if R =? 0 then jdouble p else jzero
     else
       let H2 := fmod (H * H) in
       let H3 := fmod (H * H2) in
       let V := fmod (U1 * H2) in
       let X3 := fmod (R * R - H3 - 2 * V) in
       let Y3 := fmod (R * (V - X3) - S1 * H3) in
       let Z3 := fmod (H * jz p * jz q) in
       mkJacobian X3 Y3 Z3)%bigZ.

Definition to_jacobian (p : Point) : Jacobian :=
  match p with
  | ZERO => jzero
  | Affine x y => mkJacobian (BigZ.of_Z x) (BigZ.of_Z y) 1%bigZ
  end.

Definition to_affine (p : Jacobian) : Point :=
  if (jz p =? 0)%bigZ then ZERO
  else
    let zi := finv (jz p) in
    let zi2 := fmod (zi * zi) in
    Affine (BigZ.to_Z (fmod (jx p * zi2))) (BigZ.to_Z (fmod (jy p * zi2 * zi))).

Fixpoint jmul (k : positive) (p : Jacobian) : Jacobian :=
  match k with
  | xH => p
  | xO k' => jdouble (jmul k' p)
  | xI k' => jadd (jdouble (jmul k' p)) p
  end.

(** [p.add(q)]. *)
Definition add (p q : Point) : Point :=
  to_affine (jadd (to_jacobian p) (to_jacobian q)).

(** [p.multiply(scalar)]: the scalar must lie strictly between 0 and [n]. *)
Definition multiply (p : Point) (scalar : Z) : Outcome Point :=
  match scalar with
  | Zpos k =>
      if scalar <? n then Ret (to_affine (jmul k (to_jacobian p)))
      else Throw (Error "Expected valid private scalar: 0 < scalar < curve.n")
  | _ => Throw (Error "Expected valid private scalar: 0 < scalar < curve.n")
  end.

(** [p.equals(q)]. *)
Definition equals (p q : Point) : bool :=
  match p, q with
  | ZERO, ZERO => true
  | Affine x1 y1, Affine x2 y2 => (x1 =? x2) && (y1 =? y2)
  | _, _ => false
  end.

Definition on_curve (x y : Z) : bool :=
  (0 <? x) && (x <? P) && (0 <? y) && (y <? P)
  && ((y * y) mod P =? (x * x * x + 7) mod P).

(** Thirty-two bytes, big-endian. *)
Definition numTo32bStr (x : Z) : string := hex_of_bytes (Sha256.be_bytes 32 x).

(** [p.toHex(isCompressed)]; the point at infinity has no encoding. *)
Definition toHex (p : Point) (isCompressed : bool) : Outcome string :=
  match p with
  | ZERO => Throw (Error "Point is not on elliptic curve")
  | Affine x y =>
      if isCompressed
      then Ret ((if Z.even y then "02" else "03") ++ numTo32bStr x)%string
      else Ret ("04" ++ numTo32bStr x ++ numTo32bStr y)%string
  end.

(** Hexadecimal strings to bytes; [None] when a character is not a
    hexadecimal digit or the length is odd. *)
Fixpoint hexToBytes (s : string) : option (list Z) :=
  match s with
  | EmptyString => Some []
  | String _ EmptyString => None
  | String c1 (String c2 rest) =>
      match digit_value c1, digit_value c2, hexToBytes rest with
      | Some h, Some l, Some bytes => Some (16 * h + l :: bytes)
      | _, _, _ => None
      end
  end.

(** The square root the library takes: [y2 ^ ((P + 1) / 4)]. *)
Definition sqrtMod (y2 : Z) : Z :=
  BigZ.to_Z (fpow (BigZ.of_Z y2) (Z.to_pos ((P + 1) / 4))).

Definition fromCompressed (x_only odd_y : bool) (x : Z) : Outcome Point :=
  if negb ((0 <? x) && (x <? P)) then Throw (Error "Point is not on curve")
  else
    let y2 := (x * x * x + 7) mod P in
    let y := sqrtMod y2 in
    let isYOdd := Z.odd y in
    let y := if x_only
             then (if isYOdd then (- y) mod P else y)
             else (if Bool.eqb odd_y isYOdd then y else (- y) mod P) in
    if on_curve x y then Ret (Affine x y)
    else Throw (Error "Point is not on elliptic curve").

(** [Point.fromHex(hex)]: 32 bytes (an x coordinate), 33 bytes (compressed)
    or 65 bytes (uncompressed). *)
Definition fromHex (hex : string) : Outcome Point :=
  match hexToBytes hex with
  | None => Throw (Error "Invalid hex string")
  | Some bytes =>
      let len := List.length bytes in
      let header := nth 0 bytes 0 in
      if (len =? 32)%nat then fromCompressed true false (bytes_to_bigint bytes)
      else if (len =? 33)%nat && ((header =? 2) || (header =? 3))
      then fromCompressed false (header =? 3) (bytes_to_bigint (tl bytes))
      else if (len =? 65)%nat && (header =? 4)
      then
        let x := bytes_to_bigint (firstn 32 (tl bytes)) in
        let y := bytes_to_bigint (skipn 32 (tl bytes)) in
        if on_curve x y then Ret (Affine x y)
        else Throw (Error "Point is not on elliptic curve")
      else Throw (Error "Point.fromHex: received invalid point")
  end.

End Secp256k1.

(** ** ZeroKnowledgeProof *)

Module ZeroKnowledgeProof.

#[local] Open Scope string_scope.

(** [BigInt('0x' + buffer.toString('hex')) % this.curve.CURVE.n]. *)
Definition scalar_of_hex (hex : string) : Outcome Z :=
  x <~ BigInt ("0x" ++ hex) ;;
  Ret (Z.rem x Secp256k1.n).

Record Commitment : Type := mkCommitment {
  commitment : string;
  voteScalar : string;
  randomnessScalar : string
}.

(** The second generator of the Pedersen commitment. *)
Definition h_hex : string :=
  "0250929b74c1a04954b78b4b6035e97a5e078a5a0f28ec96d547bfee9ace803ac0".

(** [generateCommitment(vote, randomness)], the vote already a string. *)
Definition generateCommitment (vote randomness : string) : Outcome Commitment :=
  let voteHash := sha256_hex vote in
  let randomnessHash := sha256_hex randomness in
  let g := Secp256k1.BASE in
  h <~ Secp256k1.fromHex h_hex ;;
  vScalar <~ scalar_of_hex voteHash ;;
  rScalar <~ scalar_of_hex randomnessHash ;;
  gv <~ Secp256k1.multiply g vScalar ;;
  hr <~ Secp256k1.multiply h rScalar ;;
  c <~ Secp256k1.toHex (Secp256k1.add gv hr) false ;;
  Ret (mkCommitment c (toString16 vScalar) (toString16 rScalar)).

(** One branch of the disjunctive proof; [sp_c] is absent on a real one. *)
Record SigmaProof : Type := mkSigmaProof {
  candidateIndex : Z;
  sp_a : string;
  sp_c : option string;
  sp_z : string;
  sp_type : string
}.

Record ProofBundle : Type := mkProofBundle {
  proofs : list SigmaProof;
  challenge : string;
  pb_timestamp : Z
}.

Record Verdict : Type := mkVerdict { isValid : bool; reason : option string }.

(** [generateSigmaProof(isVoted, commitment, candidateIndex)]. *)
Definition generateSigmaProof (isVoted : bool) (commitment : Commitment)
  (candidateIndex : Z) : M SigmaProof :=
  r <- randomBytes 32 ;;
  rScalar <- lift (scalar_of_hex (hex_of_bytes r)) ;;
  let g := Secp256k1.BASE in
  a <- lift (Secp256k1.multiply g rScalar) ;;
  if isVoted then
    aHex <- lift (Secp256k1.toHex a false) ;;
    ret (mkSigmaProof candidateIndex aHex None (toString16 rScalar) "real")
  else
    c <- randomBytes 32 ;;
    z <- randomBytes 32 ;;
    cScalar <- lift (scalar_of_hex (hex_of_bytes c)) ;;
    zScalar <- lift (scalar_of_hex (hex_of_bytes z)) ;;
    aHex <- lift (Secp256k1.toHex a false) ;;
    ret (mkSigmaProof candidateIndex aHex (Some (hex_of_bytes c))
           (toString16 zScalar) "simulated").

(** [generateChallenge(proofs)]: the hash of the first messages, joined. *)
Definition generateChallenge (proofs : list SigmaProof) : string :=
  sha256_hex (String.concat "" (map sp_a proofs)).

(** The loop of [generateProof] over the candidate indices. *)
Fixpoint generateProof_loop (vote : Z) (commitment : Commitment)
  (indices : list nat) : M (list SigmaProof) :=
  match indices with
  | [] => ret []
  | i :: rest =>
      let isVoted := (vote =? Z.of_nat i)%Z in
      proof <- generateSigmaProof isVoted commitment (Z.of_nat i) ;;
      others <- generateProof_loop vote commitment rest ;;
      ret (proof :: others)
  end.

Definition generateProof {A : Type} (vote : Z) (candidates : list A)
  (commitment : Commitment) : M ProofBundle :=
  proofs <- generateProof_loop vote commitment (seq 0 (List.length candidates)) ;;
  now <- Date_now ;;
  ret (mkProofBundle proofs (generateChallenge proofs) now).

(** ['0x' + value] where [value] may be [undefined]. *)
Definition hex_literal (value : option string) : string :=
  "0x" ++ match value with Some s => s | None => "undefined" end.

(** The body of the [try] block of [verifySigmaProof]. *)
Definition verifySigmaProof_try (sigmaProof : SigmaProof)
  (commitment : Commitment) : Outcome bool :=
  let g := Secp256k1.BASE in
  a <~ Secp256k1.fromHex (sp_a sigmaProof) ;;
  if String.eqb (sp_type sigmaProof) "real" then
    z <~ BigInt ("0x" ++ sp_z sigmaProof) ;;
    gz <~ Secp256k1.multiply g z ;;
    Ret (Secp256k1.equals gz a)
  else
    c <~ BigInt (hex_literal (sp_c sigmaProof)) ;;
    z <~ BigInt ("0x" ++ sp_z sigmaProof) ;;
    Ret true.

(** [verifySigmaProof]: whatever is thrown is answered by [false]. *)
Definition verifySigmaProof (sigmaProof : SigmaProof) (commitment : Commitment)
  : bool :=
  match verifySigmaProof_try sigmaProof commitment with
  | Ret b => b
  | Throw _ => false
  end.

(** The [for ... of] loop of [verifyProof]: the first branch that fails. *)
Fixpoint first_invalid (proofs : list SigmaProof) (commitment : Commitment)
  : option SigmaProof :=
  match proofs with
  | [] => None
  | sigmaProof :: rest =>
      if negb (verifySigmaProof sigmaProof commitment) then Some sigmaProof
      else first_invalid rest commitment
  end.

Definition verifyProof {A : Type} (proof : ProofBundle) (commitment : Commitment)
  (candidates : list A) : Verdict :=
  if negb (List.length (proofs proof) =? List.length candidates)%nat
  then mkVerdict false (Some "Invalid proof count")
  else
    match first_invalid (proofs proof) commitment with
    | Some sigmaProof =>
        mkVerdict false
          (Some ("Invalid sigma proof for candidate "
                   ++ toString (candidateIndex sigmaProof)))
    | None =>
        let calculatedChallenge := generateChallenge (proofs proof) in
        if negb (String.eqb calculatedChallenge (challenge proof))
        then mkVerdict false (Some "Invalid challenge")
        else mkVerdict true None
    end.

(** *** Nullifiers *)

Record NullifierProof : Type := mkNullifierProof {
  np_commitment : string;
  response : string;
  randomnessUsed : string
}.

Record Nullifier : Type := mkNullifier {
  nullifier : string;
  proof : NullifierProof
}.

(** [generateNullifierProof(scalar, randomness)]. *)
Definition generateNullifierProof (scalar : Z) (randomness : string)
  : M NullifierProof :=
  r <- randomBytes 32 ;;
  rScalar <- lift (scalar_of_hex (hex_of_bytes r)) ;;
  randomnessScalar <- lift (scalar_of_hex (sha256_hex randomness)) ;;
  ret (mkNullifierProof (toString16 rScalar)
         (toString16 (rScalar + scalar * randomnessScalar)%Z)
         randomness).

(** The string hashed by [generateNullifier]. *)
Definition nullifier_input (userId electionId randomness : string) (now : Z)
  : string :=
  userId ++ ":" ++ electionId ++ ":" ++ randomness ++ ":" ++ toString now.

(** [generateNullifier(userId, electionId, randomness)], the three
    arguments as the template literal renders them. *)
Definition generateNullifier (userId electionId randomness : string)
  : M Nullifier :=
  now <- Date_now ;;
  let input := nullifier_input userId electionId randomness now in
  scalar <- lift (scalar_of_hex (sha256_hex input)) ;;
  let g := Secp256k1.BASE in
  point <- lift (Secp256k1.multiply g scalar) ;;
  hex <- lift (Secp256k1.toHex point false) ;;
  proof <- generateNullifierProof scalar randomness ;;
  ret (mkNullifier hex proof).

(** The string hashed by [verifyNullifierProof]. *)
Definition expected_input (userId electionId randomnessUsed : string) : string :=
  userId ++ ":" ++ electionId ++ ":" ++ randomnessUsed.

(** The body of the [try] block of [verifyNullifierProof]. *)
Definition verifyNullifierProof_try (nullifierData : Nullifier)
  (userId electionId : string) : Outcome bool :=
  let input := expected_input userId electionId
                 (randomnessUsed (proof nullifierData)) in
  expectedScalar <~ scalar_of_hex (sha256_hex input) ;;
  let g := Secp256k1.BASE in
  expectedNullifier <~ Secp256k1.multiply g expectedScalar ;;
  hex <~ Secp256k1.toHex expectedNullifier false ;;
  Ret (String.eqb hex (nullifier nullifierData)).

Definition verifyNullifierProof (nullifierData : Nullifier)
  (userId electionId : string) : bool :=
  match verifyNullifierProof_try nullifierData userId electionId with
  | Ret b => b
  | Throw _ => false
  end.

(** [isNullifierUnique(nullifier, existingNullifiers)]. *)
Definition isNullifierUnique (nullifier : string) (existingNullifiers : list string)
  : bool :=
  negb (existsb (String.eqb nullifier) existingNullifiers).

End ZeroKnowledgeProof.

(** ** JavaScript values, as far as the mixnet handles them *)

(** Numbers are integers here (indices, rounds and timestamps). *)
#[warnings="-register-all"]
Inductive JSValue : Type :=
| JUndefined
| JNull
| JBool (b : bool)
| JNumber (z : Z)
| JString (s : string)
| JArray (elements : list JSValue)
| JObject (fields : list (string * JSValue)).

Module JS.

#[local] Open Scope string_scope.

(** [String(v)], which is what [v + aString] concatenates. *)
Fixpoint ToString (v : JSValue) : string :=
  match v with
  | JUndefined => "undefined"
  | JNull => "null"
  | JBool b => if b then "true" else "false"
  | JNumber z => toString z
  | JString s => s
  | JArray elements =>
      String.concat ","
        (map (fun e => match e with
                       | JUndefined | JNull => ""
                       | _ => ToString e
                       end) elements)
  | JObject _ => "[object Object]"
  end.

(** The escape of one character inside a JSON string. *)
Definition escape_char (c : ascii) : string :=
  let k := nat_of_ascii c in
  if (k =? 34)%nat then "\" ++ String c ""
  else if (k =? 92)%nat then "\\"
  else if (k =? 8)%nat then "\b"
  else if (k =? 9)%nat then "\t"
  else if (k =? 10)%nat then "\n"
  else if (k =? 12)%nat then "\f"
  else if (k =? 13)%nat then "\r"
  else if (k <? 32)%nat
  then "\u00" ++ String (hex_digit (Z.of_nat k / 16))
                   (String (hex_digit (Z.of_nat k mod 16)) "")
  else String c "".

Fixpoint escape (s : string) : string :=
  match s with
  | EmptyString => EmptyString
  | String c s' => escape_char c ++ escape s'
  end.

Definition quote (s : string) : string :=
  String (ascii_of_nat 34) (escape s ++ String (ascii_of_nat 34) "").

(** [JSON.stringify(v)]; [None] stands for [undefined]. *)
Fixpoint stringify (v : JSValue) : option string :=
  match v with
  | JUndefined => None
  | JNull => Some "null"
  | JBool b => Some (if b then "true" else "false")
  | JNumber z => Some (toString z)
  | JString s => Some (quote s)
  | JArray elements =>
      Some ("[" ++ String.concat ","
                     (map (fun e => match stringify e with
                                    | Some t => t
                                    | None => "null"
                                    end) elements)
                ++ "]")
  | JObject fields =>
      Some ("{" ++ String.concat ","
                     (flat_map (fun kv => match stringify (snd kv) with
                                          | Some t => [quote (fst kv) ++ ":" ++ t]
                                          | None => []
                                          end) fields)
                ++ "}")
  end.

Definition JSON_stringify (v : JSValue) : string :=
  match stringify v with
  | Some t => t
  | None => "undefined"
  end.

Fixpoint lookup (key : string) (fields : list (string * JSValue)) : JSValue :=
  match fields with
  | [] => JUndefined
  | (k, v) :: rest => if String.eqb k key then v else lookup key rest
  end.

(** [v.ciphertext]: a TypeError on [undefined] and [null]; strings, arrays,
    numbers and booleans have no such property. *)
Definition get_ciphertext (v : JSValue) : Outcome JSValue :=
  match v with
  | JUndefined | JNull =>
      Throw (TypeError "Cannot read properties of undefined (reading 'ciphertext')")
  | JObject fields => Ret (lookup "ciphertext" fields)
  | _ => Ret JUndefined
  end.

(** An assignment [o[key] = v] in an object literal: an existing key keeps
    its place, a new one goes last. *)
Fixpoint set_field (key : string) (v : JSValue) (fields : list (string * JSValue))
  : list (string * JSValue) :=
  match fields with
  | [] => [(key, v)]
  | (k, old) :: rest =>
      if String.eqb k key then (k, v) :: rest
      else (k, old) :: set_field key v rest
  end.

Fixpoint chars (s : string) : list JSValue :=
  match s with
  | EmptyString => []
  | String c s' => JString (String c "") :: chars s'
  end.

Definition with_indices (l : list JSValue) : list (string * JSValue) :=
  map (fun iv => (toString (Z.of_nat (fst iv)), snd iv))
      (combine (seq 0 (List.length l)) l).

(** The own enumerable properties [{...v}] copies. *)
Definition spread (v : JSValue) : list (string * JSValue) :=
  match v with
  | JObject fields => fields
  | JString s => with_indices (chars s)
  | JArray elements => with_indices elements
  | _ => []
  end.

End JS.

(** ** Mixnets *)

Module Mixnets.

#[local] Open Scope string_scope.

Record MixNode : Type := mkMixNode {
  nodeId : string;
  mn_publicKey : JSValue;
  processed : bool
}.

Record Mixnets : Type := mkMixnets {
  mixNodes : list MixNode;
  shuffleRounds : nat
}.

Definition constructor : Mixnets := mkMixnets [] 3.

Definition addMixNode (this : Mixnets) (nodeId : string) (publicKey : JSValue)
  : Mixnets :=
  mkMixnets (mixNodes this ++ [mkMixNode nodeId publicKey false])
            (shuffleRounds this).

Record ShuffleProof : Type := mkShuffleProof {
  round : Z;
  sp_commitment : string;
  sp_timestamp : Z;
  sp_nodeId : string;
  verified : bool
}.

(** [multiplyWithRandomness(ciphertext, randomness)]. *)
Definition multiplyWithRandomness (ciphertext : JSValue) (randomness : string)
  : string :=
  sha256_hex (JS.ToString ciphertext ++ randomness).

(** [rerandomize(encryptedVote)]. *)
Definition rerandomize (encryptedVote : JSValue) : M JSValue :=
  bytes <- randomBytes 32 ;;
  let randomFactor := hex_of_bytes bytes in
  let copied := JS.spread encryptedVote in
  ciphertext <- lift (JS.get_ciphertext encryptedVote) ;;
  let hashed := multiplyWithRandomness ciphertext randomFactor in
  now <- Date_now ;;
  ret (JObject
         (JS.set_field "timestamp" (JNumber now)
            (JS.set_field "rerandomized" (JBool true)
               (JS.set_field "ciphertext" (JString hashed) copied)))).

(** [l[i] = v] on an array, for an index inside it. *)
Fixpoint list_set {A : Type} (l : list A) (i : nat) (v : A) : list A :=
  match l, i with
  | [], _ => []
  | _ :: rest, O => v :: rest
  | a :: rest, S i' => a :: list_set rest i' v
  end.

(** [[p[i], p[j]] = [p[j], p[i]]]. *)
Definition swap (p : list Z) (i j : nat) : list Z :=
  let pi := nth i p 0%Z in
  let pj := nth j p 0%Z in
  list_set (list_set p i pj) j pi.

(** The Fisher-Yates loop, [i] running down to 1. *)
Fixpoint fisher_yates (i : nat) (permutation : list Z) : M (list Z) :=
  match i with
  | O => ret permutation
  | S i' =>
      j <- Math_random_below (Z.of_nat (S i)) ;;
      fisher_yates i' (swap permutation i (Z.to_nat j))
  end.

Definition generatePermutation (length : nat) : M (list Z) :=
  fisher_yates (length - 1) (map Z.of_nat (seq 0 length)).

(** [shuffledVotes.map(vote => this.rerandomize(vote))]. *)
Fixpoint rerandomize_all (votes : list JSValue) : M (list JSValue) :=
  match votes with
  | [] => ret []
  | vote :: rest =>
      v <- rerandomize vote ;;
      vs <- rerandomize_all rest ;;
      ret (v :: vs)
  end.

(** [generateShuffleProof(originalVotes, shuffledVotes, permutation, round)]. *)
Definition generateShuffleProof (originalVotes shuffledVotes : list JSValue)
  (permutation : list Z) (round : Z) : M ShuffleProof :=
  let commitment :=
    sha256_hex
      (JS.JSON_stringify
         (JObject [("originalVotes", JArray originalVotes);
                   ("shuffledVotes", JArray shuffledVotes);
                   ("permutation", JArray (map JNumber permutation))])) in
  now <- Date_now ;;
  ret (mkShuffleProof round commitment now ("mix-node-" ++ toString round) true).

Record ShuffleResult : Type := mkShuffleResult {
  sr_shuffledVotes : list JSValue;
  sr_proof : ShuffleProof;
  sr_permutation : list Z
}.

(** [performShuffle(votes, round)]. *)
Definition performShuffle (votes : list JSValue) (round : Z) : M ShuffleResult :=
  permutation <- generatePermutation (List.length votes) ;;
  let shuffledVotes :=
    map (fun j => nth (Z.to_nat j) votes JUndefined) permutation in
  rerandomizedVotes <- rerandomize_all shuffledVotes ;;
  proof <- generateShuffleProof votes rerandomizedVotes permutation round ;;
  ret (mkShuffleResult rerandomizedVotes proof permutation).

Record MixnetResult : Type := mkMixnetResult {
  shuffledVotes : list JSValue;
  proofs : list ShuffleProof;
  mr_mixNodes : nat;
  rounds : nat
}.

(** The [for] loop of [shuffleVotes], [left] rounds still to run. *)
Fixpoint shuffle_rounds (left : nat) (round : Z) (currentVotes : list JSValue)
  (shuffleProofs : list ShuffleProof) : M (list JSValue * list ShuffleProof) :=
  match left with
  | O => ret (currentVotes, shuffleProofs)
  | S left' =>
      shuffleResult <- performShuffle currentVotes round ;;
      shuffle_rounds left' (round + 1)%Z (sr_shuffledVotes shuffleResult)
        (shuffleProofs ++ [sr_proof shuffleResult])
  end.

(** [shuffleVotes(encryptedVotes)]. *)
Definition shuffleVotes (this : Mixnets) (encryptedVotes : list JSValue)
  : M MixnetResult :=
  '(currentVotes, shuffleProofs) <-
     shuffle_rounds (shuffleRounds this) 0%Z encryptedVotes [] ;;
  ret (mkMixnetResult currentVotes shuffleProofs
         (List.length (mixNodes this)) (shuffleRounds this)).

Record ShuffleVerdict : Type := mkShuffleVerdict {
  isValid : bool;
  reason : option string;
  sv_commitment : option string;
  sv_verified : option bool
}.

(** [verifyShuffleProof(proof, originalVotes, shuffledVotes)].  The
    recomputed commitment is bound to [expectedCommitment] and never read. *)
Definition verifyShuffleProof (proof : ShuffleProof)
  (originalVotes shuffledVotes : list JSValue) : ShuffleVerdict :=
  if negb (List.length originalVotes =? List.length shuffledVotes)%nat
  then mkShuffleVerdict false (Some "Vote count mismatch") None None
  else
    let expectedCommitment :=
      sha256_hex
        (JS.JSON_stringify
           (JObject [("originalVotes", JArray originalVotes);
                     ("shuffledVotes", JArray shuffledVotes)])) in
    mkShuffleVerdict true None (Some (sp_commitment proof)) (Some (verified proof)).

End Mixnets.

(** ** Auxiliary notions used in the statements and proofs *)

Fixpoint string_forall (P : ascii -> bool) (s : string) : bool :=
  match s with
  | EmptyString => true
  | String c s' => P c && string_forall P s'
  end.

Definition is_decimal_digit (c : ascii) : bool :=
  let k := nat_of_ascii c in ((48 <=? k) && (k <=? 57))%nat.

(** [this.privateKeyShares.shares.length], zero when there is no such list. *)
Definition available_shares (this : HomomorphicEncryption.Engine) : Z :=
  match HomomorphicEncryption.privateKeyShares this with
  | Some ks =>
      match HomomorphicEncryption.ks_shares ks with
      | Some shares => Z.of_nat (List.length shares)
      | None => 0
      end
  | None => 0
  end.

(** *** A small concrete election, for the examples *)

Definition sample_entropy : list Z :=
  [19; 56; 93; 130; 167; 204; 241; 22; 59; 96; 133; 170; 207; 244; 25; 62;
   99; 136; 173; 210; 247; 28; 65; 102; 139; 176; 213; 250; 31; 68; 105;
   142; 179; 216; 253; 34; 71; 108; 145; 182; 219; 0; 37; 74; 111; 148;
   185; 222; 3; 40; 77; 114; 151; 188; 225; 6; 43; 80; 117; 154; 191; 228;
   9; 46].

Definition sample_clock : list Z :=
  [1700000000000; 1700000001000; 1700000002000; 1700000003000;
   1700000004000; 1700000005000; 1700000006000; 1700000007000].

Definition sample_world : World :=
  mkWorld (fun i => nth i sample_entropy 7) 0
          (fun i => nth i sample_clock 1700000009000) 0.

(** A primality test that is right on 5-bit candidates. *)
Definition five_bit_prime (w iterations : Z) : bool :=
  (w =? 19) || (w =? 23) || (w =? 29) || (w =? 31).

(** The engine after [generateKeys()] with [keySize = 10]: [p = 19],
    [q = 29], [n = 551], five shares of [lambda = 252], threshold three. *)
Definition sample_engine : HomomorphicEncryption.Engine :=
  Eval vm_compute in
    match fst (HomomorphicEncryption.generateKeys five_bit_prime
                 (HomomorphicEncryption.mkEngine 10 None None None None)
                 sample_world) with
    | Ret (_, this) => this
    | Throw _ => HomomorphicEncryption.constructor
    end.

Definition sample_publicKey : HomomorphicEncryption.PublicKey :=
  HomomorphicEncryption.mkPublicKey 551 552 303601.

(** *** Polynomials with integer coefficients, lowest degree first *)

Fixpoint peval (p : list Z) (x : Z) : Z :=
  match p with
  | [] => 0
  | c :: p' => c + x * peval p' x
  end.

Fixpoint padd (p q : list Z) : list Z :=
  match p, q with
  | [], _ => q
  | _, [] => p
  | a :: p', b :: q' => (a + b) :: padd p' q'
  end.

Definition pscale (c : Z) (p : list Z) : list Z := map (Z.mul c) p.

(** The product of [p] by [X - a]. *)
Definition pmulx (a : Z) (p : list Z) : list Z :=
  padd (0 :: p) (pscale (- a) p).

Definition pprod (roots : list Z) : list Z := fold_right pmulx [1] roots.

(** The quotient of [c :: p] by [X - a], from the tail [p]. *)
Fixpoint pquot (p : list Z) (a : Z) : list Z :=
  match p with
  | [] => []
  | c :: p' => peval p a :: pquot p' a
  end.

Definition zsum (l : list Z) : Z := fold_right Z.add 0 l.
Definition zprod (l : list Z) : Z := fold_right Z.mul 1 l.

(** *** Lagrange interpolation at zero over a list of shares *)

(** The identifiers of the other shares. *)
Definition other_ids (s : HomomorphicEncryption.Share)
  (shares : list HomomorphicEncryption.Share) : list Z :=
  map HomomorphicEncryption.id
    (filter (fun t => negb (HomomorphicEncryption.id t =? HomomorphicEncryption.id s))
       shares).

Definition lagrange_numerator (s : HomomorphicEncryption.Share)
  (shares : list HomomorphicEncryption.Share) : Z :=
  zprod (map (fun x => - x) (other_ids s shares)).

Definition lagrange_denominator (s : HomomorphicEncryption.Share)
  (shares : list HomomorphicEncryption.Share) : Z :=
  zprod (map (fun x => HomomorphicEncryption.id s - x) (other_ids s shares)).

(** The share identifiers differ pairwise by units modulo [m]. *)
Definition invertible_differences (m : Z)
  (shares : list HomomorphicEncryption.Share) : Prop :=
  forall s t, In s shares -> In t shares -> s <> t ->
    Z.gcd (HomomorphicEncryption.id s - HomomorphicEncryption.id t) m = 1.

(** The Lagrange basis polynomial of [s], scaled by its value. *)
Definition lagrange_basis (m : Z) (shares : list HomomorphicEncryption.Share)
  (s : HomomorphicEncryption.Share) : list Z :=
  pscale (HomomorphicEncryption.value s
          * Z.invmod (lagrange_denominator s shares) m)
         (pprod (other_ids s shares)).

(** The term of [s] in the interpolation at zero. *)
Definition lagrange_term (m : Z) (shares : list HomomorphicEncryption.Share)
  (s : HomomorphicEncryption.Share) : Z :=
  HomomorphicEncryption.value s
  * (lagrange_numerator s shares * Z.invmod (lagrange_denominator s shares) m).

(** The identifiers [lagrange_loop] visits for index [i]: those of the rows
    whose index differs from [i]. *)
Definition index_others (i : nat) (js : list (nat * HomomorphicEncryption.Share))
  : list Z :=
  map (fun row => HomomorphicEncryption.id (snd row))
    (filter (fun row => negb (i =? fst row)%nat) js).

(** *** Paillier key pairs *)

(** A key pair as [generateKeys] computes it from two distinct primes. *)
Definition paillier_key_pair (pk : HomomorphicEncryption.PublicKey)
  (sk : HomomorphicEncryption.PrivateKey) : Prop :=
  exists p q, Z.prime p /\ Z.prime q /\ p <> q
              /\ HomomorphicEncryption.derive_keys p q = Ret (pk, sk).

(** The votes whose sum a JavaScript number holds exactly. *)
Definition MAX_SAFE_INTEGER : Z := 2 ^ 53 - 1.



(** *** What a shuffle round leaves of a vote *)

(** The fields a round rewrites. *)
Definition rewritten_key (key : string) : bool :=
  String.eqb key "ciphertext" || String.eqb key "rerandomized"
  || String.eqb key "timestamp".

(** The other properties of a vote, which a round copies. *)
Definition payload (vote : JSValue) : list (string * JSValue) :=
  filter (fun kv => negb (rewritten_key (fst kv))) (JS.spread vote).

(** The ciphertext a shuffled vote carries, if it is a string. *)
Definition ciphertext_string (vote : JSValue) : option string :=
  match vote with
  | JObject fields =>
      match JS.lookup "ciphertext" fields with
      | JString s => Some s
      | _ => None
      end
  | _ => None
  end.


(** An encryption of 3 under the sample key, as a mixnet input. *)
Definition sample_vote : JSValue :=
  JObject [("ciphertext", JString "246415"); ("booth", JNumber 7)]%string.

(** *** Curve-side notions of the proof statements *)

(** The hexadecimal encoding of [g^s], when there is one. *)
Definition point_hex (s : Z) : Outcome string :=
  point <~ Secp256k1.multiply Secp256k1.BASE s ;;
  Secp256k1.toHex point false.

(** The nullifier value that belongs to a hashed string: [g^s] for [s] the
    SHA-256 digest of the string, reduced modulo the curve order. *)
Definition nullifier_of_input (input : string) : Outcome string :=
  s <~ ZeroKnowledgeProof.scalar_of_hex (sha256_hex input) ;;
  point_hex s.

(** The verification equation of a simulated branch of the OR-proof,
    [g^z = a * C^c], for a commitment point [C]. *)
Definition or_relation (sigmaProof : ZeroKnowledgeProof.SigmaProof)
  (commitment : ZeroKnowledgeProof.Commitment) : Outcome bool :=
  a <~ Secp256k1.fromHex (ZeroKnowledgeProof.sp_a sigmaProof) ;;
  C <~ Secp256k1.fromHex (ZeroKnowledgeProof.commitment commitment) ;;
  c <~ BigInt (ZeroKnowledgeProof.hex_literal (ZeroKnowledgeProof.sp_c sigmaProof)) ;;
  z <~ BigInt ("0x" ++ ZeroKnowledgeProof.sp_z sigmaProof) ;;
  gz <~ Secp256k1.multiply Secp256k1.BASE z ;;
  Cc <~ Secp256k1.multiply C c ;;
  Ret (Secp256k1.equals gz (Secp256k1.add a Cc)).

(** What [verifySigmaProof] does require of a branch that is not real: a
    first message that decodes to a point, and hexadecimal [c] and [z]. *)
Definition well_formed_simulated (sigmaProof : ZeroKnowledgeProof.SigmaProof)
  : bool :=
  match Secp256k1.fromHex (ZeroKnowledgeProof.sp_a sigmaProof),
        BigInt (ZeroKnowledgeProof.hex_literal (ZeroKnowledgeProof.sp_c sigmaProof)),
        BigInt ("0x" ++ ZeroKnowledgeProof.sp_z sigmaProof) with
  | Ret _, Ret _, Ret _ => true
  | _, _, _ => false
  end.

(** The base point, encoded. *)
Definition G_hex : string :=
  Eval vm_compute in
    match Secp256k1.toHex Secp256k1.BASE false with
    | Ret s => s
    | Throw _ => EmptyString
    end.

(** A bundle for one candidate whose only branch is simulated, with
    [a = G], [c = 1], [z = 1], and the commitment [C = G]. *)
Definition forged_branch : ZeroKnowledgeProof.SigmaProof :=
  ZeroKnowledgeProof.mkSigmaProof 0 G_hex (Some "01"%string) "01" "simulated".

Definition forged_bundle : ZeroKnowledgeProof.ProofBundle :=
  ZeroKnowledgeProof.mkProofBundle [forged_branch]
    (ZeroKnowledgeProof.generateChallenge [forged_branch]) 0.

Definition forged_commitment : ZeroKnowledgeProof.Commitment :=
  ZeroKnowledgeProof.mkCommitment G_hex "1" "1".

(** The digest read as a big-endian integer. *)
Definition sha256_int (data : string) : Z :=
  bytes_to_bigint (Sha256.digest (string_bytes data)).

Definition is_hex_char (c : ascii) : bool :=
  match digit_value c with
  | Some d => d <? 16
  | None => false
  end.


(** ** A key generation that draws the same prime twice *)

(** A primality test that is right on every candidate. *)
Definition exact_prime_test (w iterations : Z) : bool := trial_division w.

(** An entropy source that keeps answering 19: with [keySize = 10] both
    calls of [generatePrime] return 19. *)
Definition repeating_world : World :=
  mkWorld (fun _ => 19) 0 (fun i => nth i sample_clock 1700000009000) 0.

(** ** What a shuffle round does to a ciphertext *)



(** ** Further notions for the homomorphic engine *)

(** [ref] is a vote reference, in one of the shapes [addEncrypted] accepts,
    that carries the ciphertext of an encryption of [v] under [pk]. *)
Definition encrypts (this : HomomorphicEncryption.Engine)
  (pk : HomomorphicEncryption.PublicKey) (v : Z)
  (ref : HomomorphicEncryption.VoteRef) : Prop :=
  exists (w w' : World) (e : HomomorphicEncryption.EncryptedVote),
    HomomorphicEncryption.encrypt this v (Some pk) w = (Ret e, w')
    /\ HomomorphicEncryption.vote_ciphertext ref
       = Ret (HomomorphicEncryption.ciphertext e).

(** Any two shares at different positions of the list have identifiers whose
    difference is a unit modulo [m]. *)
Definition units_by_position (m : Z) (shares : list HomomorphicEncryption.Share)
  : Prop :=
  forall (i j : nat) (si sj : HomomorphicEncryption.Share),
    nth_error shares i = Some si -> nth_error shares j = Some sj -> i <> j ->
    Z.gcd (HomomorphicEncryption.id si - HomomorphicEncryption.id sj) m = 1.

Module Tally.
Import HomomorphicEncryption.

Record TallyCheck : Type := mkTallyCheck {
  tc_isValid : bool;
  calculatedSum : JSNumber;
  expectedSum : JSNumber;
  homomorphicResult : string
}.

(** [a === b] on the numbers [decrypt] can return. *)
Definition strict_equal (a b : JSNumber) : bool :=
  match a, b with
  | Finite x, Finite y => x =? y
  | Infinity s, Infinity t => Bool.eqb s t
  | _, _ => false
  end.

(** [verifyTally(encryptedVotes, expectedSum, publicKey = this.publicKey)];
    the sum is decrypted with [this.privateKey]. *)
Definition verifyTally (this : Engine) (encryptedVotes : list VoteRef)
  (expectedSum : JSNumber) (publicKey_arg : option PublicKey)
  : Outcome TallyCheck :=
  homomorphicSum <~ addEncrypted this encryptedVotes publicKey_arg ;;
  decryptedSum <~ decrypt this homomorphicSum None ;;
  Ret (mkTallyCheck (strict_equal decryptedSum expectedSum) decryptedSum
         expectedSum homomorphicSum).

End Tally.

(** A vote the mixnet can read a [ciphertext] property from: anything but
    [null] and [undefined]. *)
Definition readable_vote (v : JSValue) : bool :=
  match v with
  | JUndefined | JNull => false
  | _ => true
  end.

(** What the proof of shuffle round [r] looks like. *)
Definition proof_of_round (r : Z) (proof : Mixnets.ShuffleProof) : Prop :=
  Mixnets.round proof = r
  /\ Mixnets.sp_nodeId proof = ("mix-node-" ++ toString r)%string
  /\ Mixnets.verified proof = true
  /\ String.length (Mixnets.sp_commitment proof) = 64%nat.

(** ** ReceiptGeneration *)

Module ReceiptGeneration.

#[local] Open Scope string_scope.

(** [v[key]], for a key that names no built-in property: a TypeError on
    [undefined] and [null], the own property of an object, [undefined] on
    anything else. *)
Definition get (key : string) (v : JSValue) : Outcome JSValue :=
  match v with
  | JUndefined =>
      Throw (TypeError ("Cannot read properties of undefined (reading '"
                          ++ key ++ "')"))
  | JNull =>
      Throw (TypeError ("Cannot read properties of null (reading '"
                          ++ key ++ "')"))
  | JObject fields => Ret (JS.lookup key fields)
  | _ => Ret JUndefined
  end.

(** [Object.keys(v)]: the own enumerable keys, in the order the value lists
    them. *)
Definition Object_keys (v : JSValue) : Outcome (list string) :=
  match v with
  | JUndefined | JNull =>
      Throw (TypeError "Cannot convert undefined or null to object")
  | _ => Ret (map fst (JS.spread v))
  end.

(** [keys.sort()] with the default comparison, which orders strings by
    their code units. *)
Fixpoint insert_sorted (k : string) (l : list string) : list string :=
  match l with
  | [] => [k]
  | h :: t => if String.leb k h then k :: l else h :: insert_sorted k t
  end.

Definition sort (l : list string) : list string := fold_right insert_sorted [] l.

(** The property list [JSON.stringify] derives from a replacer array of
    strings: its elements in order, later duplicates dropped. *)
Fixpoint property_list (replacer seen : list string) : list string :=
  match replacer with
  | [] => []
  | k :: rest =>
      if existsb (String.eqb k) seen then property_list rest seen
      else k :: property_list rest (k :: seen)
  end.

Fixpoint assoc {A : Type} (key : string) (l : list (string * A)) : option A :=
  match l with
  | [] => None
  | (k, a) :: rest => if String.eqb k key then Some a else assoc key rest
  end.

(** [JSON.stringify(v, K)] for a property list [K]: every object, nested
    ones included, is rendered with the keys of [K] it has, in the order of
    [K]; arrays keep all their elements. *)
Fixpoint stringify_with (K : list string) (v : JSValue) : option string :=
  match v with
  | JUndefined => None
  | JNull => Some "null"
  | JBool b => Some (if b then "true" else "false")
  | JNumber z => Some (toString z)
  | JString s => Some (JS.quote s)
  | JArray elements =>
      Some ("[" ++ String.concat ","
                     (map (fun e => match stringify_with K e with
                                    | Some t => t
                                    | None => "null"
                                    end) elements)
                ++ "]")
  | JObject fields =>
      let rendered := map (fun kv => (fst kv, stringify_with K (snd kv))) fields in
      Some ("{" ++ String.concat ","
                     (flat_map (fun k => match assoc k rendered with
                                         | Some (Some t) => [JS.quote k ++ ":" ++ t]
                                         | _ => []
                                         end) K)
                ++ "}")
  end.

(** [createHash('sha256').update(undefined)]. *)
Definition update_undefined : Exn :=
  TypeError ("The " ++ JS.quote "data"
               ++ " argument must be of type string or an instance of Buffer, TypedArray, or DataView. Received undefined").

(** [generateReceiptHash(receiptData)]. *)
Definition generateReceiptHash (receiptData : JSValue) : Outcome string :=
  keys <~ Object_keys receiptData ;;
  match stringify_with (property_list (sort keys) []) receiptData with
  | Some dataString => Ret (sha256_hex dataString)
  | None => Throw update_undefined
  end.

(** [hashData(data)]. *)
Definition hashData (data : JSValue) : Outcome string :=
  match data with
  | JString s => Ret (sha256_hex s)
  | _ =>
      match JS.stringify data with
      | Some dataString => Ret (sha256_hex dataString)
      | None => Throw update_undefined
      end
  end.

(** [s.toUpperCase()] on the ASCII range, which is all a hexadecimal digest
    contains. *)
Definition upper_char (c : ascii) : ascii :=
  let k := nat_of_ascii c in
  if ((97 <=? k) && (k <=? 122))%nat then ascii_of_nat (k - 32) else c.

Fixpoint toUpperCase (s : string) : string :=
  match s with
  | EmptyString => EmptyString
  | String c s' => String (upper_char c) (toUpperCase s')
  end.

(** [generateVerificationCode()]. *)
Definition generateVerificationCode : M string :=
  randomData <- randomBytes 16 ;;
  let hash := hex_of_bytes (Sha256.digest randomData) in
  ret (toUpperCase (substring 0 12 hash)).

(** [const { receiptHash, ...dataWithoutHash } = receiptData]. *)
Definition without_key (key : string) (fields : list (string * JSValue))
  : list (string * JSValue) :=
  filter (fun kv => negb (String.eqb (fst kv) key)) fields.

Definition destructure (receiptData : JSValue) : Outcome (JSValue * JSValue) :=
  match receiptData with
  | JUndefined =>
      Throw (TypeError "Cannot destructure property 'receiptHash' of 'receiptData' as it is undefined.")
  | JNull =>
      Throw (TypeError "Cannot destructure property 'receiptHash' of 'receiptData' as it is null.")
  | _ =>
      let own := JS.spread receiptData in
      receiptHash <~ get "receiptHash" receiptData ;;
      Ret (receiptHash, JObject (without_key "receiptHash" own))
  end.

Record Verification : Type := mkVerification {
  isValid : bool;
  calculatedHash : option string;
  providedHash : option JSValue;
  vr_timestamp : option string;
  error : option string
}.

Definition message (e : Exn) : string :=
  match e with
  | Error m | RangeError m | TypeError m | SyntaxError m => m
  | Diverged => EmptyString
  end.

Record Receipt : Type := mkReceipt {
  receiptId : string;
  verificationCode : string;
  receiptHash : string;
  receiptData : JSValue
}.

Section Environment.

(** [uuidv4()] of the uuid package, and [toISOString] of a date given as
    milliseconds since the epoch: both left open. *)
Variable uuidv4 : M string.
Variable toISOString : Z -> string.

(** [a === b] for a string [a]. *)
Definition same_string (a : string) (b : JSValue) : bool :=
  match b with
  | JString s => String.eqb a s
  | _ => false
  end.

(** [verifyReceipt(receiptData)]; the clock is read only when the hash
    could be recomputed. *)
Definition verifyReceipt (receiptData : JSValue) : M Verification :=
  fun w =>
    match (parts <~ destructure receiptData ;;
           calculated <~ generateReceiptHash (snd parts) ;;
           Ret (fst parts, calculated)) with
    | Ret (provided, calculated) =>
        (Ret (mkVerification (same_string calculated provided) (Some calculated)
                (Some provided) (Some (toISOString (clock w (reads w)))) None),
         mkWorld (entropy w) (drawn w) (clock w) (S (reads w)))
    | Throw e => (Ret (mkVerification false None None None (Some (message e))), w)
    end.

(** [generateReceipt(voteData, encryptedVote, zkProof)]; the properties of
    the object literal are evaluated in the order they are written. *)
Definition generateReceipt (voteData encryptedVote zkProof : JSValue) : M Receipt :=
  receiptId <- uuidv4 ;;
  verificationCode <- generateVerificationCode ;;
  voteId <- lift (get "voteId" voteData) ;;
  electionId <- lift (get "electionId" voteData) ;;
  userId <- lift (get "userId" voteData) ;;
  now <- Date_now ;;
  voteCommitment <- lift (get "commitment" encryptedVote) ;;
  proofHash <- lift (hashData zkProof) ;;
  electionHash <- lift (get "electionHash" voteData) ;;
  let fields :=
    [("receiptId", JString receiptId);
     ("voteId", voteId);
     ("electionId", electionId);
     ("userId", userId);
     ("timestamp", JString (toISOString now));
     ("verificationCode", JString verificationCode);
     ("voteCommitment", voteCommitment);
     ("proofHash", JString proofHash);
     ("electionHash", electionHash);
     ("receiptVersion", JString "1.0")] in
  receiptHash <- lift (generateReceiptHash (JObject fields)) ;;
  ret (mkReceipt receiptId verificationCode receiptHash
         (JObject (JS.set_field "receiptHash" (JString receiptHash) fields))).

(** [generateBatchReceipts(votesData)]. *)
Fixpoint generateBatchReceipts (votesData : list JSValue) : M (list Receipt) :=
  match votesData with
  | [] => ret []
  | voteData :: rest =>
      vd <- lift (get "voteData" voteData) ;;
      ev <- lift (get "encryptedVote" voteData) ;;
      zk <- lift (get "zkProof" voteData) ;;
      receipt <- generateReceipt vd ev zk ;;
      others <- generateBatchReceipts rest ;;
      ret (receipt :: others)
  end.

End Environment.

End ReceiptGeneration.


(** A list of keys in ascending order. *)
Inductive sorted : list string -> Prop :=
| sorted_nil : sorted []
| sorted_cons k l :
    Forall (fun h => String.leb k h = true) l -> sorted l -> sorted (k :: l).

(** ** Storing and loading keys *)

(** Values as the controllers hold them: JavaScript values that may
    contain BigInts. *)
#[warnings="-register-all"]
Inductive BigValue : Type :=
| VUndefined
| VNull
| VBool (b : bool)
| VNumber (z : Z)
| VBigInt (z : Z)
| VString (s : string)
| VArray (elements : list BigValue)
| VObject (fields : list (string * BigValue)).

Module KeyStore.
Import HomomorphicEncryption.

#[local] Open Scope string_scope.

(** [serializeBigInt(obj)] of the controllers: BigInts become their decimal
    strings, arrays and objects are rebuilt around converted members,
    everything else is kept. *)
Fixpoint serializeBigInt (obj : BigValue) : JSValue :=
  match obj with
  | VUndefined => JUndefined
  | VNull => JNull
  | VBigInt z => JString (toString z)
  | VArray elements => JArray (map serializeBigInt elements)
  | VObject fields =>
      JObject (map (fun kv => (fst kv, serializeBigInt (snd kv))) fields)
  | VBool b => JBool b
  | VNumber z => JNumber z
  | VString s => JString s
  end.

(** [this.publicKey] and [this.privateKey] as the controllers see them. *)
Definition publicKey_value (pk : PublicKey) : BigValue :=
  VObject [("n", VBigInt (pk_n pk)); ("g", VBigInt (pk_g pk));
           ("nsq", VBigInt (pk_nsq pk))].

Definition privateKey_value (sk : PrivateKey) : BigValue :=
  VObject [("lambda", VBigInt (sk_lambda sk)); ("mu", VBigInt (sk_mu sk));
           ("n", VBigInt (sk_n sk)); ("nsq", VBigInt (sk_nsq sk))].

(** [BigInt(v)] for any value: numbers (integers here) and booleans
    convert, strings are parsed, arrays and objects go through their string
    form, [undefined] and [null] are TypeErrors. *)
Definition BigInt_of (v : JSValue) : Outcome Z :=
  match v with
  | JUndefined => Throw (TypeError "Cannot convert undefined to a BigInt")
  | JNull => Throw (TypeError "Cannot convert null to a BigInt")
  | JBool b => Ret (if b then 1 else 0)%Z
  | JNumber z => Ret z
  | JString s => BigInt s
  | JArray _ | JObject _ => BigInt (JS.ToString v)
  end.

(** [BigInt(keyData[key])]. *)
Definition field (key : string) (keyData : JSValue) : Outcome Z :=
  v <~ ReceiptGeneration.get key keyData ;;
  BigInt_of v.

Section Parsing.

(** [JSON.parse], left open. *)
Variable JSON_parse : string -> Outcome JSValue.

(** [typeof data === 'string' ? JSON.parse(data) : data]. *)
Definition key_data (data : JSValue) : Outcome JSValue :=
  match data with
  | JString s => JSON_parse s
  | _ => Ret data
  end.

(** [setPublicKey(publicKeyData)]: the outcome and the engine afterwards. *)
Definition setPublicKey (this : Engine) (publicKeyData : JSValue)
  : Outcome PublicKey * Engine :=
  match (keyData <~ key_data publicKeyData ;;
         n <~ field "n" keyData ;;
         g <~ field "g" keyData ;;
         nsq <~ field "nsq" keyData ;;
         Ret (mkPublicKey n g nsq)) with
  | Ret pk =>
      (Ret pk,
       mkEngine (keySize this) (Some pk) (privateKey this)
         (privateKeyShares this) (thresholdParams this))
  | Throw _ => (Throw (Error "Invalid public key format"), this)
  end.

(** [setPrivateKey(privateKeyData)]. *)
Definition setPrivateKey (this : Engine) (privateKeyData : JSValue)
  : Outcome PrivateKey * Engine :=
  match (keyData <~ key_data privateKeyData ;;
         lambda <~ field "lambda" keyData ;;
         mu <~ field "mu" keyData ;;
         n <~ field "n" keyData ;;
         nsq <~ field "nsq" keyData ;;
         Ret (mkPrivateKey lambda mu n nsq)) with
  | Ret sk =>
      (Ret sk,
       mkEngine (keySize this) (publicKey this) (Some sk)
         (privateKeyShares this) (thresholdParams this))
  | Throw _ => (Throw (Error "Invalid private key format"), this)
  end.

End Parsing.

End KeyStore.

(** * Properties *)

(** ** Arithmetic of the BigInt primitives *)

Section BigIntFacts.

Lemma rem_nonneg_mod (a n : Z) : 0 <= a -> 0 < n -> Z.rem a n = a mod n.
Proof. intros Ha Hn. apply Z.rem_mod_nonneg; lia. Qed.

Lemma rem_abs_lt (a n : Z) : 0 < n -> - n < Z.rem a n < n.
Proof. intros Hn. pose proof (Z.rem_bound_abs a n ltac:(lia)). lia. Qed.

Lemma rem_fix_mod (a n : Z) :
  0 < n -> (if Z.rem a n <? 0 then Z.rem a n + n else Z.rem a n) = a mod n.
Proof.
  intros Hn.
  assert (Hq : a = n * Z.quot a n + Z.rem a n) by (apply Z.quot_rem'; lia).
  pose proof (rem_abs_lt a n Hn) as Hb.
  destruct (Z.rem a n <? 0) eqn:R.
  - apply Z.ltb_lt in R.
    apply Z.mod_unique with (q := Z.quot a n - 1); lia.
  - apply Z.ltb_ge in R.
    apply Z.mod_unique with (q := Z.quot a n); lia.
Qed.

Lemma toZn_mod (a n : Z) : 0 < n -> toZn a n = Ret (a mod n).
Proof.
  intros Hn. unfold toZn.
  destruct (n <=? 0) eqn:E; [apply Z.leb_le in E; lia|].
  now rewrite rem_fix_mod.
Qed.

Lemma rem_mod_eq (a n : Z) : 0 < n -> (Z.rem a n) mod n = a mod n.
Proof.
  intros Hn.
  assert (Hq : a = n * Z.quot a n + Z.rem a n) by (apply Z.quot_rem'; lia).
  rewrite Hq at 2. rewrite Z.mul_comm, Z.add_comm, Z.mod_add by lia. reflexivity.
Qed.

Lemma add_cong (m a a' b b' : Z) :
  0 < m ->
  a mod m = a' mod m -> b mod m = b' mod m -> (a + b) mod m = (a' + b') mod m.
Proof.
  intros Hm Ha Hb. rewrite Z.add_mod, Ha, Hb, <- Z.add_mod by lia. reflexivity.
Qed.

Lemma mul_cong (m a a' b b' : Z) :
  0 < m ->
  a mod m = a' mod m -> b mod m = b' mod m -> (a * b) mod m = (a' * b') mod m.
Proof.
  intros Hm Ha Hb. rewrite Z.mul_mod, Ha, Hb, <- Z.mul_mod by lia. reflexivity.
Qed.

Lemma mul_pow_mod_idemp (x y e n : Z) :
  0 < n -> ((x mod n) * (y mod n) ^ e) mod n = (x * y ^ e) mod n.
Proof.
  intros Hn.
  rewrite Z.mul_mod_idemp_l by lia.
  rewrite <- Z.mul_mod_idemp_r by lia.
  rewrite Z.mod_pow_l.
  now rewrite Z.mul_mod_idemp_r by lia.
Qed.

Lemma modPow_loop_spec (e : positive) :
  forall b r n, 0 < n -> 0 <= b -> 0 <= r ->
    modPow_loop e b r n = (r * b ^ Zpos e) mod n.
Proof.
  induction e as [e IH | e IH |]; intros b r n Hn Hb Hr; cbn [modPow_loop].
  - rewrite !rem_nonneg_mod by nia.
    rewrite IH by (try apply Z.mod_pos_bound; lia).
    rewrite mul_pow_mod_idemp by lia.
    f_equal. rewrite Pos2Z.inj_xI.
    rewrite Z.pow_add_r, Z.pow_mul_r, Z.pow_2_r, Z.pow_1_r by lia. ring.
  - rewrite !rem_nonneg_mod by nia.
    rewrite IH by (try apply Z.mod_pos_bound; lia).
    rewrite <- (Z.mul_mod_idemp_r r) by lia.
    rewrite Z.mod_pow_l.
    rewrite Z.mul_mod_idemp_r by lia.
    f_equal. rewrite Pos2Z.inj_xO.
    rewrite Z.pow_mul_r, Z.pow_2_r by lia. reflexivity.
  - rewrite rem_nonneg_mod by nia. now rewrite Z.pow_1_r.
Qed.

Lemma modPow_nonneg (b e n : Z) :
  1 < n -> 0 <= e -> modPow b e n = Ret ((b ^ e) mod n).
Proof.
  intros Hn He. unfold modPow.
  destruct (n <=? 0) eqn:E0; [apply Z.leb_le in E0; lia|].
  destruct (n =? 1) eqn:E1; [apply Z.eqb_eq in E1; lia|].
  rewrite toZn_mod by lia. cbn [obind].
  destruct e as [|p|p]; [| |lia].
  - rewrite Z.pow_0_r, Z.mod_1_l by lia. reflexivity.
  - rewrite modPow_loop_spec by (try apply Z.mod_pos_bound; lia).
    rewrite Z.mul_1_l, Z.mod_pow_l. reflexivity.
Qed.

(** The loop of [gcd] on non-negative arguments is Euclid's algorithm. *)
Lemma gcd_loop_spec (fuel : nat) :
  forall a b, 0 <= a -> 0 <= b -> (Z.to_nat b < fuel)%nat ->
    HomomorphicEncryption.gcd_loop fuel a b = Ret (Z.gcd a b).
Proof.
  induction fuel as [|fuel IH]; intros a b Ha Hb Hf; [lia|].
  cbn [HomomorphicEncryption.gcd_loop].
  destruct (b =? 0) eqn:E.
  - apply Z.eqb_eq in E. subst b. rewrite Z.gcd_0_r, Z.abs_eq by lia. reflexivity.
  - apply Z.eqb_neq in E.
    rewrite rem_nonneg_mod by lia.
    rewrite IH.
    + f_equal. rewrite Z.gcd_comm, Z.gcd_mod by lia. apply Z.gcd_comm.
    + lia.
    + apply Z.mod_pos_bound; lia.
    + pose proof (Z.mod_pos_bound a b ltac:(lia)). lia.
Qed.

Lemma gcd_spec (a b : Z) :
  0 <= a -> 0 <= b -> HomomorphicEncryption.gcd a b = Ret (Z.gcd a b).
Proof.
  intros Ha Hb. unfold HomomorphicEncryption.gcd.
  apply gcd_loop_spec; try lia.
Qed.

(** The extended Euclid loop keeps both remainders as combinations of the
    original arguments [a0] and [b0]. *)
Lemma eGcd_loop_spec (a0 b0 : Z) (fuel : nat) :
  forall a b x y u v,
    0 <= a -> 0 <= b -> (Z.to_nat a < fuel)%nat ->
    a = u * a0 + v * b0 -> b = x * a0 + y * b0 ->
    exists e, eGcd_loop fuel a b x y u v = Ret e
              /\ eg_g e = Z.gcd a b
              /\ eg_x e * a0 + eg_y e * b0 = eg_g e.
Proof.
  induction fuel as [|fuel IH]; intros a b x y u v Ha Hb Hf Hu Hx; [lia|].
  cbn [eGcd_loop].
  destruct (a =? 0) eqn:E.
  - apply Z.eqb_eq in E.
    eexists; split; [reflexivity|]. cbn [eg_g eg_x eg_y].
    rewrite E, Z.gcd_0_l, Z.abs_eq by lia. split; [reflexivity|lia].
  - apply Z.eqb_neq in E.
    assert (Hr : Z.rem b a = b mod a) by (apply rem_nonneg_mod; lia).
    assert (Hq : b = a * Z.quot b a + Z.rem b a) by (apply Z.quot_rem'; lia).
    pose proof (Z.mod_pos_bound b a ltac:(lia)) as Hbound.
    destruct (IH (Z.rem b a) a u v (x - u * Z.quot b a) (y - v * Z.quot b a))
      as (e & He & Hg & Hc); try lia.
    exists e. split; [exact He|]. split; [|exact Hc].
    rewrite Hg, Hr. rewrite Z.gcd_mod by lia. reflexivity.
Qed.

Lemma eGcd_spec (a b : Z) :
  0 < a -> 0 < b ->
  exists e, eGcd a b = Ret e /\ eg_g e = Z.gcd a b
            /\ eg_x e * a + eg_y e * b = eg_g e.
Proof.
  intros Ha Hb. unfold eGcd.
  destruct (a <=? 0) eqn:Ea; [apply Z.leb_le in Ea; lia|].
  destruct (b <=? 0) eqn:Eb; [apply Z.leb_le in Eb; lia|].
  cbn [orb]. apply eGcd_loop_spec; lia.
Qed.

Lemma eGcd_throws (a b : Z) :
  a <= 0 \/ b <= 0 -> eGcd a b = Throw (RangeError "a and b MUST be > 0").
Proof.
  intros H. unfold eGcd.
  destruct (a <=? 0) eqn:Ea; [reflexivity|].
  destruct (b <=? 0) eqn:Eb; [reflexivity|].
  apply Z.leb_gt in Ea, Eb. lia.
Qed.

(** [modInv] returns exactly when an inverse exists and the modulus is at
    least 2; what it returns is the inverse in [[0, n)]. *)
Lemma modInv_spec (a n : Z) :
  1 < n -> Z.gcd a n = 1 ->
  exists x, modInv a n = Ret x /\ 0 <= x < n /\ (a * x) mod n = 1.
Proof.
  intros Hn Hg. unfold modInv.
  rewrite toZn_mod by lia. cbn [obind].
  assert (Hg' : Z.gcd (a mod n) n = 1) by (rewrite Z.gcd_mod_l; lia).
  pose proof (Z.mod_pos_bound a n ltac:(lia)) as Hb.
  assert (Hpos : 0 < a mod n).
  { destruct (Z.eq_dec (a mod n) 0) as [E|E]; [|lia].
    rewrite E, Z.gcd_0_l in Hg'. lia. }
  destruct (eGcd_spec (a mod n) n Hpos ltac:(lia)) as (e & He & Hgcd & Hc).
  rewrite He. cbn [obind]. rewrite Hgcd, Hg'. cbn [Z.eqb negb Pos.eqb].
  rewrite toZn_mod by lia.
  eexists; split; [reflexivity|]. split; [apply Z.mod_pos_bound; lia|].
  rewrite Z.mul_mod_idemp_r by lia.
  rewrite <- Z.mul_mod_idemp_l by lia.
  rewrite Hgcd, Hg' in Hc.
  replace (a mod n * eg_x e) with (1 + (- eg_y e) * n) by lia.
  rewrite Z.mod_add by lia. apply Z.mod_1_l; lia.
Qed.

Lemma modInv_inv (a n x : Z) :
  modInv a n = Ret x ->
  1 < n /\ Z.gcd a n = 1 /\ 0 <= x < n /\ (a * x) mod n = 1.
Proof.
  unfold modInv, toZn. intros H.
  destruct (n <=? 0) eqn:E0; [discriminate|]. apply Z.leb_gt in E0.
  cbn [obind] in H. rewrite rem_fix_mod in H by lia.
  pose proof (Z.mod_pos_bound a n ltac:(lia)) as Hb.
  destruct (Z.eq_dec (a mod n) 0) as [Ez|Ez].
  { rewrite eGcd_throws in H by lia. discriminate. }
  destruct (eGcd_spec (a mod n) n ltac:(lia) ltac:(lia)) as (e & He & Hgcd & Hc).
  rewrite He in H. cbn [obind] in H.
  destruct (eg_g e =? 1) eqn:Eg; cbn [negb] in H; [|discriminate].
  apply Z.eqb_eq in Eg. rewrite Eg in Hgcd.
  rewrite Z.gcd_mod_l in Hgcd by lia.
  assert (Hn : 1 < n).
  { destruct (Z.eq_dec n 1) as [E1|E1]; [|lia].
    subst n. rewrite Z.mod_1_r in Ez. lia. }
  destruct (modInv_spec a n Hn (eq_sym Hgcd)) as (x' & Hx' & Hr & Hm).
  unfold modInv, toZn in Hx'.
  destruct (n <=? 0) eqn:E0'; [apply Z.leb_le in E0'; lia|].
  cbn [obind] in Hx'. rewrite rem_fix_mod in Hx' by lia.
  rewrite He in Hx'. cbn [obind] in Hx'.
  rewrite Eg in Hx'. cbn [Z.eqb Pos.eqb negb] in Hx'.
  rewrite H in Hx'. injection Hx' as ->.
  repeat split; try lia.
Qed.

End BigIntFacts.

(** ** Decimal strings: [BigInt(z.toString())] is [z] *)

Section DecimalStrings.

Lemma digit_facts (c : ascii) :
  is_decimal_digit c = true ->
  is_white_space c = false /\ radix_of_prefix c = None
  /\ Ascii.eqb c "+" = false /\ Ascii.eqb c "-" = false.
Proof.
  destruct c as [[] [] [] [] [] [] [] []]; cbv; intros H;
    try discriminate H; repeat split.
Qed.

Lemma uint_digits (d : Decimal.uint) :
  string_forall is_decimal_digit (NilEmpty.string_of_uint d) = true.
Proof. induction d; cbn -[is_decimal_digit]; auto. Qed.

Lemma uint_digits_nz (d : Decimal.uint) :
  string_forall is_decimal_digit (NilZero.string_of_uint d) = true.
Proof. destruct d; try reflexivity; apply (uint_digits (_ d)). Qed.

Lemma trim_end_digits (s : string) :
  string_forall is_decimal_digit s = true -> trim_end s = s.
Proof.
  induction s as [|c s IH]; [reflexivity|].
  cbn [string_forall trim_end]. intros H.
  apply andb_prop in H as [Hc Hs].
  rewrite (IH Hs). destruct (digit_facts c Hc) as (Hw & _).
  destruct s; [now rewrite Hw | reflexivity].
Qed.

Lemma StringToBigInt_digits (s : string) :
  s <> EmptyString -> string_forall is_decimal_digit s = true ->
  StringToBigInt s = option_map Z.of_int (NilZero.int_of_string s).
Proof.
  intros Hne Hd. unfold StringToBigInt, trim.
  destruct s as [|c s]; [congruence|].
  cbn [string_forall] in Hd. apply andb_prop in Hd as [Hc Hs].
  destruct (digit_facts c Hc) as (Hw & _ & Hp & _).
  cbn [trim_start]. rewrite Hw.
  change (trim_end (String c s)) with
    (match trim_end s with
     | EmptyString => if is_white_space c then EmptyString else String c EmptyString
     | String a t => String c (String a t)
     end).
  rewrite (trim_end_digits s Hs).
  assert (E : match s with
              | EmptyString => if is_white_space c then EmptyString else String c EmptyString
              | String a t => String c (String a t)
              end = String c s) by (destruct s; [now rewrite Hw|reflexivity]).
  rewrite E, Hp.
  destruct (Ascii.eqb c "0"); [|reflexivity].
  destruct s as [|p s]; [reflexivity|].
  cbn [string_forall] in Hs. apply andb_prop in Hs as [Hp' _].
  destruct (digit_facts p Hp') as (_ & Hr & _). now rewrite Hr.
Qed.

Lemma StringToBigInt_negative (s : string) :
  s <> EmptyString -> string_forall is_decimal_digit s = true ->
  StringToBigInt (String "-" s)
  = option_map Z.of_int (NilZero.int_of_string (String "-" s)).
Proof.
  intros Hne Hd. unfold StringToBigInt, trim.
  cbn [trim_start]. change (is_white_space "-") with false. cbv iota.
  change (trim_end (String "-" s)) with
    (match trim_end s with
     | EmptyString => String "-" EmptyString
     | String a t => String "-" (String a t)
     end).
  rewrite (trim_end_digits s Hd).
  destruct s as [|c s]; [congruence|]. reflexivity.
Qed.

Lemma pos_to_uint_nonnil (p : positive) : Pos.to_uint p <> Decimal.Nil.
Proof.
  intros H. pose proof (DecimalPos.Unsigned.of_to p) as E.
  rewrite H in E. discriminate E.
Qed.

Lemma BigInt_toString (z : Z) : BigInt (toString z) = Ret z.
Proof.
  unfold BigInt, toString.
  assert (E : StringToBigInt (NilZero.string_of_int (Z.to_int z)) = Some z).
  { destruct z as [|p|p].
    - reflexivity.
    - cbn [Z.to_int NilZero.string_of_int].
      rewrite StringToBigInt_digits.
      + change (NilZero.string_of_uint (Pos.to_uint p))
          with (NilZero.string_of_int (Decimal.Pos (Pos.to_uint p))).
        rewrite NilZero.isi.
        * cbn [option_map]. f_equal. apply (DecimalZ.of_to (Zpos p)).
        * intros [= H]. now apply pos_to_uint_nonnil in H.
        * discriminate.
      + pose proof (pos_to_uint_nonnil p).
        destruct (Pos.to_uint p); try congruence; discriminate.
      + apply uint_digits_nz.
    - cbn [Z.to_int NilZero.string_of_int].
      rewrite StringToBigInt_negative.
      + change (String "-" (NilZero.string_of_uint (Pos.to_uint p)))
          with (NilZero.string_of_int (Decimal.Neg (Pos.to_uint p))).
        rewrite NilZero.isi.
        * cbn [option_map]. f_equal. apply (DecimalZ.of_to (Zneg p)).
        * discriminate.
        * intros [= H]. now apply pos_to_uint_nonnil in H.
      + pose proof (pos_to_uint_nonnil p).
        destruct (Pos.to_uint p); try congruence; discriminate.
      + apply uint_digits_nz. }
  now rewrite E.
Qed.

End DecimalStrings.

(** ** Hexadecimal strings: [BigInt('0x' + bytes.toString('hex'))] *)

Section HexStrings.

Lemma append_assoc (a b c : string) : ((a ++ b) ++ c = a ++ (b ++ c))%string.
Proof. induction a as [|x a IH]; cbn; [reflexivity|now rewrite IH]. Qed.

Lemma hex_char_not_space (c : ascii) :
  is_hex_char c = true -> is_white_space c = false.
Proof.
  destruct c as [[] [] [] [] [] [] [] []]; cbv; intros H;
    try discriminate H; reflexivity.
Qed.

Lemma trim_end_no_space (s : string) :
  string_forall (fun c => negb (is_white_space c)) s = true -> trim_end s = s.
Proof.
  induction s as [|c s IH]; [reflexivity|].
  cbn [string_forall trim_end]. intros H.
  apply andb_prop in H as [Hc Hs]. apply negb_true_iff in Hc.
  rewrite (IH Hs). destruct s; [now rewrite Hc|reflexivity].
Qed.

Lemma string_forall_impl (P Q : ascii -> bool) (s : string) :
  (forall c, P c = true -> Q c = true) ->
  string_forall P s = true -> string_forall Q s = true.
Proof.
  intros HPQ. induction s as [|c s IH]; [reflexivity|].
  cbn [string_forall]. intros H. apply andb_prop in H as [Hc Hs].
  now rewrite (HPQ c Hc), (IH Hs).
Qed.

Lemma digit_value_hex_digit (d : Z) :
  0 <= d < 16 -> digit_value (hex_digit d) = Some d.
Proof.
  intros Hd.
  assert (H : d = 0 \/ d = 1 \/ d = 2 \/ d = 3 \/ d = 4 \/ d = 5 \/ d = 6 \/ d = 7
              \/ d = 8 \/ d = 9 \/ d = 10 \/ d = 11 \/ d = 12 \/ d = 13
              \/ d = 14 \/ d = 15) by lia.
  repeat (destruct H as [->|H]; [reflexivity|]). subst d. reflexivity.
Qed.

Lemma hex_of_bytes_chars (bytes : list Z) :
  Forall (fun b => 0 <= b < 256) bytes ->
  string_forall is_hex_char (hex_of_bytes bytes) = true.
Proof.
  induction 1 as [|b bytes Hb _ IH]; [reflexivity|].
  cbn [hex_of_bytes string_forall]. unfold is_hex_char at 1 2.
  pose proof (Z.mod_pos_bound b 16 ltac:(lia)).
  assert (0 <= b / 16 < 16)
    by (split; [apply Z.div_pos; lia|apply Z.div_lt_upper_bound; lia]).
  rewrite !digit_value_hex_digit by lia.
  rewrite IH.
  replace (b / 16 <? 16) with true by (symmetry; apply Z.ltb_lt; lia).
  replace (b mod 16 <? 16) with true by (symmetry; apply Z.ltb_lt; lia).
  reflexivity.
Qed.

Lemma lor_shiftl_byte (r b : Z) :
  0 <= b < 256 -> Z.lor (Z.shiftl r 8) b = r * 256 + b.
Proof.
  intros Hb. pose proof (Z.add_lor_land (Z.shiftl r 8) b) as Hsum.
  assert (Hland : Z.land (Z.shiftl r 8) b = 0); [|
    rewrite Hland, Z.add_0_r in Hsum; rewrite Hsum;
    rewrite Z.shiftl_mul_pow2 by lia; reflexivity].
  -  apply Z.bits_inj'. intros k Hk.
    rewrite Z.land_spec, Z.bits_0.
    destruct (Z_lt_le_dec k 8) as [Hlow|Hhigh].
    + rewrite Z.shiftl_spec_low by lia. reflexivity.
    + replace (Z.testbit b k) with false; [apply andb_false_r|].
      symmetry. destruct (Z.eq_dec b 0) as [->|Hnz]; [apply Z.bits_0|].
      apply Z.bits_above_log2; [lia|].
      assert (Z.log2 b < 8) by (apply Z.log2_lt_pow2; lia). lia.
Qed.

Lemma parse_digits_hex_of_bytes (bytes : list Z) :
  Forall (fun b => 0 <= b < 256) bytes ->
  forall acc,
    parse_digits 16 (hex_of_bytes bytes) acc
    = Some (fold_left (fun r b => Z.lor (Z.shiftl r 8) b) bytes acc).
Proof.
  induction 1 as [|b bytes Hb _ IH]; intros acc; [reflexivity|].
  cbn [hex_of_bytes parse_digits fold_left].
  pose proof (Z.mod_pos_bound b 16 ltac:(lia)).
  assert (0 <= b / 16 < 16)
    by (split; [apply Z.div_pos; lia|apply Z.div_lt_upper_bound; lia]).
  rewrite !digit_value_hex_digit by lia.
  replace (b / 16 <? 16) with true by (symmetry; apply Z.ltb_lt; lia).
  replace (b mod 16 <? 16) with true by (symmetry; apply Z.ltb_lt; lia).
  rewrite IH. f_equal. f_equal.
  rewrite lor_shiftl_byte by lia.
  rewrite (Z.div_mod b 16) at 3 by lia. ring.
Qed.

(** Parsing the hexadecimal image of a non-empty buffer gives back the
    integer the buffer holds. *)
Lemma BigInt_hex_of_bytes (bytes : list Z) :
  Forall (fun b => 0 <= b < 256) bytes -> bytes <> [] ->
  BigInt ("0x" ++ hex_of_bytes bytes) = Ret (bytes_to_bigint bytes).
Proof.
  intros Hall Hne. unfold BigInt, StringToBigInt, trim.
  assert (Hchars := hex_of_bytes_chars bytes Hall).
  assert (Htrim : trim_end (trim_start ("0x" ++ hex_of_bytes bytes))
                  = String "0" (String "x" (hex_of_bytes bytes))).
  { cbn [append trim_start]. change (is_white_space "0") with false. cbv iota.
    apply trim_end_no_space. cbn [string_forall].
    change (negb (is_white_space "0")) with true.
    change (negb (is_white_space "x")) with true. cbn [andb].
    apply (string_forall_impl is_hex_char); [|exact Hchars].
    intros c Hc. now rewrite (hex_char_not_space c Hc). }
  rewrite Htrim.
  change (Ascii.eqb "0" "0") with true. cbv iota.
  change (radix_of_prefix "x") with (Some 16). cbv iota.
  unfold parse_literal.
  destruct bytes as [|b bytes]; [congruence|].
  assert (Hcons : exists c s, hex_of_bytes (b :: bytes) = String c s)
    by (cbn [hex_of_bytes]; eauto).
  destruct Hcons as (c & s & Hs). rewrite Hs, <- Hs.
  now rewrite parse_digits_hex_of_bytes.
Qed.

Lemma digest_bytes (msg : list Z) :
  Forall (fun b => 0 <= b < 256) (Sha256.digest msg).
Proof.
  unfold Sha256.digest. apply Forall_flat_map. apply Forall_forall.
  intros x _. unfold Sha256.be_bytes. apply Forall_forall. intros b Hb.
  apply in_map_iff in Hb as (i & <- & _). apply Z.mod_pos_bound. lia.
Qed.

End HexStrings.

(** ** HomomorphicEncryption.encrypt *)

Module EncryptFacts.
Import HomomorphicEncryption.

Lemma bytes_to_bigint_nonneg (buffer : list Z) :
  Forall (fun b => 0 <= b) buffer -> 0 <= bytes_to_bigint buffer.
Proof.
  unfold bytes_to_bigint.
  assert (G : forall acc, 0 <= acc -> Forall (fun b => 0 <= b) buffer ->
            0 <= fold_left (fun r b => Z.lor (Z.shiftl r 8) b) buffer acc).
  { induction buffer as [|b buffer IH]; intros acc Hacc Hall; [exact Hacc|].
    inversion Hall as [|? ? Hb Hrest]; subst. cbn [fold_left].
    apply IH; [|exact Hrest].
    apply Z.lor_nonneg. split; [apply Z.shiftl_nonneg; lia | exact Hb]. }
  intros H. now apply G.
Qed.

Lemma randomBytes_inv (size : Z) (w w' : World) (buffer : list Z) :
  randomBytes size w = (Ret buffer, w') ->
  Forall (fun b => 0 <= b < 256) buffer
  /\ List.length buffer = Z.to_nat size
  /\ drawn w' = (drawn w + Z.to_nat size)%nat.
Proof.
  unfold randomBytes.
  destruct ((size <? 0) || (size >? 2147483647)); [discriminate|].
  intros [= <- <-]. repeat split.
  - apply Forall_forall. intros b Hb. apply in_map_iff in Hb as (i & <- & _).
    apply Z.mod_pos_bound; lia.
  - now rewrite length_map, length_seq.
Qed.

(** What the [do ... while] loop delivers: an [r] of the range, and a
    coprime one unless the attempts ran out. *)
Lemma encrypt_loop_inv (fuel : nat) :
  forall n attempts w r attempts' w',
    encrypt_loop fuel n attempts w = (Ret (r, attempts'), w') ->
    2 < n /\ 2 <= r <= n - 1 /\ (attempts' < 1000 -> Z.gcd r n = 1).
Proof.
  induction fuel as [|fuel IH]; intros n attempts w r attempts' w' H;
    cbn [encrypt_loop] in H; [discriminate|].
  unfold throw in H.
  destruct (attempts >? 1000); [discriminate|].
  unfold bind at 1 in H.
  destruct (randomBytes ((binary_length n + 7) / 8) w) as [[buffer|e] w1] eqn:Hrb;
    [|discriminate].
  apply randomBytes_inv in Hrb as (Hbytes & _ & _).
  destruct (n <=? 2) eqn:En; [discriminate|]. apply Z.leb_gt in En.
  unfold bind, lift, bigint_rem in H.
  destruct (n - 2 =? 0) eqn:E2; [apply Z.eqb_eq in E2; lia|].
  assert (Hraw : 0 <= bytes_to_bigint buffer).
  { apply bytes_to_bigint_nonneg. eapply Forall_impl; [|exact Hbytes].
    cbn. intros; lia. }
  rewrite rem_nonneg_mod in H by lia.
  pose proof (Z.mod_pos_bound (bytes_to_bigint buffer) (n - 2) ltac:(lia)) as Hr.
  rewrite gcd_spec in H by lia.
  destruct (negb (Z.gcd (bytes_to_bigint buffer mod (n - 2) + 2) n =? 1)
            && (attempts + 1 <? 1000)) eqn:Econt.
  - eapply IH; exact H.
  - unfold ret in H. injection H as <- <- <-.
    split; [lia|]. split; [lia|]. intros Hlt.
    apply andb_false_iff in Econt as [E|E].
    + apply negb_false_iff, Z.eqb_eq in E. exact E.
    + apply Z.ltb_ge in E. lia.
Qed.

(** The loop stops on its own within 1000 attempts: the model's fuel is
    never what ends it. *)
Lemma encrypt_loop_total (fuel : nat) :
  forall n attempts w,
    0 <= attempts -> 1000 - attempts <= Z.of_nat fuel -> (0 < fuel)%nat ->
    fst (encrypt_loop fuel n attempts w) <> Throw Diverged.
Proof.
  induction fuel as [|fuel IH]; intros n attempts w Ha Hf Hpos; [lia|].
  cbn [encrypt_loop]. unfold throw.
  destruct (attempts >? 1000); [cbn; discriminate|].
  unfold bind at 1.
  destruct (randomBytes ((binary_length n + 7) / 8) w) as [[buffer|e] w1] eqn:Hrb.
  2:{ unfold randomBytes in Hrb.
      destruct ((_ <? 0) || _); [|discriminate].
      injection Hrb as <- <-. cbn. discriminate. }
  apply randomBytes_inv in Hrb as (Hbytes & _ & _).
  destruct (n <=? 2) eqn:En; [cbn; discriminate|]. apply Z.leb_gt in En.
  unfold bind, lift, bigint_rem.
  destruct (n - 2 =? 0) eqn:E2; [apply Z.eqb_eq in E2; lia|].
  assert (Hraw : 0 <= bytes_to_bigint buffer).
  { apply bytes_to_bigint_nonneg. eapply Forall_impl; [|exact Hbytes].
    cbn. intros; lia. }
  rewrite rem_nonneg_mod by lia.
  pose proof (Z.mod_pos_bound (bytes_to_bigint buffer) (n - 2) ltac:(lia)) as Hr.
  rewrite gcd_spec by lia.
  destruct (negb (Z.gcd (bytes_to_bigint buffer mod (n - 2) + 2) n =? 1)
            && (attempts + 1 <? 1000)) eqn:Econt.
  - apply andb_prop in Econt as [_ E]. apply Z.ltb_lt in E.
    apply IH; lia.
  - cbn. discriminate.
Qed.

Ltac carry_not_diverged H :=
  let E := fresh "E" in
  cbn; intros E; apply H; injection E as ->; reflexivity.

Lemma modInv_not_diverged (a n : Z) : modInv a n <> Throw Diverged.
Proof.
  unfold modInv, toZn.
  destruct (n <=? 0) eqn:E0; [discriminate|]. apply Z.leb_gt in E0.
  cbn [obind]. rewrite rem_fix_mod by lia.
  pose proof (Z.mod_pos_bound a n ltac:(lia)) as Hb.
  destruct (Z.eq_dec (a mod n) 0) as [Ez|Ez].
  - rewrite eGcd_throws by lia. discriminate.
  - destruct (eGcd_spec (a mod n) n ltac:(lia) ltac:(lia)) as (e & He & _).
    rewrite He. cbn [obind].
    destruct (negb (eg_g e =? 1)); discriminate.
Qed.

Lemma modPow_not_diverged (b e n : Z) : modPow b e n <> Throw Diverged.
Proof.
  unfold modPow.
  destruct (n <=? 0) eqn:E0; [discriminate|]. apply Z.leb_gt in E0.
  destruct (n =? 1); [discriminate|].
  rewrite toZn_mod by lia. cbn [obind].
  destruct e; try discriminate. apply modInv_not_diverged.
Qed.

(** [encrypt] always ends by itself: with a result or with one of its own
    exceptions. *)
Lemma encrypt_not_diverged (this : Engine) (vote : Z)
  (arg : option PublicKey) (w : World) :
  fst (encrypt this vote arg w) <> Throw Diverged.
Proof.
  unfold encrypt.
  destruct (default_to arg (publicKey this)) as [pk|]; [|cbn; discriminate].
  destruct (pk_n pk <=? 100); [cbn; discriminate|].
  unfold bind at 1.
  pose proof (encrypt_loop_total 1001 (pk_n pk) 0 w ltac:(lia) ltac:(lia) ltac:(lia))
    as Hloop.
  destruct (encrypt_loop 1001 (pk_n pk) 0 w) as [[[r attempts]|e] w1].
  2:{ cbn in Hloop. carry_not_diverged Hloop. }
  destruct (attempts >=? 1000); [cbn; discriminate|].
  unfold bind, lift.
  pose proof (modPow_not_diverged (pk_g pk) vote (pk_nsq pk)) as H1.
  destruct (modPow (pk_g pk) vote (pk_nsq pk)) as [gm|e1]; [|carry_not_diverged H1].
  pose proof (modPow_not_diverged r (pk_n pk) (pk_nsq pk)) as H2.
  destruct (modPow r (pk_n pk) (pk_nsq pk)) as [rn|e2]; [|carry_not_diverged H2].
  unfold bigint_rem. destruct (pk_nsq pk =? 0); cbn; discriminate.
Qed.

(** What a successful [encrypt] returned, for a key with [nsq = n * n]. *)
Lemma encrypt_inv
  (this : HomomorphicEncryption.Engine) (v : Z)
  (arg : option HomomorphicEncryption.PublicKey)
  (pk : HomomorphicEncryption.PublicKey) (w w' : World)
  (ev : HomomorphicEncryption.EncryptedVote) :
  let n := HomomorphicEncryption.pk_n pk in
  let g := HomomorphicEncryption.pk_g pk in
  HomomorphicEncryption.default_to arg (HomomorphicEncryption.publicKey this)
    = Some pk ->
  HomomorphicEncryption.pk_nsq pk = n * n ->
  HomomorphicEncryption.encrypt this v arg w = (Ret ev, w') ->
  exists r c,
    HomomorphicEncryption.randomness ev = toString r
    /\ HomomorphicEncryption.ciphertext ev = toString c
    /\ 100 < n
    /\ 2 <= r <= n - 1
    /\ Z.gcd r n = 1
    /\ 0 <= c < n * n
    /\ (0 <= v -> c = (g ^ v * r ^ n) mod (n * n))
    /\ (v < 0 -> (c * g ^ (- v)) mod (n * n) = (r ^ n) mod (n * n)).
Proof.
  intros n g Hpk Hnsq H.
  unfold HomomorphicEncryption.encrypt in H. rewrite Hpk in H.
  fold n g in H. rewrite Hnsq in H.
  destruct (n <=? 100) eqn:En; [discriminate|]. apply Z.leb_gt in En.
  unfold bind at 1 in H.
  destruct (HomomorphicEncryption.encrypt_loop 1001 n 0 w)
    as [[[r attempts]|e] w1] eqn:Hloop; [|discriminate].
  apply encrypt_loop_inv in Hloop as (_ & Hr & Hg).
  destruct (attempts >=? 1000) eqn:Ea; [discriminate|].
  assert (Hlt : attempts < 1000) by (rewrite Z.geb_leb in Ea; apply Z.leb_gt in Ea; lia).
  specialize (Hg Hlt).
  assert (Hn2 : 1 < n * n) by nia.
  unfold bind, lift in H.
  destruct (modPow g v (n * n)) as [gm|e] eqn:Hgm; [|discriminate].
  rewrite (modPow_nonneg r n (n * n)) in H by lia.
  unfold bigint_rem in H.
  destruct (n * n =? 0) eqn:E0; [apply Z.eqb_eq in E0; lia|].
  unfold ret in H. injection H as <- <-.
  cbn [HomomorphicEncryption.randomness HomomorphicEncryption.ciphertext].
  exists r, (Z.rem (gm * (r ^ n mod (n * n))) (n * n)).
  pose proof (Z.mod_pos_bound (r ^ n) (n * n) ltac:(lia)) as Hrn.
  assert (Hgm_range : 0 <= gm < n * n).
  { destruct (Z_lt_le_dec v 0) as [Hv|Hv].
    - unfold modPow in Hgm.
      destruct (n * n <=? 0); [discriminate|].
      destruct (n * n =? 1); [injection Hgm as <-; lia|].
      rewrite toZn_mod in Hgm by lia. cbn [obind] in Hgm.
      destruct v as [|p|p]; try lia.
      apply modInv_inv in Hgm. lia.
    - rewrite modPow_nonneg in Hgm by lia. injection Hgm as <-.
      apply Z.mod_pos_bound; lia. }
  rewrite rem_nonneg_mod by nia.
  repeat split; try lia; try (apply Z.mod_pos_bound; lia).
  - intros Hv. rewrite modPow_nonneg in Hgm by lia. injection Hgm as <-.
    now rewrite <- Z.mul_mod by lia.
  - intros Hv. unfold modPow in Hgm.
    destruct (n * n <=? 0); [discriminate|].
    destruct (n * n =? 1) eqn:E1; [apply Z.eqb_eq in E1; lia|].
    rewrite toZn_mod in Hgm by lia. cbn [obind] in Hgm.
    destruct v as [|p|p]; try lia.
    rewrite modPow_loop_spec in Hgm by (try apply Z.mod_pos_bound; lia).
    rewrite Z.mul_1_l, Z.mod_pow_l in Hgm.
    apply modInv_inv in Hgm as (_ & _ & _ & Hinv).
    rewrite Z.mul_mod_idemp_l in Hinv by lia.
    change (- Zneg p) with (Zpos p).
    rewrite Z.mul_mod_idemp_l by lia.
    replace (gm * (r ^ n mod (n * n)) * g ^ Zpos p)
      with ((g ^ Zpos p * gm) * (r ^ n mod (n * n))) by ring.
    rewrite <- Z.mul_mod_idemp_l by lia. rewrite Hinv.
    rewrite Z.mul_1_l. apply Z.mod_mod; lia.
Qed.

End EncryptFacts.

(** C9 - corrupted-key guard: with a public key of modulus [n <= 100],
    [encrypt] throws the key error for every vote, and leaves the world as
    it found it (no random byte was drawn, nothing was computed). *)
Theorem encrypt_rejects_small_modulus
  (this : HomomorphicEncryption.Engine) (vote : Z)
  (arg : option HomomorphicEncryption.PublicKey)
  (pk : HomomorphicEncryption.PublicKey) (w : World) :
  HomomorphicEncryption.default_to arg (HomomorphicEncryption.publicKey this)
    = Some pk ->
  HomomorphicEncryption.pk_n pk <= 100 ->
  HomomorphicEncryption.encrypt this vote arg w
  = (Throw (Error ("Public key n is too small ("
                     ++ toString (HomomorphicEncryption.pk_n pk)
                     ++ "). Keys may be corrupted.")), w).
Proof.
  intros Hpk Hn. unfold HomomorphicEncryption.encrypt. rewrite Hpk.
  apply Z.leb_le in Hn. rewrite Hn. reflexivity.
Qed.

(** C8 - whenever [encrypt] returns, the modulus exceeds 100, the returned
    randomness is the decimal string of an [r] with [2 <= r <= n - 1] and
    [gcd(r, n) = 1], and the returned ciphertext is the decimal string of
    [g^v * r^n mod n²] (for a negative [v], [g^v] being the inverse of
    [g^(-v)] modulo [n²]). *)
Theorem encrypt_randomness_and_ciphertext
  (this : HomomorphicEncryption.Engine) (v : Z)
  (arg : option HomomorphicEncryption.PublicKey)
  (pk : HomomorphicEncryption.PublicKey) (w w' : World)
  (ev : HomomorphicEncryption.EncryptedVote) :
  let n := HomomorphicEncryption.pk_n pk in
  let g := HomomorphicEncryption.pk_g pk in
  HomomorphicEncryption.default_to arg (HomomorphicEncryption.publicKey this)
    = Some pk ->
  HomomorphicEncryption.pk_nsq pk = n * n ->
  HomomorphicEncryption.encrypt this v arg w = (Ret ev, w') ->
  exists r c,
    HomomorphicEncryption.randomness ev = toString r
    /\ HomomorphicEncryption.ciphertext ev = toString c
    /\ 100 < n
    /\ 2 <= r <= n - 1
    /\ Z.gcd r n = 1
    /\ 0 <= c < n * n
    /\ (0 <= v -> c = (g ^ v * r ^ n) mod (n * n))
    /\ (v < 0 -> (c * g ^ (- v)) mod (n * n) = (r ^ n) mod (n * n)).
Proof.
  intros n g. exact (EncryptFacts.encrypt_inv this v arg pk w w' ev).
Qed.

Lemma encrypt_rejects_small_modulus_witness :
  HomomorphicEncryption.encrypt sample_engine 1
    (Some (HomomorphicEncryption.mkPublicKey 77 78 5929)) sample_world
  = (Throw (Error "Public key n is too small (77). Keys may be corrupted."),
     sample_world).
Proof.
  apply (encrypt_rejects_small_modulus sample_engine 1
           (Some (HomomorphicEncryption.mkPublicKey 77 78 5929))
           (HomomorphicEncryption.mkPublicKey 77 78 5929) sample_world).
  - reflexivity.
  - cbn. lia.
Defined.

Lemma encrypt_randomness_and_ciphertext_witness :
  exists r c,
    "530"%string = toString r /\ "246415"%string = toString c
    /\ 100 < 551 /\ 2 <= r <= 551 - 1 /\ Z.gcd r 551 = 1
    /\ 0 <= c < 551 * 551
    /\ (0 <= 3 -> c = (552 ^ 3 * r ^ 551) mod (551 * 551))
    /\ (3 < 0 -> (c * 552 ^ (- (3))) mod (551 * 551) = (r ^ 551) mod (551 * 551)).
Proof.
  apply (encrypt_randomness_and_ciphertext sample_engine 3 None sample_publicKey
           sample_world
           (snd (HomomorphicEncryption.encrypt sample_engine 3 None sample_world))
           (HomomorphicEncryption.mkEncryptedVote "246415" "530")).
  - reflexivity.
  - reflexivity.
  - vm_compute. reflexivity.
Defined.

(** ** HomomorphicEncryption.thresholdDecrypt *)

Lemma enough_shares_false (this : HomomorphicEncryption.Engine) (threshold : Z) :
  available_shares this < threshold ->
  HomomorphicEncryption.enough_shares this threshold = false.
Proof.
  unfold available_shares, HomomorphicEncryption.enough_shares.
  destruct (HomomorphicEncryption.privateKeyShares this) as [ks|]; [|reflexivity].
  destruct (HomomorphicEncryption.ks_shares ks) as [shares|]; [|reflexivity].
  intros H. rewrite Z.geb_leb. apply Z.leb_gt. exact H.
Qed.

(** C3, as the specification words it, fails: right after [generateKeys()]
    the engine holds five shares and the full private key, and asking for
    six shares yields the plaintext through single-key decryption. *)
Lemma thresholdDecrypt_fallback_counterexample :
  ~ (forall (this : HomomorphicEncryption.Engine) (ciphertext : string)
            (threshold : Z),
        available_shares this < threshold ->
        exists e, HomomorphicEncryption.thresholdDecrypt this ciphertext threshold
                  = Throw e).
Proof.
  intros claim.
  destruct (claim sample_engine "246415"%string 6) as [e He].
  - vm_compute. reflexivity.
  - vm_compute in He. discriminate He.
Qed.

(** C3, amended - with fewer than [threshold] shares available,
    [thresholdDecrypt] never enters threshold reconstruction: it returns
    what single-key [decrypt] returns when a full private key is loaded, and
    throws "No valid decryption keys available" otherwise. *)
Theorem thresholdDecrypt_insufficient_shares
  (this : HomomorphicEncryption.Engine) (ciphertext : string) (threshold : Z) :
  available_shares this < threshold ->
  HomomorphicEncryption.thresholdDecrypt this ciphertext threshold
  = match HomomorphicEncryption.privateKey this with
    | Some sk => HomomorphicEncryption.decrypt this ciphertext (Some sk)
    | None => Throw (Error "No valid decryption keys available")
    end.
Proof.
  intros H. unfold HomomorphicEncryption.thresholdDecrypt.
  now rewrite (enough_shares_false this threshold H).
Qed.

Lemma thresholdDecrypt_insufficient_shares_witness :
  HomomorphicEncryption.thresholdDecrypt sample_engine "246415" 6
  = HomomorphicEncryption.decrypt sample_engine "246415"
      (HomomorphicEncryption.privateKey sample_engine).
Proof.
  apply (thresholdDecrypt_insufficient_shares sample_engine "246415" 6).
  vm_compute. reflexivity.
Defined.

(** ** Polynomials and their roots modulo [m] *)

Section Polynomials.

Lemma peval_padd (p : list Z) : forall q x, peval (padd p q) x = peval p x + peval q x.
Proof.
  induction p as [|a p IH]; intros [|b q] x; cbn [padd peval]; try lia.
  rewrite IH. ring.
Qed.

Lemma peval_pscale (c : Z) (p : list Z) (x : Z) :
  peval (pscale c p) x = c * peval p x.
Proof.
  induction p as [|a p IH]; cbn [pscale map peval]; [ring|].
  fold (pscale c p). rewrite IH. ring.
Qed.

Lemma peval_pmulx (a : Z) (p : list Z) (x : Z) :
  peval (pmulx a p) x = (x - a) * peval p x.
Proof.
  unfold pmulx. rewrite peval_padd, peval_pscale. cbn [peval]. ring.
Qed.

Lemma peval_pprod (roots : list Z) (x : Z) :
  peval (pprod roots) x = zprod (map (fun a => x - a) roots).
Proof.
  induction roots as [|a roots IH].
  - unfold pprod, zprod. cbn [fold_right map peval]. ring.
  - change (pprod (a :: roots)) with (pmulx a (pprod roots)).
    rewrite peval_pmulx, IH. reflexivity.
Qed.

Lemma length_padd (p : list Z) :
  forall q, List.length (padd p q) = Nat.max (List.length p) (List.length q).
Proof.
  induction p as [|a p IH]; intros [|b q]; cbn [padd List.length Nat.max]; auto.
Qed.

Lemma length_pscale (c : Z) (p : list Z) :
  List.length (pscale c p) = List.length p.
Proof. apply length_map. Qed.

Lemma length_pmulx (a : Z) (p : list Z) :
  List.length (pmulx a p) = S (List.length p).
Proof.
  unfold pmulx. rewrite length_padd, length_pscale. cbn [List.length]. lia.
Qed.

Lemma length_pprod (roots : list Z) :
  List.length (pprod roots) = S (List.length roots).
Proof.
  induction roots as [|a roots IH]; [reflexivity|].
  cbn [pprod fold_right]. fold (pprod roots).
  rewrite length_pmulx, IH. reflexivity.
Qed.

Lemma length_pquot (p : list Z) (a : Z) : List.length (pquot p a) = List.length p.
Proof. induction p as [|c p IH]; cbn [pquot List.length]; auto. Qed.

(** Division by [X - a]: the factor theorem, over the integers. *)
Lemma peval_pquot (p : list Z) (a x : Z) :
  forall c, peval (c :: p) x = peval (c :: p) a + (x - a) * peval (pquot p a) x.
Proof.
  induction p as [|d p IH]; intros c; [cbn; ring|].
  specialize (IH d).
  change (peval (c :: d :: p) x) with (c + x * peval (d :: p) x).
  change (peval (c :: d :: p) a) with (c + a * peval (d :: p) a).
  change (peval (pquot (d :: p) a) x)
    with (peval (d :: p) a + x * peval (pquot p a) x).
  rewrite IH. ring.
Qed.

Variable m : Z.
Hypothesis m_pos : 0 < m.

(** A polynomial with fewer coefficients than it has roots, the roots
    differing pairwise by units modulo [m], vanishes modulo [m]. *)
Lemma roots_force_zero (xs : list Z) :
  forall p,
    (List.length p <= List.length xs)%nat ->
    NoDup xs ->
    (forall a b, In a xs -> In b xs -> a <> b -> Z.gcd (a - b) m = 1) ->
    (forall a, In a xs -> (peval p a) mod m = 0) ->
    forall z, (peval p z) mod m = 0.
Proof.
  induction xs as [|a xs IH]; intros p Hlen Hnd Hunits Hroots z.
  - destruct p; [reflexivity|cbn in Hlen; lia].
  - destruct p as [|c p]; [reflexivity|].
    assert (Ha : peval (c :: p) a mod m = 0) by (apply Hroots; now left).
    assert (Hq : forall y, peval (pquot p a) y mod m = 0).
    { apply IH.
      - rewrite length_pquot. cbn in Hlen. lia.
      - now inversion Hnd.
      - intros u v Hu Hv. apply Hunits; now right.
      - intros b Hb.
        assert (Hb' : peval (c :: p) b mod m = 0) by (apply Hroots; now right).
        rewrite (peval_pquot p a b c) in Hb'.
        rewrite Z.add_mod, Ha, Z.add_0_l, Z.mod_mod in Hb' by lia.
        apply Z.cong_mul_cancel_r_coprime with (b := b - a); [lia| |].
        + apply Hunits; [now right|now left|].
          intros ->. inversion Hnd; contradiction.
        + now rewrite Z.mul_comm. }
    rewrite (peval_pquot p a z c).
    rewrite Z.add_mod, Ha, Z.add_0_l, Z.mod_mod by lia.
    rewrite Z.mul_mod, Hq, Z.mul_0_r by lia. reflexivity.
Qed.

End Polynomials.

(** ** Lagrange interpolation at zero, modulo [m] *)

Section LagrangeAtZero.
Import HomomorphicEncryption.

Variable m : Z.
Hypothesis m_ge_2 : 2 <= m.

Lemma zprod_zero_factor (l : list Z) : In 0 l -> zprod l = 0.
Proof.
  induction l as [|a l IH]; intros H; [contradiction|].
  unfold zprod in *. cbn [fold_right]. destruct H as [->|H]; [ring|].
  rewrite (IH H). ring.
Qed.

Lemma zprod_coprime (l : list Z) :
  (forall a, In a l -> Z.gcd a m = 1) -> Z.gcd (zprod l) m = 1.
Proof.
  induction l as [|a l IH]; intros H.
  - unfold zprod. cbn. apply Z.gcd_1_l.
  - unfold zprod. cbn [fold_right]. apply Z.coprime_mul_l.
    + apply H. now left.
    + apply IH. intros b Hb. apply H. now right.
Qed.

Lemma zsum_zero (h : Share -> Z) (l : list Share) :
  (forall s, In s l -> (h s) mod m = 0) -> (zsum (map h l)) mod m = 0.
Proof.
  induction l as [|s l IH]; intros Hz; [reflexivity|].
  unfold zsum in *. cbn [map fold_right].
  rewrite Z.add_mod by lia.
  rewrite Hz by (now left). rewrite IH by (intros u Hu; apply Hz; now right).
  reflexivity.
Qed.

Lemma zsum_single (h : Share -> Z) (l : list Share) (s0 : Share) :
  NoDup l -> In s0 l ->
  (forall s, In s l -> s <> s0 -> (h s) mod m = 0) ->
  (zsum (map h l)) mod m = (h s0) mod m.
Proof.
  induction l as [|s l IH]; intros Hnd Hin Hz; [contradiction|].
  inversion Hnd as [|? ? Hnotin Hnd']; subst.
  change (zsum (map h (s :: l))) with (h s + zsum (map h l)).
  rewrite Z.add_mod by lia.
  destruct Hin as [->|Hin].
  - rewrite (zsum_zero h l).
    + rewrite Z.add_0_r, Z.mod_mod by lia. reflexivity.
    + intros u Hu. apply Hz; [now right|]. intros ->. contradiction.
  - rewrite IH; auto.
    + rewrite Hz; [|now left|intros ->; contradiction].
      rewrite Z.add_0_l, Z.mod_mod by lia. reflexivity.
    + intros u Hu. apply Hz. now right.
Qed.

Lemma length_fold_padd (qs : list (list Z)) (n : nat) :
  (forall q, In q qs -> (List.length q <= n)%nat) ->
  (List.length (fold_right padd [] qs) <= n)%nat.
Proof.
  induction qs as [|q qs IH]; intros H; cbn [fold_right]; [cbn; lia|].
  rewrite length_padd. apply Nat.max_lub.
  - apply H. now left.
  - apply IH. intros q' Hq'. apply H. now right.
Qed.

Lemma peval_fold_padd (qs : list (list Z)) (x : Z) :
  peval (fold_right padd [] qs) x = zsum (map (fun q => peval q x) qs).
Proof.
  induction qs as [|q qs IH]; [reflexivity|].
  cbn [fold_right map]. rewrite peval_padd, IH. reflexivity.
Qed.

Variable shares : list Share.
Hypothesis shares_nodup : NoDup shares.
Hypothesis shares_units : invertible_differences m shares.

Lemma distinct_ids (s t : Share) :
  In s shares -> In t shares -> s <> t -> id s <> id t.
Proof.
  intros Hs Ht Hst E. pose proof (shares_units s t Hs Ht Hst) as G.
  rewrite E, Z.sub_diag, Z.gcd_0_l in G. lia.
Qed.

Lemma ids_nodup : NoDup (map id shares).
Proof.
  assert (G : forall l, NoDup l -> incl l shares -> NoDup (map id l)).
  { induction l as [|s l IH]; intros Hnd Hincl; [constructor|].
    inversion Hnd as [|? ? Hnotin Hnd']; subst. cbn [map]. constructor.
    - intros Hin. apply in_map_iff in Hin as (t & Eid & Ht).
      apply (distinct_ids s t); auto.
      + apply Hincl. now left.
      + apply Hincl. now right.
      + intros ->. contradiction.
    - apply IH; auto. intros t Ht. apply Hincl. now right. }
  apply G; [exact shares_nodup|apply incl_refl].
Qed.

Lemma in_other_ids (s t : Share) :
  In t shares -> t <> s -> In s shares -> In (id t) (other_ids s shares).
Proof.
  intros Ht Hts Hs. unfold other_ids. apply in_map. apply filter_In.
  split; [exact Ht|]. apply negb_true_iff, Z.eqb_neq.
  now apply distinct_ids.
Qed.

Lemma length_other_ids (s : Share) :
  In s shares -> (List.length (other_ids s shares) < List.length shares)%nat.
Proof.
  intros Hs. unfold other_ids. rewrite length_map.
  clear shares_nodup shares_units. induction shares as [|t l IH]; [contradiction|].
  cbn [filter List.length].
  destruct Hs as [->|Hs].
  - rewrite Z.eqb_refl. cbn [negb].
    pose proof (filter_length_le (fun t => negb (id t =? id s)) l). lia.
  - specialize (IH Hs).
    destruct (negb (id t =? id s)); cbn [List.length]; lia.
Qed.

Lemma denominator_unit (s : Share) :
  In s shares -> Z.gcd (lagrange_denominator s shares) m = 1.
Proof.
  intros Hs. unfold lagrange_denominator. apply zprod_coprime.
  intros a Ha. apply in_map_iff in Ha as (x & <- & Hx).
  unfold other_ids in Hx. apply in_map_iff in Hx as (t & <- & Ht).
  apply filter_In in Ht as [Ht Hne].
  apply negb_true_iff, Z.eqb_neq in Hne.
  apply shares_units; auto. intros ->. now apply Hne.
Qed.

Lemma lagrange_basis_at_node (s l : Share) :
  In s shares -> In l shares ->
  (peval (lagrange_basis m shares s) (id l)) mod m
  = (if Z.eqb (id s) (id l) then value s else 0) mod m.
Proof.
  intros Hs Hl. unfold lagrange_basis.
  rewrite peval_pscale, peval_pprod.
  destruct (Z.eqb_spec (id s) (id l)) as [E|E].
  - rewrite <- E. fold (lagrange_denominator s shares).
    rewrite <- Z.mul_assoc.
    rewrite <- Z.mul_mod_idemp_r by lia.
    rewrite Z.invmod_coprime by (try apply denominator_unit; auto; lia).
    now rewrite Z.mul_1_r.
  - rewrite zprod_zero_factor; [now rewrite Z.mul_0_r|].
    apply in_map_iff. exists (id l). split; [ring|].
    apply in_other_ids; auto. intros ->. now apply E.
Qed.

(** The interpolation formula returns the constant term of every
    polynomial of degree below the number of shares that passes through
    them modulo [m]. *)
Theorem lagrange_at_zero (P : list Z) :
  (List.length P <= List.length shares)%nat ->
  (forall s, In s shares -> (value s) mod m = (peval P (id s)) mod m) ->
  (zsum (map (lagrange_term m shares) shares)) mod m = (peval P 0) mod m.
Proof.
  intros Hlen Hpass.
  set (Lsum := fold_right padd [] (map (lagrange_basis m shares) shares)).
  set (Q := padd Lsum (pscale (-1) P)).
  assert (HQ : forall z, (peval Q z) mod m = 0).
  { apply roots_force_zero with (xs := map id shares).
    - lia.
    - unfold Q. rewrite length_padd, length_pscale, length_map.
      apply Nat.max_lub; [|exact Hlen].
      apply length_fold_padd. intros q Hq.
      apply in_map_iff in Hq as (s & <- & Hs).
      unfold lagrange_basis. rewrite length_pscale, length_pprod.
      now apply length_other_ids.
    - apply ids_nodup.
    - intros a b Ha Hb Hab.
      apply in_map_iff in Ha as (s & <- & Hs).
      apply in_map_iff in Hb as (t & <- & Ht).
      apply shares_units; auto. intros ->. now apply Hab.
    - intros a Ha. apply in_map_iff in Ha as (l & <- & Hl).
      unfold Q. rewrite peval_padd, peval_pscale.
      unfold Lsum. rewrite peval_fold_padd, map_map.
      rewrite Z.add_mod by lia.
      rewrite (zsum_single (fun s => peval (lagrange_basis m shares s) (id l))
                 shares l shares_nodup Hl).
      + rewrite lagrange_basis_at_node by auto. rewrite Z.eqb_refl.
        rewrite (Hpass l Hl). rewrite <- Z.add_mod by lia.
        replace (peval P (id l) + -1 * peval P (id l)) with 0 by ring.
        reflexivity.
      + intros s Hs Hsl. rewrite lagrange_basis_at_node by auto.
        destruct (Z.eqb_spec (id s) (id l)) as [E|E]; [|reflexivity].
        exfalso. now apply (distinct_ids s l). }
  specialize (HQ 0). unfold Q in HQ.
  rewrite peval_padd, peval_pscale in HQ.
  unfold Lsum in HQ. rewrite peval_fold_padd, map_map in HQ.
  assert (E : map (fun s => peval (lagrange_basis m shares s) 0) shares
              = map (lagrange_term m shares) shares).
  { apply map_ext. intros s. unfold lagrange_basis, lagrange_term.
    rewrite peval_pscale, peval_pprod. unfold lagrange_numerator.
    rewrite (map_ext (fun a => 0 - a) (fun x => - x)) by (intros; ring).
    ring. }
  rewrite E in HQ.
  apply Z.mod_divide in HQ; [|lia]. destruct HQ as [k Hk].
  replace (zsum (map (lagrange_term m shares) shares))
    with (peval P 0 + k * m) by lia.
  apply Z.mod_add; lia.
Qed.

End LagrangeAtZero.

(** ** reconstructSecret computes the Lagrange sum *)

Section ReconstructSecret.
Import HomomorphicEncryption.

Variable m : Z.
Hypothesis m_ge_2 : 2 <= m.

Lemma bigint_rem_ret (a : Z) : bigint_rem a m = Ret (Z.rem a m).
Proof.
  unfold bigint_rem. destruct (m =? 0) eqn:E; [apply Z.eqb_eq in E; lia|reflexivity].
Qed.

Lemma lagrange_loop_spec (i : nat) (xi : Z) (js : list (nat * Share)) :
  forall num den,
  exists num' den',
    lagrange_loop i xi js m num den = Ret (num', den')
    /\ num' mod m = (num * zprod (map (fun x => - x) (index_others i js))) mod m
    /\ den' mod m = (den * zprod (map (fun x => xi - x) (index_others i js))) mod m.
Proof.
  induction js as [|[j sj] js IH]; intros num den.
  - exists num, den. split; [reflexivity|].
    unfold index_others, zprod. cbn [filter map fold_right].
    now rewrite !Z.mul_1_r.
  - cbn [lagrange_loop]. unfold index_others. cbn [filter fst].
    destruct (i =? j)%nat; cbn [negb].
    + apply IH.
    + repeat (rewrite bigint_rem_ret; cbn [obind]).
      destruct (IH (Z.rem (num * - id sj) m) (Z.rem (den * (xi - id sj)) m))
        as (num' & den' & Hrun & Hn & Hd).
      exists num', den'. split; [exact Hrun|].
      unfold index_others in Hn, Hd.
      cbn [map snd]. unfold zprod in *. cbn [fold_right].
      rewrite Hn, Hd. split.
      * rewrite <- Z.mul_mod_idemp_l, rem_mod_eq, Z.mul_mod_idemp_l by lia.
        f_equal. ring.
      * rewrite <- Z.mul_mod_idemp_l, rem_mod_eq, Z.mul_mod_idemp_l by lia.
        f_equal. ring.
Qed.

Lemma filter_all {A : Type} (f : A -> bool) (l : list A) :
  (forall x, In x l -> f x = true) -> filter f l = l.
Proof.
  induction l as [|a l IH]; intros H; [reflexivity|].
  cbn [filter]. rewrite (H a) by (now left).
  f_equal. apply IH. intros x Hx. apply H. now right.
Qed.

Lemma index_others_later (l : list Share) :
  forall o i, (i < o)%nat ->
    index_others i (combine (seq o (List.length l)) l) = map id l.
Proof.
  induction l as [|t l IH]; intros o i Hlt; [reflexivity|].
  cbn [List.length seq combine]. unfold index_others. cbn [filter fst].
  replace (i =? o)%nat with false by (symmetry; apply Nat.eqb_neq; lia).
  cbn [negb map snd]. f_equal. apply (IH (S o) i). lia.
Qed.

Lemma index_others_at (l : list Share) :
  forall o i s, nth_error l i = Some s -> NoDup (map id l) ->
    index_others (o + i) (combine (seq o (List.length l)) l) = other_ids s l.
Proof.
  induction l as [|t l IH]; intros o i s Hnth Hnd; [destruct i; discriminate|].
  cbn [map] in Hnd. inversion Hnd as [|? ? Hnotin Hnd']; subst.
  cbn [List.length seq combine]. unfold index_others, other_ids.
  cbn [filter fst].
  destruct i as [|i]; cbn [nth_error] in Hnth.
  - injection Hnth as ->. rewrite Nat.add_0_r, Nat.eqb_refl, Z.eqb_refl.
    cbn [negb].
    rewrite (filter_all (fun t => negb (id t =? id s)) l).
    + apply (index_others_later l (S o) o). lia.
    + intros x Hx. apply negb_true_iff, Z.eqb_neq. intros E.
      apply Hnotin. rewrite <- E. now apply in_map.
  - replace (o + S i =? o)%nat with false by (symmetry; apply Nat.eqb_neq; lia).
    assert (Hin : In s l) by (eapply nth_error_In; exact Hnth).
    replace (id t =? id s) with false.
    2:{ symmetry. apply Z.eqb_neq. intros E. apply Hnotin. rewrite E.
        now apply in_map. }
    cbn [negb map snd]. f_equal.
    replace (o + S i)%nat with (S o + i)%nat by lia.
    apply (IH (S o) i s Hnth Hnd').
Qed.

Lemma inverse_unique (a x y : Z) :
  (a * x) mod m = 1 -> (a * y) mod m = 1 -> x mod m = y mod m.
Proof.
  intros Hx Hy.
  transitivity ((x * (a * y)) mod m).
  - rewrite <- Z.mul_mod_idemp_r, Hy, Z.mul_1_r by lia. reflexivity.
  - replace (x * (a * y)) with ((a * x) * y) by ring.
    rewrite <- Z.mul_mod_idemp_l, Hx, Z.mul_1_l by lia. reflexivity.
Qed.

Variable shares : list Share.
Hypothesis shares_nodup : NoDup shares.
Hypothesis shares_units : invertible_differences m shares.

Lemma reconstruct_loop_spec (rows : list (nat * Share)) :
  (forall i s, In (i, s) rows -> nth_error shares i = Some s) ->
  forall secret,
  exists secret',
    reconstruct_loop rows shares m secret = Ret secret'
    /\ secret' mod m
       = (secret + zsum (map (fun row => lagrange_term m shares (snd row)) rows))
           mod m.
Proof.
  induction rows as [|[i si] rows IH]; intros Hrows secret.
  - exists secret. split; [reflexivity|]. unfold zsum. cbn. now rewrite Z.add_0_r.
  - cbn [reconstruct_loop].
    assert (Hnth : nth_error shares i = Some si) by (apply Hrows; now left).
    assert (Hin : In si shares) by (eapply nth_error_In; exact Hnth).
    destruct (lagrange_loop_spec i (id si) (indexed shares) 1 1)
      as (num & den & Hrun & Hn & Hd).
    rewrite Hrun. cbn [obind].
    unfold indexed in Hn, Hd.
    pose proof (index_others_at shares 0 i si Hnth
                  (ids_nodup m m_ge_2 shares shares_nodup shares_units)) as Hio.
    cbn [Nat.add] in Hio. rewrite Hio in Hn, Hd.
    rewrite Z.mul_1_l in Hn, Hd.
    fold (lagrange_numerator si shares) in Hn.
    fold (lagrange_denominator si shares) in Hd.
    pose proof (denominator_unit m shares shares_units si Hin) as Hunit.
    assert (Hden : Z.gcd den m = 1).
    { rewrite <- Z.gcd_mod_l, Hd, Z.gcd_mod_l by lia. exact Hunit. }
    destruct (modInv_spec den m ltac:(lia) Hden) as (dinv & Hinv & Hrange & Hone).
    rewrite Hinv. cbn [obind]. repeat (rewrite bigint_rem_ret; cbn [obind]).
    assert (Hrows' : forall j s, In (j, s) rows -> nth_error shares j = Some s)
      by (intros j s Hjs; apply Hrows; now right).
    destruct (IH Hrows'
                (Z.rem (secret + Z.rem (value si * Z.rem (num * dinv) m) m) m))
      as (secret' & Hloop & Hsum).
    exists secret'. split; [exact Hloop|].
    rewrite Hsum. cbn [map snd].
    change (zsum (lagrange_term m shares si
                  :: map (fun row => lagrange_term m shares (snd row)) rows))
      with (lagrange_term m shares si
            + zsum (map (fun row => lagrange_term m shares (snd row)) rows)).
    rewrite Z.add_assoc.
    assert (Hdinv : dinv mod m
                    = (Z.invmod (lagrange_denominator si shares) m) mod m).
    { apply (inverse_unique den); [exact Hone|].
      rewrite <- Z.mul_mod_idemp_l, Hd, Z.mul_mod_idemp_l by lia.
      rewrite Z.mul_comm. apply Z.invmod_coprime; [lia|exact Hunit]. }
    apply add_cong; [lia| |reflexivity].
    rewrite rem_mod_eq by lia. apply add_cong; [lia|reflexivity|].
    rewrite rem_mod_eq by lia. unfold lagrange_term.
    apply mul_cong; [lia|reflexivity|].
    rewrite rem_mod_eq by lia. apply mul_cong; [lia|exact Hn|exact Hdinv].
Qed.

Lemma indexed_nth (l : list Share) (i : nat) (s : Share) :
  In (i, s) (indexed l) -> nth_error l i = Some s.
Proof.
  unfold indexed.
  assert (G : forall o, In (i, s) (combine (seq o (List.length l)) l) ->
              (o <= i)%nat /\ nth_error l (i - o) = Some s).
  { induction l as [|t l IH]; intros o H; [contradiction|].
    cbn [List.length seq combine] in H. destruct H as [[= <- <-]|H].
    - rewrite Nat.sub_diag. split; [lia|reflexivity].
    - apply IH in H as [Hle Hnth]. split; [lia|].
      replace (i - o)%nat with (S (i - S o)) by lia. exact Hnth. }
  intros H. apply G in H as [_ H]. now rewrite Nat.sub_0_r in H.
Qed.

Lemma map_snd_indexed (l : list Share) : map snd (indexed l) = l.
Proof.
  unfold indexed.
  assert (G : forall o, map snd (combine (seq o (List.length l)) l) = l).
  { induction l as [|t l IH]; intros o; [reflexivity|].
    cbn [List.length seq combine map snd]. f_equal. apply IH. }
  apply G.
Qed.

(** [reconstructSecret] returns the canonical residue of the Lagrange sum. *)
Theorem reconstructSecret_spec :
  reconstructSecret shares m
  = Ret ((zsum (map (lagrange_term m shares) shares)) mod m).
Proof.
  unfold reconstructSecret.
  destruct (reconstruct_loop_spec (indexed shares) (indexed_nth shares) 0)
    as (secret & Hrun & Hsum).
  rewrite Hrun. cbn [obind]. repeat (rewrite bigint_rem_ret; cbn [obind]).
  f_equal.
  pose proof (rem_abs_lt secret m ltac:(lia)) as Hb.
  rewrite rem_nonneg_mod by lia.
  rewrite <- Z.add_mod_idemp_r, Z.mod_same, Z.add_0_r by lia.
  rewrite rem_mod_eq by lia.
  rewrite Hsum, Z.add_0_l.
  rewrite <- (map_map snd (lagrange_term m shares)), map_snd_indexed.
  reflexivity.
Qed.

End ReconstructSecret.

(** ** generateSecretShares evaluates one polynomial at 1, ..., n *)

Section GenerateSecretShares.
Import HomomorphicEncryption.

Variable m : Z.
Hypothesis m_pos : 0 < m.

Lemma generateRandomBigInt_inv (w w' : World) (a : Z) :
  generateRandomBigInt m w = (Ret a, w') -> 0 <= a < m.
Proof.
  unfold generateRandomBigInt, bind, lift. intros H.
  destruct (randomBytes ((binary_length m + 7) / 8) w) as [[buffer|e] w1] eqn:Hrb;
    [|discriminate].
  apply EncryptFacts.randomBytes_inv in Hrb as (Hbytes & _).
  unfold bigint_rem in H.
  destruct (m =? 0) eqn:E; [discriminate|].
  injection H as <- _.
  rewrite rem_nonneg_mod; [apply Z.mod_pos_bound; lia| |lia].
  apply EncryptFacts.bytes_to_bigint_nonneg.
  eapply Forall_impl; [|exact Hbytes]. cbn. intros; lia.
Qed.

Lemma random_coefficients_inv (count : nat) :
  forall w w' l,
    random_coefficients count m w = (Ret l, w') ->
    List.length l = count /\ Forall (fun a => 0 <= a) l.
Proof.
  induction count as [|count IH]; intros w w' l H; cbn [random_coefficients] in H.
  - injection H as <- _. split; [reflexivity|constructor].
  - unfold bind in H.
    destruct (generateRandomBigInt m w) as [[a|e] w1] eqn:Ha; [|discriminate].
    destruct (random_coefficients count m w1) as [[rest|e] w2] eqn:Hrest;
      [|discriminate].
    injection H as <- _.
    apply generateRandomBigInt_inv in Ha. apply IH in Hrest as [Hlen Hall].
    split; [cbn; now rewrite Hlen|]. constructor; [lia|exact Hall].
Qed.

Lemma evaluate_loop_spec (coefficients : list Z) (x : Z) :
  Forall (fun a => 0 <= a) coefficients -> 0 <= x ->
  forall y xPower, 0 <= y < m -> 0 <= xPower ->
    evaluate_loop coefficients x m y xPower
    = Ret ((y + xPower * peval coefficients x) mod m).
Proof.
  intros Hall Hx. induction Hall as [|c cs Hc Hcs IH]; intros y xPower Hy Hxp.
  - cbn [evaluate_loop peval]. rewrite Z.mul_0_r, Z.add_0_r, Z.mod_small by lia.
    reflexivity.
  - cbn [evaluate_loop peval]. unfold bigint_rem.
    destruct (m =? 0) eqn:E; [apply Z.eqb_eq in E; lia|].
    cbn [obind].
    rewrite (rem_nonneg_mod (c * xPower)) by nia.
    pose proof (Z.mod_pos_bound (c * xPower) m m_pos).
    rewrite (rem_nonneg_mod (y + _)) by lia.
    rewrite (rem_nonneg_mod (xPower * x)) by nia.
    rewrite IH by (apply Z.mod_pos_bound; lia).
    f_equal.
    transitivity ((y + c * xPower + (xPower * x) * peval cs x) mod m);
      [|f_equal; ring].
    apply add_cong; [lia| |].
    + rewrite Z.mod_mod by lia. apply add_cong; [lia|reflexivity|].
      apply Z.mod_mod; lia.
    + apply mul_cong; [lia|apply Z.mod_mod; lia|reflexivity].
Qed.

Lemma shares_loop_spec (coefficients : list Z) (xs : list nat) :
  Forall (fun a => 0 <= a) coefficients ->
  shares_loop xs coefficients m
  = Ret (map (fun x => mkShare (Z.of_nat x)
                         ((peval coefficients (Z.of_nat x)) mod m)) xs).
Proof.
  intros Hall. induction xs as [|x xs IH]; [reflexivity|].
  cbn [shares_loop map].
  rewrite evaluate_loop_spec by (auto; lia). cbn [obind].
  rewrite IH. cbn [obind]. rewrite Z.add_0_l, Z.mul_1_l. reflexivity.
Qed.

(** The shares are the values, modulo [m], of one polynomial with [k]
    coefficients and constant term [secret]. *)
Lemma generateSecretShares_inv (secret : Z) (n k : nat) (w w' : World)
  (shares : list Share) :
  0 <= secret -> (1 <= k)%nat ->
  generateSecretShares secret n k m w = (Ret shares, w') ->
  exists P,
    List.length P = k /\ peval P 0 = secret
    /\ shares = map (fun x => mkShare (Z.of_nat x) ((peval P (Z.of_nat x)) mod m))
                  (seq 1 n).
Proof.
  intros Hs Hk H. unfold generateSecretShares, bind, lift in H.
  destruct (random_coefficients (k - 1) m w) as [[random|e] w1] eqn:Hr;
    [|discriminate].
  apply random_coefficients_inv in Hr as [Hlen Hall].
  assert (Hfirst : firstn k (secret :: random) = secret :: random).
  { apply firstn_all2. cbn [List.length]. lia. }
  rewrite Hfirst in H.
  rewrite shares_loop_spec in H by (constructor; auto).
  injection H as <- _.
  exists (secret :: random). split; [cbn [List.length]; lia|].
  split; [cbn [peval]; ring|reflexivity].
Qed.

End GenerateSecretShares.

(** ** Threshold correctness *)

(** C2, as worded, fails at the degenerate modulus 1, where [modInv]
    rejects every argument: the single share of the secret 0 cannot be
    recombined. *)
Lemma reconstructSecret_modulus_one_counterexample :
  ~ (forall (secret : Z) (n k : nat) (modulus : Z) (w w' : World)
            (shares S : list HomomorphicEncryption.Share),
        (1 <= k <= n)%nat -> 0 <= secret < modulus ->
        HomomorphicEncryption.generateSecretShares secret n k modulus w
          = (Ret shares, w') ->
        NoDup S -> incl S shares -> List.length S = k ->
        invertible_differences modulus S ->
        HomomorphicEncryption.reconstructSecret S modulus = Ret secret).
Proof.
  intros claim.
  specialize (claim 0 1%nat 1%nat 1 sample_world sample_world
                [HomomorphicEncryption.mkShare 1 0]
                [HomomorphicEncryption.mkShare 1 0]).
  assert (H : HomomorphicEncryption.reconstructSecret
                [HomomorphicEncryption.mkShare 1 0] 1 = Ret 0).
  { apply claim.
    - lia.
    - lia.
    - reflexivity.
    - constructor; [intros []|constructor].
    - apply incl_refl.
    - reflexivity.
    - intros s t [<-|[]] [<-|[]] Hne. now contradiction Hne. }
  vm_compute in H. discriminate H.
Qed.

(** C2, amended - for a modulus of at least 2, thresholds [1 <= k <= n]
    and a secret in [[0, modulus)], every list of [k] distinct shares out of
    those [generateSecretShares] returned, whose identifiers differ pairwise
    by units modulo the modulus, is recombined by [reconstructSecret] into
    exactly the secret. *)
Theorem reconstructSecret_generateSecretShares
  (secret : Z) (n k : nat) (modulus : Z) (w w' : World)
  (shares S : list HomomorphicEncryption.Share) :
  2 <= modulus ->
  (1 <= k <= n)%nat -> 0 <= secret < modulus ->
  HomomorphicEncryption.generateSecretShares secret n k modulus w
    = (Ret shares, w') ->
  NoDup S -> incl S shares -> List.length S = k ->
  invertible_differences modulus S ->
  HomomorphicEncryption.reconstructSecret S modulus = Ret secret.
Proof.
  intros Hm Hk Hs Hgen Hnd Hincl Hlen Hunits.
  apply generateSecretShares_inv in Hgen as (P & HlenP & HP0 & Hshares);
    try lia.
  rewrite (reconstructSecret_spec modulus Hm S Hnd Hunits).
  f_equal.
  rewrite (lagrange_at_zero modulus Hm S Hnd Hunits P).
  - rewrite HP0. apply Z.mod_small. lia.
  - lia.
  - intros s Hin. apply Hincl in Hin. rewrite Hshares in Hin.
    apply in_map_iff in Hin as (x & <- & _). cbn.
    now rewrite Z.mod_mod by lia.
Qed.

Lemma reconstructSecret_generateSecretShares_witness :
  HomomorphicEncryption.reconstructSecret
    [HomomorphicEncryption.mkShare 5 121; HomomorphicEncryption.mkShare 2 52;
     HomomorphicEncryption.mkShare 4 159] 551
  = Ret 252.
Proof.
  apply (reconstructSecret_generateSecretShares 252 5 3 551 sample_world
           (snd (HomomorphicEncryption.generateSecretShares 252 5 3 551 sample_world))
           [HomomorphicEncryption.mkShare 1 458; HomomorphicEncryption.mkShare 2 52;
            HomomorphicEncryption.mkShare 3 136; HomomorphicEncryption.mkShare 4 159;
            HomomorphicEncryption.mkShare 5 121]).
  - lia.
  - lia.
  - lia.
  - vm_compute. reflexivity.
  - repeat constructor; cbn; intuition discriminate.
  - intros s Hs. cbn in Hs |- *. intuition auto.
  - reflexivity.
  - intros s t Hs Ht Hne. cbn in Hs, Ht.
    destruct Hs as [<-|[<-|[<-|[]]]]; destruct Ht as [<-|[<-|[<-|[]]]];
      try (now contradiction Hne); vm_compute; reflexivity.
Defined.

(** ** Paillier: decryption of a homomorphic sum *)

Section PaillierArithmetic.

Variable n : Z.
Hypothesis n_gt_1 : 1 < n.

(** Powers of [1 + t n] are linear modulo [n²]. *)
Lemma one_plus_pow (t e : Z) :
  0 <= e -> ((1 + t * n) ^ e) mod (n * n) = (1 + e * t * n) mod (n * n).
Proof.
  intros He. pattern e. apply natlike_ind; [| |exact He].
  - rewrite Z.pow_0_r. reflexivity.
  - intros x Hx IH. rewrite Z.pow_succ_r by lia.
    rewrite Z.mul_mod, IH, <- Z.mul_mod by nia.
    replace ((1 + t * n) * (1 + x * t * n))
      with (1 + Z.succ x * t * n + (x * t * t) * (n * n)) by ring.
    apply Z.mod_add. nia.
Qed.

Lemma one_plus_mod (a : Z) : (1 + a * n) mod (n * n) = 1 + (a mod n) * n.
Proof.
  pose proof (Z.mod_pos_bound a n ltac:(lia)) as Hb.
  rewrite (Z.div_mod a n) at 1 by lia.
  replace (1 + (n * (a / n) + a mod n) * n)
    with (1 + (a mod n) * n + (a / n) * (n * n)) by ring.
  rewrite Z.mod_add by nia. apply Z.mod_small. nia.
Qed.

(** [L] applied to a power of a ciphertext. *)
Lemma L_one_plus (a : Z) :
  HomomorphicEncryption.L ((1 + a * n) mod (n * n)) n = Ret (a mod n).
Proof.
  unfold HomomorphicEncryption.L, bigint_div.
  destruct (n =? 0) eqn:E; [apply Z.eqb_eq in E; lia|].
  f_equal. rewrite one_plus_mod.
  pose proof (Z.mod_pos_bound a n ltac:(lia)) as Hb.
  replace (1 + a mod n * n - 1) with (a mod n * n) by ring.
  rewrite Z.quot_div_nonneg by nia. apply Z.div_mul. lia.
Qed.

End PaillierArithmetic.

Section PaillierKeys.

Variables p q : Z.
Hypothesis p_prime : Z.prime p.
Hypothesis q_prime : Z.prime q.
Hypothesis p_neq_q : p <> q.

Let n := p * q.

Lemma primes_coprime : Z.gcd p q = 1.
Proof.
  apply Z.coprime_prime_l; [exact p_prime|].
  intros Hdiv. destruct q_prime as [Hq1 Hq].
  pose proof (Z.prime_ge_2 p p_prime) as Hp2.
  assert (Hle : p <= q) by (apply Z.divide_pos_le; [lia|exact Hdiv]).
  apply (Hq p); [lia|exact Hdiv].
Qed.

Lemma n_gt_1 : 1 < n.
Proof.
  pose proof (Z.prime_ge_2 p p_prime). pose proof (Z.prime_ge_2 q q_prime).
  unfold n. nia.
Qed.

Lemma pow_multiple_of_order (s r k lam : Z) :
  Z.prime s -> r mod s <> 0 -> 0 <= k -> lam = k * (s - 1) ->
  (r ^ lam) mod s = 1.
Proof.
  intros Hs Hr Hk ->. pose proof (Z.prime_ge_2 s Hs) as Hs2.
  rewrite Z.mul_comm, Z.pow_mul_r by lia.
  rewrite <- Z.mod_pow_l.
  rewrite ZmodInv.Z.fermat_nz by assumption.
  rewrite Z.pow_1_l by lia. apply Z.mod_1_l. lia.
Qed.

Lemma coprime_not_multiple (s r : Z) :
  Z.prime s -> (s | n) -> Z.gcd r n = 1 -> r mod s <> 0.
Proof.
  intros Hs Hsn Hg Hmod. pose proof (Z.prime_ge_2 s Hs) as Hs2.
  apply Z.mod_divide in Hmod; [|lia].
  assert (Hd : (s | Z.gcd r n)) by (apply Z.gcd_greatest; assumption).
  rewrite Hg in Hd. apply Z.divide_1_r_nonneg in Hd; lia.
Qed.

(** Carmichael's exponent: a unit modulo [n] raised to a common multiple of
    [p - 1] and [q - 1] is 1 modulo [n]. *)
Lemma unit_pow_lambda (r lam : Z) :
  Z.gcd r n = 1 -> 0 <= lam -> (p - 1 | lam) -> (q - 1 | lam) ->
  (r ^ lam) mod n = 1.
Proof.
  intros Hg Hlam [kp Hkp] [kq Hkq].
  pose proof (Z.prime_ge_2 p p_prime) as Hp2.
  pose proof (Z.prime_ge_2 q q_prime) as Hq2.
  pose proof n_gt_1 as Hn.
  assert (Hkp0 : 0 <= kp) by nia.
  assert (Hkq0 : 0 <= kq) by nia.
  assert (Hp : (r ^ lam) mod p = 1).
  { apply (pow_multiple_of_order p r kp lam); auto.
    apply coprime_not_multiple; auto. exists q. unfold n. ring. }
  assert (Hq : (r ^ lam) mod q = 1).
  { apply (pow_multiple_of_order q r kq lam); auto.
    apply coprime_not_multiple; auto. exists p. unfold n. ring. }
  assert (Dp : (p | r ^ lam - 1)).
  { apply Z.mod_divide; [lia|].
    rewrite Zminus_mod, Hp, Z.mod_1_l by lia. reflexivity. }
  assert (Dq : (q | r ^ lam - 1)).
  { apply Z.mod_divide; [lia|].
    rewrite Zminus_mod, Hq, Z.mod_1_l by lia. reflexivity. }
  destruct Dp as [a Ha].
  assert (Dq' : (q | a)).
  { apply Z.gauss with (m := p).
    - rewrite Z.mul_comm, <- Ha. exact Dq.
    - rewrite Z.gcd_comm. apply primes_coprime. }
  destruct Dq' as [b Hb].
  replace (r ^ lam) with (1 + b * n) by (unfold n; nia).
  rewrite Z.mod_add by lia. apply Z.mod_1_l. lia.
Qed.

End PaillierKeys.

Section PaillierDecryption.
Import HomomorphicEncryption.

Lemma lcm_spec (a b : Z) :
  0 < a -> 0 < b ->
  exists l, lcm a b = Ret l /\ 0 < l /\ (a | l) /\ (b | l).
Proof.
  intros Ha Hb. unfold lcm. rewrite gcd_spec by lia. cbn [obind].
  pose proof (Z.gcd_nonneg a b) as Hg0.
  assert (Hg : 0 < Z.gcd a b).
  { destruct (Z.eq_dec (Z.gcd a b) 0) as [E|E]; [|lia].
    apply Z.gcd_eq_0_l in E. lia. }
  destruct (Z.gcd_divide_l a b) as [a' Ha'].
  destruct (Z.gcd_divide_r a b) as [b' Hb'].
  set (g := Z.gcd a b) in *. clearbody g.
  unfold bigint_div.
  destruct (g =? 0) eqn:E; [apply Z.eqb_eq in E; lia|].
  rewrite Z.quot_div_nonneg by nia.
  eexists; split; [reflexivity|].
  assert (Ha'pos : 0 < a') by nia.
  assert (Hb'pos : 0 < b') by nia.
  assert (El : a * b / g = a * b').
  { rewrite Hb'. rewrite Z.mul_assoc. apply Z.div_mul. lia. }
  rewrite El. split; [nia|]. split.
  - exists b'. ring.
  - exists a'. rewrite Ha', Hb'. ring.
Qed.

Variables p q : Z.
Hypothesis p_prime : Z.prime p.
Hypothesis q_prime : Z.prime q.
Hypothesis p_neq_q : p <> q.

Let n := p * q.

Lemma derive_keys_inv (pk : PublicKey) (sk : PrivateKey) :
  derive_keys p q = Ret (pk, sk) ->
  pk = mkPublicKey n (n + 1) (n * n)
  /\ exists lam mu,
       sk = mkPrivateKey lam mu n (n * n)
       /\ 0 < lam /\ (p - 1 | lam) /\ (q - 1 | lam)
       /\ 0 <= mu < n /\ (lam * mu) mod n = 1.
Proof.
  pose proof (Z.prime_ge_2 p p_prime) as Hp2.
  pose proof (Z.prime_ge_2 q q_prime) as Hq2.
  pose proof (n_gt_1 p q p_prime q_prime p_neq_q) as Hn. fold n in Hn.
  unfold derive_keys. fold n.
  destruct (lcm_spec (p - 1) (q - 1) ltac:(lia) ltac:(lia))
    as (lam & Hlcm & Hlam & Dp & Dq).
  rewrite Hlcm. cbn [obind].
  rewrite modPow_nonneg by nia. cbn [obind].
  replace (n + 1) with (1 + 1 * n) by ring.
  rewrite one_plus_pow by lia.
  replace (lam * 1 * n) with (lam * n) by ring.
  rewrite L_one_plus by lia. cbn [obind].
  destruct (modInv (lam mod n) n) as [mu|e] eqn:Hinv; [|discriminate].
  cbn [obind]. intros [= <- <-].
  apply modInv_inv in Hinv as (_ & _ & Hmu & Hone).
  rewrite Z.mul_mod_idemp_l in Hone by lia.
  split; [f_equal; ring|].
  exists lam, mu. repeat split; auto; lia.
Qed.

Variables lam mu : Z.
Hypothesis lam_pos : 0 < lam.
Hypothesis lam_p : (p - 1 | lam).
Hypothesis lam_q : (q - 1 | lam).
Hypothesis lam_mu : (lam * mu) mod n = 1.
Hypothesis mu_nonneg : 0 <= mu.

(** The heart of Paillier decryption: [c^lambda] for a ciphertext [c]
    congruent to [g^M * R^n]. *)
Lemma ciphertext_pow_lambda (c M R : Z) :
  0 <= M -> Z.gcd R n = 1 ->
  c mod (n * n) = ((1 + 1 * n) ^ M * R ^ n) mod (n * n) ->
  (c ^ lam) mod (n * n) = (1 + (M * lam) * n) mod (n * n).
Proof.
  intros HM HR Hc.
  pose proof (n_gt_1 p q p_prime q_prime p_neq_q) as Hn. fold n in Hn.
  assert (HN : 0 < n * n) by nia.
  rewrite <- Z.mod_pow_l, Hc, Z.mod_pow_l.
  rewrite Z.pow_mul_l, <- !Z.pow_mul_r by lia.
  rewrite (Z.mul_comm n lam), (Z.pow_mul_r R) by lia.
  assert (HRlam : (R ^ lam) mod n = 1)
    by (apply (unit_pow_lambda p q p_prime q_prime p_neq_q); auto; lia).
  assert (ER : R ^ lam = 1 + (R ^ lam / n) * n).
  { rewrite (Z.div_mod (R ^ lam) n) at 1 by lia. rewrite HRlam. ring. }
  rewrite ER.
  rewrite Z.mul_mod, !one_plus_pow by nia.
  rewrite (one_plus_mod n Hn (n * (R ^ lam / n))).
  rewrite (Z.mul_comm n (R ^ lam / n)), Z.mod_mul, Z.mul_0_l, Z.add_0_r by lia.
  rewrite Z.mul_1_r, Z.mod_mod by lia.
  f_equal. ring.
Qed.

Lemma decrypt_arithmetic (c M R : Z) :
  0 <= M < n -> Z.gcd R n = 1 ->
  c mod (n * n) = ((1 + 1 * n) ^ M * R ^ n) mod (n * n) ->
  (cLambda <~ modPow c lam (n * n) ;;
   l <~ L cLambda n ;;
   bigint_rem (l * mu) n) = Ret M.
Proof.
  intros HM HR Hc.
  pose proof (n_gt_1 p q p_prime q_prime p_neq_q) as Hn. fold n in Hn.
  rewrite modPow_nonneg by nia. cbn [obind].
  rewrite (ciphertext_pow_lambda c M R) by (auto; lia).
  rewrite L_one_plus by lia. cbn [obind].
  unfold bigint_rem.
  destruct (n =? 0) eqn:E; [apply Z.eqb_eq in E; lia|].
  f_equal.
  pose proof (Z.mod_pos_bound (M * lam) n ltac:(lia)) as Hb.
  rewrite rem_nonneg_mod by nia.
  rewrite Z.mul_mod_idemp_l by lia.
  rewrite <- Z.mul_assoc, <- Z.mul_mod_idemp_r, lam_mu, Z.mul_1_r by lia.
  apply Z.mod_small. lia.
Qed.

End PaillierDecryption.

Section Homomorphism.
Import HomomorphicEncryption.

Lemma Number_small (m : Z) : 0 <= m <= MAX_SAFE_INTEGER -> Number m = Finite m.
Proof.
  unfold MAX_SAFE_INTEGER. intros Hm.
  assert (H53 : 2 ^ 53 = 9007199254740992) by reflexivity.
  unfold Number. rewrite Z.abs_eq by lia.
  assert (Hr : round_to_double m = m).
  { unfold round_to_double.
    destruct (Z.eq_dec m 0) as [->|Hnz]; [reflexivity|].
    assert (Hlog : Z.log2 m < 53) by (apply Z.log2_lt_pow2; lia).
    apply Z.ltb_lt in Hlog. now rewrite Hlog. }
  rewrite Hr.
  assert (Hbig : 2 ^ 53 <= 2 ^ 1024) by (apply Z.pow_le_mono_r; lia).
  destruct (m >=? 2 ^ 1024) eqn:E.
  - rewrite Z.geb_leb in E. apply Z.leb_le in E. lia.
  - f_equal. destruct m; cbn; lia.
Qed.

Lemma addEncrypted_two (this : Engine) (pk : PublicKey) (c1 c2 : Z) :
  0 < pk_nsq pk -> 0 <= c1 < pk_nsq pk -> 0 <= c2 ->
  addEncrypted this [VoteString (toString c1); VoteString (toString c2)] (Some pk)
  = Ret (toString ((c1 * c2) mod pk_nsq pk)).
Proof.
  intros HN Hc1 Hc2. unfold addEncrypted. cbn [default_to addEncrypted_loop vote_ciphertext obind].
  rewrite BigInt_toString. cbn [obind]. unfold bigint_rem.
  destruct (pk_nsq pk =? 0) eqn:E; [apply Z.eqb_eq in E; lia|].
  cbn [obind]. rewrite BigInt_toString. cbn [obind].
  rewrite Z.mul_1_l. rewrite (rem_nonneg_mod c1) by lia.
  rewrite (Z.mod_small c1) by lia.
  rewrite rem_nonneg_mod by nia. reflexivity.
Qed.

End Homomorphism.

(** Homomorphism over a Paillier key pair (the key formulae of
    [generateKeys] on two distinct primes): for non-negative votes [v1],
    [v2] whose sum is below [n] and is a safe integer, decrypting the
    homomorphic sum of their encryptions returns [v1 + v2]. *)
Lemma homomorphic_sum_decrypts
  (this : HomomorphicEncryption.Engine)
  (pk : HomomorphicEncryption.PublicKey) (sk : HomomorphicEncryption.PrivateKey)
  (v1 v2 : Z) (w1 w1' w2 w2' : World)
  (e1 e2 : HomomorphicEncryption.EncryptedVote) :
  paillier_key_pair pk sk ->
  0 <= v1 -> 0 <= v2 ->
  v1 + v2 < HomomorphicEncryption.pk_n pk ->
  v1 + v2 <= MAX_SAFE_INTEGER ->
  HomomorphicEncryption.encrypt this v1 (Some pk) w1 = (Ret e1, w1') ->
  HomomorphicEncryption.encrypt this v2 (Some pk) w2 = (Ret e2, w2') ->
  (sum <~ HomomorphicEncryption.addEncrypted this
            [HomomorphicEncryption.VoteString (HomomorphicEncryption.ciphertext e1);
             HomomorphicEncryption.VoteString (HomomorphicEncryption.ciphertext e2)]
            (Some pk) ;;
   HomomorphicEncryption.decrypt this sum (Some sk))
  = Ret (Finite (v1 + v2)).
Proof.
  intros (p & q & Hp & Hq & Hpq & Hkeys) Hv1 Hv2 Hlt Hsafe He1 He2.
  apply (derive_keys_inv p q Hp Hq Hpq) in Hkeys
    as (Epk & lam & mu & Esk & Hlam & Dp & Dq & Hmu & Hone).
  set (n := p * q) in *.
  pose proof (n_gt_1 p q Hp Hq Hpq) as Hn. fold n in Hn.
  assert (Hnsq : HomomorphicEncryption.pk_nsq pk
                 = HomomorphicEncryption.pk_n pk * HomomorphicEncryption.pk_n pk)
    by (rewrite Epk; reflexivity).
  pose proof (EncryptFacts.encrypt_inv this v1 (Some pk) pk w1 w1' e1
                eq_refl Hnsq He1)
    as (r1 & c1 & _ & Ec1 & _ & _ & Hg1 & Hc1 & Hval1 & _).
  pose proof (EncryptFacts.encrypt_inv this v2 (Some pk) pk w2 w2' e2
                eq_refl Hnsq He2)
    as (r2 & c2 & _ & Ec2 & _ & _ & Hg2 & Hc2 & Hval2 & _).
  subst pk sk.
  cbn [HomomorphicEncryption.pk_n HomomorphicEncryption.pk_g] in *.
  specialize (Hval1 Hv1). specialize (Hval2 Hv2).
  rewrite Ec1, Ec2.
  rewrite addEncrypted_two by (cbn [HomomorphicEncryption.pk_nsq]; nia).
  cbn [obind HomomorphicEncryption.pk_nsq].
  unfold HomomorphicEncryption.decrypt.
  cbn [HomomorphicEncryption.default_to HomomorphicEncryption.sk_lambda
       HomomorphicEncryption.sk_mu HomomorphicEncryption.sk_n
       HomomorphicEncryption.sk_nsq].
  rewrite BigInt_toString. cbn [obind].
  pose proof (decrypt_arithmetic p q Hp Hq Hpq lam mu Hlam Dp Dq Hone
                ltac:(lia) ((c1 * c2) mod (n * n)) (v1 + v2) (r1 * r2)) as Hdec.
  fold n in Hdec.
  assert (Hcong : ((c1 * c2) mod (n * n)) mod (n * n)
                  = ((1 + 1 * n) ^ (v1 + v2) * (r1 * r2) ^ n) mod (n * n)).
  { rewrite Z.mod_mod by nia. rewrite Hval1, Hval2.
    rewrite <- Z.mul_mod by nia. f_equal.
    replace (1 + 1 * n) with (n + 1) by ring.
    rewrite Z.pow_add_r, Z.pow_mul_l by lia. ring. }
  specialize (Hdec ltac:(lia) ltac:(now apply Z.coprime_mul_l) Hcong).
  destruct (modPow ((c1 * c2) mod (n * n)) lam (n * n)) as [cLambda|e];
    [|discriminate]. cbn [obind] in Hdec |- *.
  destruct (HomomorphicEncryption.L cLambda n) as [l|e]; [|discriminate].
  cbn [obind] in Hdec |- *.
  rewrite Hdec. cbn [obind].
  rewrite Number_small by lia. reflexivity.
Qed.

Lemma trial_division_sound (p : Z) : trial_division p = true -> Z.prime p.
Proof.
  unfold trial_division. intros H. apply andb_prop in H as [H1 Hall].
  apply Z.ltb_lt in H1. split; [exact H1|].
  intros d Hd Hdiv.
  rewrite forallb_forall in Hall.
  specialize (Hall (Z.to_nat d)).
  rewrite Z2Nat.id in Hall by lia.
  assert (Hin : In (Z.to_nat d) (seq 2 (Z.to_nat p - 2))) by (apply in_seq; lia).
  apply Hall in Hin. apply negb_true_iff, Z.eqb_neq in Hin.
  apply Hin. apply Z.mod_divide; [lia|exact Hdiv].
Qed.

Lemma homomorphic_sum_decrypts_witness :
  (sum <~ HomomorphicEncryption.addEncrypted sample_engine
            [HomomorphicEncryption.VoteString "246415";
             HomomorphicEncryption.VoteString "76280"]
            (Some sample_publicKey) ;;
   HomomorphicEncryption.decrypt sample_engine sum
     (Some (HomomorphicEncryption.mkPrivateKey 252 422 551 303601)))
  = Ret (Finite (3 + 4)).
Proof.
  apply (homomorphic_sum_decrypts sample_engine sample_publicKey
           (HomomorphicEncryption.mkPrivateKey 252 422 551 303601)
           3 4
           sample_world
           (snd (HomomorphicEncryption.encrypt sample_engine 3
                   (Some sample_publicKey) sample_world))
           (snd (HomomorphicEncryption.encrypt sample_engine 3
                   (Some sample_publicKey) sample_world))
           (snd (HomomorphicEncryption.encrypt sample_engine 4
                   (Some sample_publicKey)
                   (snd (HomomorphicEncryption.encrypt sample_engine 3
                           (Some sample_publicKey) sample_world))))
           (HomomorphicEncryption.mkEncryptedVote "246415" "530")
           (HomomorphicEncryption.mkEncryptedVote "76280" "333")).
  - exists 19, 29. split; [apply trial_division_sound; reflexivity|].
    split; [apply trial_division_sound; reflexivity|].
    split; [lia|vm_compute; reflexivity].
  - lia.
  - lia.
  - cbn. lia.
  - vm_compute. discriminate.
  - vm_compute. reflexivity.
  - vm_compute. reflexivity.
Defined.

(** ** generateKeys produces Paillier key pairs *)

Section GenerateKeysFacts.
Import HomomorphicEncryption.

Variable isProbablyPrime : Z -> Z -> bool.

Lemma generatePrime_loop_inv (fuel : nat) (bits : Z) :
  forall w w' c,
    generatePrime_loop isProbablyPrime fuel bits w = (Ret c, w') ->
    isProbablyPrime c 15 = true.
Proof.
  induction fuel as [|fuel IH]; intros w w' c H; cbn [generatePrime_loop] in H;
    [discriminate|].
  unfold bind at 1 in H.
  destruct (randomBytes ((bits + 7) / 8) w) as [[buffer|e] w1]; [|discriminate].
  destruct (_ || _) in H; [eapply IH; exact H|].
  match type of H with
  | (if isProbablyPrime ?cand 15 then _ else _) _ = _ =>
      destruct (isProbablyPrime cand 15) eqn:Ho
  end.
  - injection H as <- _. exact Ho.
  - eapply IH; exact H.
Qed.

Lemma generatePrime_half_inv (keySize : Z) (w w' : World) (c : Z) :
  generatePrime_half isProbablyPrime keySize w = (Ret c, w') ->
  isProbablyPrime c 15 = true.
Proof.
  unfold generatePrime_half, generatePrime.
  destruct (Z.even keySize).
  - apply generatePrime_loop_inv.
  - unfold bind, throw.
    destruct (randomBytes ((keySize + 15) / 16) w) as [[buffer|e] w1];
      discriminate.
Qed.

Lemma derive_keys_modulus (p q : Z) (pk : PublicKey) (sk : PrivateKey) :
  derive_keys p q = Ret (pk, sk) -> pk_n pk = p * q.
Proof.
  unfold derive_keys. intros H.
  destruct (lcm (p - 1) (q - 1)) as [lam|e]; [|discriminate]. cbn [obind] in H.
  destruct (modPow _ _ _) as [gl|e] in H; [|discriminate]. cbn [obind] in H.
  destruct (L _ _) as [l|e] in H; [|discriminate]. cbn [obind] in H.
  destruct (modInv _ _) as [mu|e] in H; [|discriminate]. cbn [obind] in H.
  injection H as <- _. reflexivity.
Qed.

(** When the primality test is right about what it accepted and the two
    primes drawn differ (the modulus is not a square), what [generateKeys]
    returns and installs is a Paillier key pair. *)
Lemma generateKeys_paillier (this this' : Engine) (w w' : World)
  (keys : GeneratedKeys) :
  (forall c, isProbablyPrime c 15 = true -> Z.prime c) ->
  generateKeys isProbablyPrime this w = (Ret (keys, this'), w') ->
  (forall r, pk_n (gk_publicKey keys) <> r * r) ->
  paillier_key_pair (gk_publicKey keys) (gk_privateKey keys)
  /\ publicKey this' = Some (gk_publicKey keys)
  /\ privateKey this' = Some (gk_privateKey keys).
Proof.
  intros Hsound H Hsquare. unfold generateKeys in H.
  unfold bind at 1 in H.
  destruct (generatePrime_half isProbablyPrime (keySize this) w)
    as [[p|e] w1] eqn:Hp; [|discriminate].
  unfold bind at 1 in H.
  destruct (generatePrime_half isProbablyPrime (keySize this) w1)
    as [[q|e] w2] eqn:Hq; [|discriminate].
  unfold bind at 1 in H. unfold lift in H.
  destruct (derive_keys p q) as [[pk sk]|e] eqn:Hkeys; [|discriminate].
  unfold bind in H.
  destruct (generateSecretShares _ _ _ _ w2) as [[shares|e] w3]; [|discriminate].
  unfold ret in H. injection H as <- <- _.
  cbn [gk_publicKey gk_privateKey publicKey privateKey] in *.
  split; [|split; reflexivity].
  exists p, q.
  apply generatePrime_half_inv in Hp, Hq.
  split; [now apply Hsound|]. split; [now apply Hsound|].
  split; [|exact Hkeys].
  intros ->. apply (Hsquare q). now apply derive_keys_modulus in Hkeys.
Qed.

End GenerateKeysFacts.

Lemma five_bit_prime_sound (c : Z) : five_bit_prime c 15 = true -> Z.prime c.
Proof.
  unfold five_bit_prime. intros H.
  repeat (apply orb_true_iff in H as [H|H]);
    apply Z.eqb_eq in H; subst c; apply trial_division_sound; reflexivity.
Qed.

(** ** C1: the homomorphism and the keys of generateKeys *)

(** C1, as worded, fails: [generateKeys] never compares its two primes.
    With [keySize = 10] and a random source that repeats itself both draws
    give 19; the key pair is returned ([n = 361], [lambda = 18]) and the sum
    of an encryption of 3 and one of 4 does not decrypt to 7. *)
Lemma generateKeys_equal_primes_counterexample :
  ~ (forall (isProbablyPrime : Z -> Z -> bool)
            (engine engine' this : HomomorphicEncryption.Engine) (w w' : World)
            (keys : HomomorphicEncryption.GeneratedKeys)
            (v1 v2 : Z) (w1 w1' w2 w2' : World)
            (e1 e2 : HomomorphicEncryption.EncryptedVote),
        (forall c, isProbablyPrime c 15 = true -> Z.prime c) ->
        HomomorphicEncryption.generateKeys isProbablyPrime engine w
          = (Ret (keys, engine'), w') ->
        0 <= v1 -> 0 <= v2 ->
        v1 + v2 < HomomorphicEncryption.pk_n
                    (HomomorphicEncryption.gk_publicKey keys) ->
        v1 + v2 <= MAX_SAFE_INTEGER ->
        HomomorphicEncryption.encrypt this v1
          (Some (HomomorphicEncryption.gk_publicKey keys)) w1 = (Ret e1, w1') ->
        HomomorphicEncryption.encrypt this v2
          (Some (HomomorphicEncryption.gk_publicKey keys)) w2 = (Ret e2, w2') ->
        (sum <~ HomomorphicEncryption.addEncrypted this
                  [HomomorphicEncryption.VoteString
                     (HomomorphicEncryption.ciphertext e1);
                   HomomorphicEncryption.VoteString
                     (HomomorphicEncryption.ciphertext e2)]
                  (Some (HomomorphicEncryption.gk_publicKey keys)) ;;
         HomomorphicEncryption.decrypt this sum
           (Some (HomomorphicEncryption.gk_privateKey keys)))
        = Ret (Finite (v1 + v2))).
Proof.
  intros claim.
  pose (fresh := HomomorphicEncryption.mkEngine 10 None None None None).
  pose (run := HomomorphicEncryption.generateKeys exact_prime_test fresh
                 repeating_world).
  pose (keys := HomomorphicEncryption.mkGeneratedKeys
                  (HomomorphicEncryption.mkPublicKey 361 362 130321)
                  (HomomorphicEncryption.mkPrivateKey 18 341 361 130321)
                  (HomomorphicEncryption.mkKeyShares
                     (Some [HomomorphicEncryption.mkShare 1 37;
                            HomomorphicEncryption.mkShare 2 75;
                            HomomorphicEncryption.mkShare 3 132;
                            HomomorphicEncryption.mkShare 4 208;
                            HomomorphicEncryption.mkShare 5 303])
                     341 361 130321 5 3) 5 3).
  pose (engine' := match fst run with
                   | Ret (_, e) => e
                   | Throw _ => fresh
                   end).
  assert (Hrun : run = (Ret (keys, engine'), snd run)) by (vm_compute; reflexivity).
  pose (first := HomomorphicEncryption.encrypt engine' 3
                   (Some (HomomorphicEncryption.gk_publicKey keys)) (snd run)).
  assert (H1 : first = (Ret (HomomorphicEncryption.mkEncryptedVote "119158" "218"),
                        snd first)) by (vm_compute; reflexivity).
  pose (second := HomomorphicEncryption.encrypt engine' 4
                    (Some (HomomorphicEncryption.gk_publicKey keys)) (snd first)).
  assert (H2 : second = (Ret (HomomorphicEncryption.mkEncryptedVote "129266" "218"),
                         snd second)) by (vm_compute; reflexivity).
  assert (Hsound : forall c, exact_prime_test c 15 = true -> Z.prime c)
    by (intros c Hc; now apply trial_division_sound).
  assert (Hlt : 3 + 4 < HomomorphicEncryption.pk_n
                          (HomomorphicEncryption.gk_publicKey keys))
    by (cbn; lia).
  assert (Hsafe : 3 + 4 <= MAX_SAFE_INTEGER) by (vm_compute; discriminate).
  pose proof (claim exact_prime_test fresh engine' engine' repeating_world
                (snd run) keys 3 4 (snd run) (snd first) (snd first) (snd second)
                _ _ Hsound Hrun ltac:(lia) ltac:(lia) Hlt Hsafe H1 H2) as H.
  vm_compute in H. discriminate H.
Qed.

(** C1, amended - homomorphism: for the key pair a call of [generateKeys]
    returned from two different primes (the modulus is not a square; the
    primality test accepts primes only) and non-negative votes [v1], [v2]
    whose sum is below [n] and is a safe integer, decrypting the homomorphic
    sum of their encryptions returns [v1 + v2]. *)
Theorem generateKeys_homomorphic_sum
  (isProbablyPrime : Z -> Z -> bool)
  (engine engine' this : HomomorphicEncryption.Engine) (w w' : World)
  (keys : HomomorphicEncryption.GeneratedKeys)
  (v1 v2 : Z) (w1 w1' w2 w2' : World)
  (e1 e2 : HomomorphicEncryption.EncryptedVote) :
  (forall c, isProbablyPrime c 15 = true -> Z.prime c) ->
  HomomorphicEncryption.generateKeys isProbablyPrime engine w
    = (Ret (keys, engine'), w') ->
  (forall r, HomomorphicEncryption.pk_n (HomomorphicEncryption.gk_publicKey keys)
             <> r * r) ->
  0 <= v1 -> 0 <= v2 ->
  v1 + v2 < HomomorphicEncryption.pk_n (HomomorphicEncryption.gk_publicKey keys) ->
  v1 + v2 <= MAX_SAFE_INTEGER ->
  HomomorphicEncryption.encrypt this v1
    (Some (HomomorphicEncryption.gk_publicKey keys)) w1 = (Ret e1, w1') ->
  HomomorphicEncryption.encrypt this v2
    (Some (HomomorphicEncryption.gk_publicKey keys)) w2 = (Ret e2, w2') ->
  (sum <~ HomomorphicEncryption.addEncrypted this
            [HomomorphicEncryption.VoteString (HomomorphicEncryption.ciphertext e1);
             HomomorphicEncryption.VoteString (HomomorphicEncryption.ciphertext e2)]
            (Some (HomomorphicEncryption.gk_publicKey keys)) ;;
   HomomorphicEncryption.decrypt this sum
     (Some (HomomorphicEncryption.gk_privateKey keys)))
  = Ret (Finite (v1 + v2)).
Proof.
  intros Hsound Hgen Hsquare Hv1 Hv2 Hlt Hsafe He1 He2.
  destruct (generateKeys_paillier isProbablyPrime engine engine' w w' keys
              Hsound Hgen Hsquare) as [Hpair _].
  exact (homomorphic_sum_decrypts this _ _ v1 v2 w1 w1' w2 w2' e1 e2
           Hpair Hv1 Hv2 Hlt Hsafe He1 He2).
Qed.

Lemma generateKeys_homomorphic_sum_witness :
  exists keys,
    fst (HomomorphicEncryption.generateKeys five_bit_prime
           (HomomorphicEncryption.mkEngine 10 None None None None) sample_world)
    = Ret (keys, sample_engine)
    /\ (sum <~ HomomorphicEncryption.addEncrypted sample_engine
                 [HomomorphicEncryption.VoteString "246415";
                  HomomorphicEncryption.VoteString "76280"]
                 (Some (HomomorphicEncryption.gk_publicKey keys)) ;;
        HomomorphicEncryption.decrypt sample_engine sum
          (Some (HomomorphicEncryption.gk_privateKey keys)))
       = Ret (Finite (3 + 4)).
Proof.
  pose (fresh := HomomorphicEncryption.mkEngine 10 None None None None).
  pose (run := HomomorphicEncryption.generateKeys five_bit_prime fresh sample_world).
  pose (keys := match fst run with
                | Ret (k, _) => k
                | Throw _ =>
                    HomomorphicEncryption.mkGeneratedKeys sample_publicKey
                      (HomomorphicEncryption.mkPrivateKey 0 0 0 0)
                      (HomomorphicEncryption.mkKeyShares None 0 0 0 0 0) 0 0
                end).
  assert (Hrun : run = (Ret (keys, sample_engine), snd run))
    by (vm_compute; reflexivity).
  assert (En : HomomorphicEncryption.pk_n (HomomorphicEncryption.gk_publicKey keys)
               = 551) by (vm_compute; reflexivity).
  pose (first := HomomorphicEncryption.encrypt sample_engine 3
                   (Some (HomomorphicEncryption.gk_publicKey keys)) sample_world).
  assert (H1 : first = (Ret (HomomorphicEncryption.mkEncryptedVote "246415" "530"),
                        snd first)) by (vm_compute; reflexivity).
  pose (second := HomomorphicEncryption.encrypt sample_engine 4
                    (Some (HomomorphicEncryption.gk_publicKey keys)) (snd first)).
  assert (H2 : second = (Ret (HomomorphicEncryption.mkEncryptedVote "76280" "333"),
                         snd second)) by (vm_compute; reflexivity).
  exists keys. split; [change (fst run = Ret (keys, sample_engine)); now rewrite Hrun|].
  apply (generateKeys_homomorphic_sum five_bit_prime fresh sample_engine
           sample_engine sample_world (snd run) keys 3 4
           sample_world (snd first) (snd first) (snd second)
           (HomomorphicEncryption.mkEncryptedVote "246415" "530")
           (HomomorphicEncryption.mkEncryptedVote "76280" "333")).
  - exact five_bit_prime_sound.
  - exact Hrun.
  - intros r Hr. rewrite En in Hr.
    assert (Hb : -24 < r < 24) by nia.
    assert (Hs : r * r <= 529) by nia. lia.
  - lia.
  - lia.
  - rewrite En. lia.
  - vm_compute. discriminate.
  - exact H1.
  - exact H2.
Defined.

(** ** Mixnets *)

Module MixnetFacts.
Import Mixnets.

Lemma length_list_set {A : Type} (l : list A) :
  forall i v, List.length (list_set l i v) = List.length l.
Proof.
  induction l as [|a l IH]; intros [|i] v; cbn [list_set List.length]; auto.
Qed.

Lemma nth_error_list_set {A : Type} (l : list A) :
  forall i k v, (i < List.length l)%nat ->
    nth_error (list_set l i v) k
    = if (k =? i)%nat then Some v else nth_error l k.
Proof.
  induction l as [|a l IH]; intros i k v Hi; [cbn in Hi; lia|].
  destruct i as [|i]; destruct k as [|k]; cbn [list_set nth_error Nat.eqb]; auto.
  apply IH. cbn in Hi. lia.
Qed.

(** Exchanging two entries permutes the list. *)
Lemma swap_perm (p : list Z) (i j : nat) :
  (i < List.length p)%nat -> (j < List.length p)%nat ->
  Permutation (swap p i j) p.
Proof.
  intros Hi Hj. unfold swap. apply Permutation_sym.
  apply Permutation_nth_error. split.
  - now rewrite !length_list_set.
  - exists (fun k => if (k =? i)%nat then j else if (k =? j)%nat then i else k).
    split.
    + intros a b.
      destruct (Nat.eqb_spec a i), (Nat.eqb_spec b i),
               (Nat.eqb_spec a j), (Nat.eqb_spec b j); lia.
    + intros k.
      rewrite nth_error_list_set by (rewrite length_list_set; exact Hj).
      destruct (Nat.eqb_spec k j) as [->|Hkj].
      * destruct (Nat.eqb_spec j i) as [->|_];
          symmetry; apply nth_error_nth'; assumption.
      * rewrite nth_error_list_set by exact Hi.
        destruct (Nat.eqb_spec k i) as [->|_]; [|reflexivity].
        symmetry. apply nth_error_nth'. exact Hj.
Qed.

Lemma fisher_yates_perm (i : nat) :
  forall p w p' w',
    (i < List.length p)%nat \/ i = O ->
    fisher_yates i p w = (Ret p', w') -> Permutation p' p.
Proof.
  induction i as [|i IH]; intros p w p' w' Hi H; cbn [fisher_yates] in H.
  - injection H as <- _. apply Permutation_refl.
  - unfold bind, Math_random_below in H.
    match type of H with
    | fisher_yates i (swap p (S i) ?j) ?w0 = _ =>
        assert (Hj : (j < List.length p)%nat);
        [|apply (IH _ w0) in H;
          [|left; unfold swap; rewrite !length_list_set; lia]]
    end.
    + pose proof (Z.mod_pos_bound (entropy w (drawn w)) (Z.of_nat (S (S i)))
                    ltac:(lia)) as Hb.
      destruct Hi as [Hi|Hi]; lia.
    + eapply Permutation_trans; [exact H|].
      apply swap_perm; [destruct Hi; lia|exact Hj].
Qed.

Lemma generatePermutation_perm (length : nat) (w w' : World) (p : list Z) :
  generatePermutation length w = (Ret p, w') ->
  Permutation p (map Z.of_nat (seq 0 length)).
Proof.
  unfold generatePermutation. intros H.
  apply fisher_yates_perm in H; [exact H|].
  rewrite length_map, length_seq. lia.
Qed.

Lemma map_nth_seq {A : Type} (d : A) (l : list A) :
  map (fun i => nth i l d) (seq 0 (List.length l)) = l.
Proof.
  induction l as [|a l IH]; [reflexivity|].
  cbn [List.length seq map nth]. f_equal.
  rewrite <- seq_shift, map_map. exact IH.
Qed.

(** Reading the votes through a permutation of their indices permutes them. *)
Lemma permuted_votes (votes : list JSValue) (p : list Z) :
  Permutation p (map Z.of_nat (seq 0 (List.length votes))) ->
  Permutation (map (fun j => nth (Z.to_nat j) votes JUndefined) p) votes.
Proof.
  intros Hp.
  apply (Permutation_map (fun j => nth (Z.to_nat j) votes JUndefined)) in Hp.
  rewrite map_map in Hp.
  rewrite (map_ext _ (fun i => nth i votes JUndefined)) in Hp
    by (intros i; now rewrite Nat2Z.id).
  now rewrite map_nth_seq in Hp.
Qed.

Lemma payload_set_field (key : string) (v : JSValue)
  (fields : list (string * JSValue)) :
  rewritten_key key = true ->
  filter (fun kv => negb (rewritten_key (fst kv))) (JS.set_field key v fields)
  = filter (fun kv => negb (rewritten_key (fst kv))) fields.
Proof.
  intros Hk. induction fields as [|[k old] fields IH]; cbn [JS.set_field filter fst].
  - now rewrite Hk.
  - destruct (String.eqb_spec k key) as [->|Hne]; cbn [filter fst].
    + now rewrite Hk.
    + now rewrite IH.
Qed.

Lemma lookup_set_field_same (key : string) (v : JSValue)
  (fields : list (string * JSValue)) :
  JS.lookup key (JS.set_field key v fields) = v.
Proof.
  induction fields as [|[k old] fields IH]; cbn [JS.set_field JS.lookup].
  - now rewrite String.eqb_refl.
  - destruct (String.eqb_spec k key) as [->|Hne]; cbn [JS.lookup].
    + now rewrite String.eqb_refl.
    + apply String.eqb_neq in Hne. now rewrite Hne.
Qed.

Lemma lookup_set_field_other (key key' : string) (v : JSValue)
  (fields : list (string * JSValue)) :
  key <> key' ->
  JS.lookup key (JS.set_field key' v fields) = JS.lookup key fields.
Proof.
  intros Hne. induction fields as [|[k old] fields IH]; cbn [JS.set_field JS.lookup].
  - apply not_eq_sym, String.eqb_neq in Hne. now rewrite Hne.
  - destruct (String.eqb_spec k key') as [->|Hk]; cbn [JS.lookup].
    + apply not_eq_sym, String.eqb_neq in Hne. now rewrite Hne.
    + now rewrite IH.
Qed.

Lemma length_hex_of_bytes (bytes : list Z) :
  String.length (hex_of_bytes bytes) = (2 * List.length bytes)%nat.
Proof.
  induction bytes as [|b bytes IH]; [reflexivity|].
  cbn [hex_of_bytes String.length List.length]. rewrite IH. lia.
Qed.

Lemma length_digest (msg : list Z) : List.length (Sha256.digest msg) = 32%nat.
Proof.
  unfold Sha256.digest. cbn [flat_map].
  rewrite !length_app. unfold Sha256.be_bytes.
  rewrite !length_map, !length_seq. reflexivity.
Qed.

Lemma length_sha256_hex (data : string) : String.length (sha256_hex data) = 64%nat.
Proof. unfold sha256_hex. now rewrite length_hex_of_bytes, length_digest. Qed.

(** What one re-randomisation does to a vote: the payload is kept, the
    ciphertext becomes the hash of the old one and a fresh random string. *)
Lemma rerandomize_inv (vote vote' : JSValue) (w w' : World) :
  rerandomize vote w = (Ret vote', w') ->
  payload vote' = payload vote
  /\ exists old randomFactor,
       JS.get_ciphertext vote = Ret old
       /\ ciphertext_string vote'
          = Some (sha256_hex (JS.ToString old ++ randomFactor)).
Proof.
  unfold rerandomize. intros H.
  unfold bind at 1 in H.
  destruct (randomBytes 32 w) as [[bytes|e] w1]; [|discriminate].
  unfold bind at 1 in H. unfold lift in H.
  destruct (JS.get_ciphertext vote) as [old|e]; [|discriminate].
  unfold bind, Date_now, ret in H. injection H as <- _.
  split.
  - unfold payload. cbn [JS.spread].
    rewrite !payload_set_field by reflexivity. reflexivity.
  - exists old, (hex_of_bytes bytes). split; [reflexivity|].
    unfold ciphertext_string.
    rewrite !lookup_set_field_other by discriminate.
    now rewrite lookup_set_field_same.
Qed.





End MixnetFacts.

(** The ciphertext a round writes: the digest of the old one and of the
    random bytes drawn for it. *)
Module RehashFacts.
Import Mixnets.





End RehashFacts.




(** [verifyShuffleProof] answers by the lengths alone. *)
Lemma verifyShuffleProof_spec (proof : Mixnets.ShuffleProof)
  (originalVotes shuffledVotes : list JSValue) :
  Mixnets.isValid (Mixnets.verifyShuffleProof proof originalVotes shuffledVotes)
  = (List.length originalVotes =? List.length shuffledVotes)%nat.
Proof.
  unfold Mixnets.verifyShuffleProof.
  destruct (List.length originalVotes =? List.length shuffledVotes)%nat;
    reflexivity.
Qed.

(** C7 - the code at the failing input: a proof whose commitment is not the
    one recomputed from the two lists (nor the one [generateShuffleProof]
    would embed for any permutation of one vote) is declared valid. *)
Theorem verifyShuffleProof_accepts_wrong_commitment :
  let proof := Mixnets.mkShuffleProof 0 "00" 0 "mix-node-0" true in
  sha256_hex
    (JS.JSON_stringify
       (JObject [("originalVotes", JArray [sample_vote]);
                 ("shuffledVotes", JArray [sample_vote])]%string))
  <> Mixnets.sp_commitment proof
  /\ Mixnets.verifyShuffleProof proof [sample_vote] [sample_vote]
     = Mixnets.mkShuffleVerdict true None (Some "00"%string) (Some true).
Proof.
  split; [|reflexivity].
  intros E. apply (f_equal String.length) in E.
  rewrite MixnetFacts.length_sha256_hex in E. discriminate E.
Qed.

(** ** ZeroKnowledgeProof.verifyProof *)

Module SigmaFacts.
Import ZeroKnowledgeProof.

(** A branch that is not tagged [real] is accepted exactly when it is well
    formed; the commitment plays no part. *)
Lemma verifySigmaProof_simulated (sigmaProof : SigmaProof) (commitment : Commitment) :
  sp_type sigmaProof <> "real"%string ->
  verifySigmaProof sigmaProof commitment = well_formed_simulated sigmaProof.
Proof.
  intros Htype. unfold verifySigmaProof, verifySigmaProof_try, well_formed_simulated.
  apply String.eqb_neq in Htype. rewrite Htype.
  destruct (Secp256k1.fromHex (sp_a sigmaProof)) as [a|e]; [|reflexivity].
  cbn [obind].
  destruct (BigInt (hex_literal (sp_c sigmaProof))) as [c|e]; [|reflexivity].
  cbn [obind].
  destruct (BigInt ("0x" ++ sp_z sigmaProof)) as [z|e]; reflexivity.
Qed.

Lemma first_invalid_none (proofs : list SigmaProof) (commitment : Commitment) :
  first_invalid proofs commitment = None
  <-> forall p, In p proofs -> verifySigmaProof p commitment = true.
Proof.
  induction proofs as [|p proofs IH]; cbn [first_invalid].
  - split; [intros _ p []|reflexivity].
  - destruct (verifySigmaProof p commitment) eqn:Hp; cbn [negb].
    + rewrite IH. split.
      * intros H q [<-|Hq]; [exact Hp|now apply H].
      * intros H q Hq. apply H. now right.
    + split; [discriminate|]. intros H.
      specialize (H p (or_introl eq_refl)). congruence.
Qed.

(** [verifyProof] in one formula. *)
Lemma verifyProof_valid {A : Type} (proof : ProofBundle) (commitment : Commitment)
  (candidates : list A) :
  isValid (verifyProof proof commitment candidates) = true
  <-> List.length (proofs proof) = List.length candidates
      /\ (forall p, In p (proofs proof) -> verifySigmaProof p commitment = true)
      /\ generateChallenge (proofs proof) = challenge proof.
Proof.
  unfold verifyProof.
  destruct (Nat.eqb_spec (List.length (proofs proof)) (List.length candidates))
    as [Hlen|Hlen]; cbn [negb].
  2:{ cbn. split; [discriminate|]. intros (H & _). contradiction. }
  destruct (first_invalid (proofs proof) commitment) as [bad|] eqn:Hfirst.
  - cbn. split; [discriminate|]. intros (_ & Hall & _).
    pose proof (proj2 (first_invalid_none _ _) Hall). congruence.
  - pose proof (proj1 (first_invalid_none _ _) Hfirst) as Hall.
    destruct (String.eqb_spec (generateChallenge (proofs proof)) (challenge proof))
      as [Hc|Hc]; cbn.
    + split; auto.
    + split; [discriminate|]. intros (_ & _ & H). contradiction.
Qed.

End SigmaFacts.

(** C6, as worded, fails: a one-candidate bundle whose only branch is
    simulated with [a = G], [c = 1], [z = 1] against the commitment [C = G]
    violates [g^z = a * C^c] (that is, [G = 2G]) and is declared valid. *)
Lemma verifyProof_simulated_counterexample :
  ~ (forall (proof : ZeroKnowledgeProof.ProofBundle)
            (commitment : ZeroKnowledgeProof.Commitment)
            (candidates : list string)
            (sigmaProof : ZeroKnowledgeProof.SigmaProof),
        In sigmaProof (ZeroKnowledgeProof.proofs proof) ->
        ZeroKnowledgeProof.sp_type sigmaProof = "simulated"%string ->
        or_relation sigmaProof commitment = Ret false ->
        ZeroKnowledgeProof.isValid
          (ZeroKnowledgeProof.verifyProof proof commitment candidates) = false).
Proof.
  intros claim.
  specialize (claim forged_bundle forged_commitment ["Alice"%string] forged_branch).
  assert (Hvalid : ZeroKnowledgeProof.isValid
                     (ZeroKnowledgeProof.verifyProof forged_bundle
                        forged_commitment ["Alice"%string]) = true)
    by (vm_compute; reflexivity).
  rewrite claim in Hvalid; [discriminate| | |].
  - now left.
  - reflexivity.
  - vm_compute. reflexivity.
Qed.

(** C6, amended - a simulated branch is only checked for being well formed
    (its first message decodes to a curve point, its [c] and [z] are
    hexadecimal); no relation between [a], [c], [z] and the commitment is
    checked, and a simulated branch that is not well formed makes
    [verifyProof] return [isValid: false]. *)
Theorem verifyProof_simulated_branches
  (proof : ZeroKnowledgeProof.ProofBundle)
  (commitment : ZeroKnowledgeProof.Commitment)
  (candidates : list string)
  (sigmaProof : ZeroKnowledgeProof.SigmaProof) :
  In sigmaProof (ZeroKnowledgeProof.proofs proof) ->
  ZeroKnowledgeProof.sp_type sigmaProof <> "real"%string ->
  ZeroKnowledgeProof.verifySigmaProof sigmaProof commitment
  = well_formed_simulated sigmaProof
  /\ (well_formed_simulated sigmaProof = false ->
      ZeroKnowledgeProof.isValid
        (ZeroKnowledgeProof.verifyProof proof commitment candidates) = false).
Proof.
  intros Hin Htype.
  pose proof (SigmaFacts.verifySigmaProof_simulated sigmaProof commitment Htype)
    as Hsim.
  split; [exact Hsim|]. intros Hbad.
  destruct (ZeroKnowledgeProof.isValid
              (ZeroKnowledgeProof.verifyProof proof commitment candidates))
    eqn:Hv; [|reflexivity].
  destruct (proj1 (SigmaFacts.verifyProof_valid _ _ _) Hv) as (_ & Hall & _).
  specialize (Hall sigmaProof Hin). congruence.
Qed.

Lemma verifyProof_simulated_branches_witness :
  ZeroKnowledgeProof.verifySigmaProof forged_branch forged_commitment
  = well_formed_simulated forged_branch
  /\ (well_formed_simulated forged_branch = false ->
      ZeroKnowledgeProof.isValid
        (ZeroKnowledgeProof.verifyProof forged_bundle forged_commitment
           ["Alice"%string]) = false).
Proof.
  apply (verifyProof_simulated_branches forged_bundle forged_commitment
           ["Alice"%string] forged_branch).
  - now left.
  - discriminate.
Defined.

(** ** Nullifiers *)

Module NullifierFacts.
Import ZeroKnowledgeProof.

(** The nullifier value [generateNullifier] returns belongs to the string
    that ends with the clock reading. *)
Lemma generateNullifier_inv (userId electionId randomness : string)
  (w w' : World) (result : Nullifier) :
  generateNullifier userId electionId randomness w = (Ret result, w') ->
  nullifier_of_input
    (nullifier_input userId electionId randomness (clock w (reads w)))
  = Ret (nullifier result)
  /\ randomnessUsed (proof result) = randomness.
Proof.
  unfold generateNullifier, nullifier_of_input, point_hex. intros H.
  unfold bind at 1 in H. unfold Date_now at 1 in H.
  set (input := nullifier_input userId electionId randomness (clock w (reads w)))
    in *.
  unfold bind at 1 in H. unfold lift at 1 in H.
  destruct (scalar_of_hex (sha256_hex input)) as [scalar|e]; [|discriminate].
  cbn [obind].
  unfold bind at 1 in H. unfold lift at 1 in H.
  destruct (Secp256k1.multiply Secp256k1.BASE scalar) as [point|e]; [|discriminate].
  cbn [obind].
  unfold bind at 1 in H. unfold lift at 1 in H.
  destruct (Secp256k1.toHex point false) as [hex|e]; [|discriminate].
  unfold bind at 1 in H.
  destruct (generateNullifierProof scalar randomness _) as [[np|e] w1] eqn:Hnp;
    [|discriminate].
  unfold ret in H. injection H as <- _. cbn [nullifier proof].
  split; [reflexivity|].
  unfold generateNullifierProof in Hnp. unfold bind at 1 in Hnp.
  destruct (randomBytes 32 _) as [[r|e] w2] in Hnp; [|discriminate].
  unfold bind at 1 in Hnp. unfold lift at 1 in Hnp.
  destruct (scalar_of_hex (hex_of_bytes r)) as [rScalar|e] in Hnp; [|discriminate].
  unfold bind, lift in Hnp.
  destruct (scalar_of_hex (sha256_hex randomness)) as [rs|e] in Hnp; [|discriminate].
  unfold ret in Hnp. injection Hnp as <- _. reflexivity.
Qed.

Lemma verifyNullifierProof_spec (nullifierData : Nullifier)
  (userId electionId : string) :
  verifyNullifierProof nullifierData userId electionId = true
  <-> nullifier_of_input
        (expected_input userId electionId (randomnessUsed (proof nullifierData)))
      = Ret (nullifier nullifierData).
Proof.
  unfold verifyNullifierProof, verifyNullifierProof_try, nullifier_of_input,
    point_hex.
  destruct (scalar_of_hex _) as [s|e]; cbn [obind]; [|split; discriminate].
  destruct (Secp256k1.multiply Secp256k1.BASE s) as [point|e]; cbn [obind];
    [|split; discriminate].
  destruct (Secp256k1.toHex point false) as [hex|e]; cbn [obind];
    [|split; discriminate].
  destruct (String.eqb_spec hex (nullifier nullifierData)) as [->|Hne].
  - split; reflexivity.
  - split; [discriminate|]. intros [= E]. contradiction.
Qed.

End NullifierFacts.

(** C5, as worded, fails: two calls with one and the same triple, made at
    different readings of the clock, return different nullifier values. *)
Lemma generateNullifier_timestamp_counterexample :
  ~ (forall (userId electionId randomness : string) (w1 w1' w2 w2' : World)
            (n1 n2 : ZeroKnowledgeProof.Nullifier),
        ZeroKnowledgeProof.generateNullifier userId electionId randomness w1
          = (Ret n1, w1') ->
        ZeroKnowledgeProof.generateNullifier userId electionId randomness w2
          = (Ret n2, w2') ->
        ZeroKnowledgeProof.nullifier n1 = ZeroKnowledgeProof.nullifier n2).
Proof.
  intros claim.
  pose (first := ZeroKnowledgeProof.generateNullifier "42" "election-1" "530"
                   sample_world).
  pose (second := ZeroKnowledgeProof.generateNullifier "42" "election-1" "530"
                    (snd first)).
  pose (dummy := ZeroKnowledgeProof.mkNullifier ""
                   (ZeroKnowledgeProof.mkNullifierProof "" "" "")).
  pose (n1 := match fst first with Ret n => n | Throw _ => dummy end).
  pose (n2 := match fst second with Ret n => n | Throw _ => dummy end).
  assert (H1 : first = (Ret n1, snd first)) by (vm_compute; reflexivity).
  assert (H2 : second = (Ret n2, snd second)) by (vm_compute; reflexivity).
  pose proof (claim _ _ _ _ _ _ _ _ _ H1 H2) as E.
  assert (Hne : String.eqb (ZeroKnowledgeProof.nullifier n1)
                  (ZeroKnowledgeProof.nullifier n2) = false)
    by (vm_compute; reflexivity).
  rewrite E, String.eqb_refl in Hne. discriminate Hne.
Qed.

(** C5, amended - the nullifier value is a function of the triple and of
    the clock reading: two calls with the same triple that read the same
    timestamp return the same nullifier value. *)
Theorem generateNullifier_deterministic_per_timestamp
  (userId electionId randomness : string) (w1 w1' w2 w2' : World)
  (n1 n2 : ZeroKnowledgeProof.Nullifier) :
  clock w1 (reads w1) = clock w2 (reads w2) ->
  ZeroKnowledgeProof.generateNullifier userId electionId randomness w1
    = (Ret n1, w1') ->
  ZeroKnowledgeProof.generateNullifier userId electionId randomness w2
    = (Ret n2, w2') ->
  ZeroKnowledgeProof.nullifier n1 = ZeroKnowledgeProof.nullifier n2.
Proof.
  intros Hclock H1 H2.
  apply NullifierFacts.generateNullifier_inv in H1 as [H1 _].
  apply NullifierFacts.generateNullifier_inv in H2 as [H2 _].
  rewrite Hclock in H1. rewrite H1 in H2. now injection H2.
Qed.

(** ** ZeroKnowledgeProof.verifyNullifierProof *)

Module ScalarFacts.
Import ZeroKnowledgeProof.

(** The scalar both functions derive from a string is its SHA-256 digest,
    read as a big-endian integer and reduced modulo the curve order. *)
Lemma scalar_of_sha256 (input : string) :
  scalar_of_hex (sha256_hex input) = Ret (sha256_int input mod Secp256k1.n)%Z.
Proof.
  unfold scalar_of_hex, sha256_hex, sha256_int.
  set (bytes := Sha256.digest (string_bytes input)).
  assert (Hbytes : Forall (fun b => 0 <= b < 256)%Z bytes) by apply digest_bytes.
  assert (Hne : bytes <> []).
  { intros E. pose proof (MixnetFacts.length_digest (string_bytes input)) as Hl.
    fold bytes in Hl. rewrite E in Hl. discriminate Hl. }
  rewrite (BigInt_hex_of_bytes bytes Hbytes Hne). cbn [obind].
  f_equal. apply Z.rem_mod_nonneg; [|reflexivity].
  apply EncryptFacts.bytes_to_bigint_nonneg.
  apply (Forall_impl _ (P := fun b => 0 <= b < 256)%Z); [|exact Hbytes].
  intros b Hb. apply Hb.
Qed.

Lemma nullifier_input_expected (userId electionId randomness : string) (now : Z) :
  nullifier_input userId electionId randomness now
  = (expected_input userId electionId randomness ++ ":" ++ toString now)%string.
Proof.
  unfold nullifier_input, expected_input.
  rewrite !append_assoc. reflexivity.
Qed.

Lemma nullifier_of_input_scalar (input : string) :
  nullifier_of_input input = point_hex (sha256_int input mod Secp256k1.n)%Z.
Proof. unfold nullifier_of_input. now rewrite scalar_of_sha256. Qed.

End ScalarFacts.

(** C10 - [verifyNullifierProof(nullifierData, userId, electionId)] returns
    [true] exactly when [nullifierData.nullifier] is the hexadecimal encoding
    of [g^s], for [s] the SHA-256 digest of
    [userId:electionId:randomnessUsed] reduced modulo the curve order, with
    [randomnessUsed] read from [nullifierData.proof]; the result does not
    depend on the [commitment] and [response] fields of the companion proof;
    and the string [generateNullifier] hashes is that same pre-image followed
    by [:] and the timestamp, which the verifier leaves out. *)
Theorem verifyNullifierProof_characterisation
  (nullifierData : ZeroKnowledgeProof.Nullifier) (userId electionId : string) :
  (ZeroKnowledgeProof.verifyNullifierProof nullifierData userId electionId = true
   <-> point_hex
         (sha256_int
            (ZeroKnowledgeProof.expected_input userId electionId
               (ZeroKnowledgeProof.randomnessUsed
                  (ZeroKnowledgeProof.proof nullifierData)))
          mod Secp256k1.n)
       = Ret (ZeroKnowledgeProof.nullifier nullifierData))
  /\ (forall commitment' response' : string,
        ZeroKnowledgeProof.verifyNullifierProof
          (ZeroKnowledgeProof.mkNullifier
             (ZeroKnowledgeProof.nullifier nullifierData)
             (ZeroKnowledgeProof.mkNullifierProof commitment' response'
                (ZeroKnowledgeProof.randomnessUsed
                   (ZeroKnowledgeProof.proof nullifierData))))
          userId electionId
        = ZeroKnowledgeProof.verifyNullifierProof nullifierData userId electionId)
  /\ (forall (randomness : string) (w w' : World)
             (generated : ZeroKnowledgeProof.Nullifier),
        ZeroKnowledgeProof.generateNullifier userId electionId randomness w
          = (Ret generated, w') ->
        ZeroKnowledgeProof.randomnessUsed (ZeroKnowledgeProof.proof generated)
          = randomness
        /\ point_hex
             (sha256_int
                (ZeroKnowledgeProof.expected_input userId electionId randomness
                 ++ ":" ++ toString (clock w (reads w)))%string
              mod Secp256k1.n)
           = Ret (ZeroKnowledgeProof.nullifier generated)).
Proof.
  split; [|split].
  - rewrite <- ScalarFacts.nullifier_of_input_scalar.
    apply NullifierFacts.verifyNullifierProof_spec.
  - intros commitment' response'. reflexivity.
  - intros randomness w w' generated H.
    apply NullifierFacts.generateNullifier_inv in H as [Hvalue Hused].
    split; [exact Hused|].
    rewrite <- ScalarFacts.nullifier_of_input_scalar,
      <- ScalarFacts.nullifier_input_expected.
    exact Hvalue.
Qed.

Lemma verifyNullifierProof_characterisation_witness :
  exists generated : ZeroKnowledgeProof.Nullifier,
    ZeroKnowledgeProof.generateNullifier "42" "election-1" "530" sample_world
      = (Ret generated,
         snd (ZeroKnowledgeProof.generateNullifier "42" "election-1" "530"
                sample_world))
    /\ ZeroKnowledgeProof.randomnessUsed (ZeroKnowledgeProof.proof generated)
       = "530"%string
    /\ point_hex
         (sha256_int
            (ZeroKnowledgeProof.expected_input "42" "election-1" "530"
             ++ ":" ++ toString (clock sample_world (reads sample_world)))%string
          mod Secp256k1.n)
       = Ret (ZeroKnowledgeProof.nullifier generated)
    /\ ZeroKnowledgeProof.verifyNullifierProof generated "42" "election-1" = false.
Proof.
  pose (run := ZeroKnowledgeProof.generateNullifier "42" "election-1" "530"
                 sample_world).
  pose (dummy := ZeroKnowledgeProof.mkNullifier ""
                   (ZeroKnowledgeProof.mkNullifierProof "" "" "")).
  pose (generated := match fst run with Ret n => n | Throw _ => dummy end).
  assert (Hrun : run = (Ret generated, snd run)) by (vm_compute; reflexivity).
  exists generated. split; [exact Hrun|].
  split; [|split].
  - apply (proj2 (proj2 (verifyNullifierProof_characterisation generated
                           "42" "election-1")) "530"%string sample_world
             (snd run) generated Hrun).
  - apply (proj2 (proj2 (verifyNullifierProof_characterisation generated
                           "42" "election-1")) "530"%string sample_world
             (snd run) generated Hrun).
  - vm_compute. reflexivity.
Defined.

Lemma generateNullifier_deterministic_per_timestamp_witness :
  exists n1 n2 : ZeroKnowledgeProof.Nullifier,
    ZeroKnowledgeProof.generateNullifier "42" "election-1" "530" sample_world
      = (Ret n1,
         snd (ZeroKnowledgeProof.generateNullifier "42" "election-1" "530"
                sample_world))
    /\ ZeroKnowledgeProof.generateNullifier "42" "election-1" "530"
         (mkWorld (entropy sample_world) 32 (clock sample_world) 0)
       = (Ret n2,
          snd (ZeroKnowledgeProof.generateNullifier "42" "election-1" "530"
                 (mkWorld (entropy sample_world) 32 (clock sample_world) 0)))
    /\ ZeroKnowledgeProof.np_commitment (ZeroKnowledgeProof.proof n1)
       <> ZeroKnowledgeProof.np_commitment (ZeroKnowledgeProof.proof n2)
    /\ ZeroKnowledgeProof.nullifier n1 = ZeroKnowledgeProof.nullifier n2.
Proof.
  pose (later := mkWorld (entropy sample_world) 32 (clock sample_world) 0).
  pose (first := ZeroKnowledgeProof.generateNullifier "42" "election-1" "530"
                   sample_world).
  pose (second := ZeroKnowledgeProof.generateNullifier "42" "election-1" "530"
                    later).
  pose (dummy := ZeroKnowledgeProof.mkNullifier ""
                   (ZeroKnowledgeProof.mkNullifierProof "" "" "")).
  pose (n1 := match fst first with Ret n => n | Throw _ => dummy end).
  pose (n2 := match fst second with Ret n => n | Throw _ => dummy end).
  assert (H1 : first = (Ret n1, snd first)) by (vm_compute; reflexivity).
  assert (H2 : second = (Ret n2, snd second)) by (vm_compute; reflexivity).
  exists n1, n2. split; [exact H1|]. split; [exact H2|]. split.
  - intros E.
    assert (Hne : String.eqb
                    (ZeroKnowledgeProof.np_commitment (ZeroKnowledgeProof.proof n1))
                    (ZeroKnowledgeProof.np_commitment (ZeroKnowledgeProof.proof n2))
                  = false) by (vm_compute; reflexivity).
    rewrite E, String.eqb_refl in Hne. discriminate Hne.
  - apply (generateNullifier_deterministic_per_timestamp "42" "election-1" "530"
             sample_world (snd first) later (snd second) n1 n2);
      [reflexivity|exact H1|exact H2].
Defined.

(** ** Paillier: any number of votes, any integer vote *)

Section PaillierClasses.
Import HomomorphicEncryption.

Variable n : Z.
Hypothesis n_big : 1 < n.

(** Powers of [g = n + 1] depend on the exponent modulo [n] only. *)
Lemma g_pow_mod (e : Z) :
  0 <= e ->
  ((1 + 1 * n) ^ e) mod (n * n) = ((1 + 1 * n) ^ (e mod n)) mod (n * n).
Proof.
  intros He. pose proof (Z.mod_pos_bound e n ltac:(lia)) as Hb.
  rewrite !one_plus_pow by lia. rewrite !one_plus_mod by lia.
  rewrite !Z.mul_1_r, Z.mod_mod by lia. reflexivity.
Qed.

Lemma g_pow_multiple (t : Z) :
  0 <= t -> ((1 + 1 * n) ^ (n * t)) mod (n * n) = 1.
Proof.
  intros Ht. rewrite one_plus_pow by nia. rewrite one_plus_mod by lia.
  replace (n * t * 1) with (t * n) by ring.
  rewrite Z.mod_mul by lia. ring.
Qed.

(** The class of a product of two ciphertexts. *)
Lemma class_mul (c1 c2 M1 M2 R1 R2 : Z) :
  0 <= M1 -> 0 <= M2 ->
  c1 mod (n * n) = ((1 + 1 * n) ^ M1 * R1 ^ n) mod (n * n) ->
  c2 mod (n * n) = ((1 + 1 * n) ^ M2 * R2 ^ n) mod (n * n) ->
  (c1 * c2) mod (n * n)
  = ((1 + 1 * n) ^ ((M1 + M2) mod n) * (R1 * R2) ^ n) mod (n * n).
Proof.
  intros H1 H2 E1 E2.
  assert (HN : 0 < n * n) by nia.
  rewrite Z.mul_mod, E1, E2, <- Z.mul_mod by lia.
  rewrite <- (Z.mul_mod_idemp_l (_ ^ ((M1 + M2) mod n))) by lia.
  rewrite <- g_pow_mod by lia.
  rewrite Z.mul_mod_idemp_l by lia.
  f_equal. rewrite Z.pow_add_r, Z.pow_mul_l by lia. ring.
Qed.

Lemma gcd_mul_units (a b : Z) :
  Z.gcd a n = 1 -> Z.gcd b n = 1 -> Z.gcd (a * b) n = 1.
Proof.
  intros Ha Hb. now apply Z.coprime_mul_l.
Qed.

Variable this : Engine.
Variable pk : PublicKey.
Hypothesis pk_shape : pk = mkPublicKey n (n + 1) (n * n).

(** Whatever the sign of the vote, the ciphertext [encrypt] returns lies in
    the class of [g^(v mod n)]. *)
Lemma encrypt_class (v : Z) (w w' : World) (e : EncryptedVote) :
  encrypt this v (Some pk) w = (Ret e, w') ->
  exists r c,
    ciphertext e = toString c /\ 0 <= c < n * n /\ Z.gcd r n = 1
    /\ c mod (n * n) = ((1 + 1 * n) ^ (v mod n) * r ^ n) mod (n * n).
Proof.
  intros H.
  assert (Hnsq : pk_nsq pk = pk_n pk * pk_n pk) by (rewrite pk_shape; reflexivity).
  pose proof (EncryptFacts.encrypt_inv this v (Some pk) pk w w' e eq_refl Hnsq H)
    as (r & c & _ & Ec & _ & _ & Hg & Hc & Hpos & Hneg).
  rewrite pk_shape in Hg, Hc, Hpos, Hneg.
  cbn [pk_n pk_g] in Hg, Hc, Hpos, Hneg.
  replace (n + 1) with (1 + 1 * n) in Hpos, Hneg by ring.
  assert (HN : 0 < n * n) by nia.
  pose proof (Z.mod_pos_bound v n ltac:(lia)) as Hb.
  exists r, c. repeat split; try assumption; try lia.
  destruct (Z_lt_le_dec v 0) as [Hv|Hv].
  - specialize (Hneg Hv).
    assert (He : v mod n + - v = n * (- (v / n)))
      by (rewrite (Z.div_mod v n) at 2 by lia; ring).
    assert (Ht : 0 <= - (v / n)).
    { assert (v / n < 0) by (apply Z.div_lt_upper_bound; lia). lia. }
    rewrite <- Z.mul_mod_idemp_r, <- Hneg, Z.mul_mod_idemp_r by lia.
    replace ((1 + 1 * n) ^ (v mod n) * (c * (1 + 1 * n) ^ (- v)))
      with (c * ((1 + 1 * n) ^ (v mod n) * (1 + 1 * n) ^ (- v))) by ring.
    rewrite <- Z.pow_add_r, He by lia.
    rewrite <- Z.mul_mod_idemp_r, g_pow_multiple, Z.mul_1_r by lia.
    reflexivity.
  - rewrite (Hpos Hv), Z.mod_mod by lia.
    rewrite <- Z.mul_mod_idemp_l, g_pow_mod, Z.mul_mod_idemp_l by lia.
    reflexivity.
Qed.

(** [addEncrypted] over encryptions: the running product stays in
    [[0, n^2)] and in the class of the running sum. *)
Lemma addEncrypted_loop_class (votes : list Z) (refs : list VoteRef) :
  Forall2 (encrypts this pk) votes refs ->
  forall acc A R,
    0 <= acc < n * n -> 0 <= A -> Z.gcd R n = 1 ->
    acc mod (n * n) = ((1 + 1 * n) ^ A * R ^ n) mod (n * n) ->
    exists res R',
      addEncrypted_loop refs (n * n) acc = Ret res
      /\ 0 <= res < n * n /\ Z.gcd R' n = 1
      /\ res mod (n * n)
         = ((1 + 1 * n) ^ ((A + zsum votes) mod n) * R' ^ n) mod (n * n).
Proof.
  assert (HN : 0 < n * n) by nia.
  induction 1 as [|v ref votes refs Hv _ IH]; intros acc A R Hacc HA HR Eacc.
  - exists acc, R. cbn [addEncrypted_loop zsum fold_right].
    repeat split; try assumption; try lia.
    rewrite Z.add_0_r, Eacc.
    rewrite <- Z.mul_mod_idemp_l, g_pow_mod, Z.mul_mod_idemp_l by lia.
    reflexivity.
  - destruct Hv as (w & w' & e & He & Href).
    apply encrypt_class in He as (r & c & Ec & Hc & Hr & Eclass).
    cbn [addEncrypted_loop]. rewrite Href. cbn [obind].
    rewrite Ec, BigInt_toString. cbn [obind].
    unfold bigint_rem.
    destruct (n * n =? 0) eqn:E0; [apply Z.eqb_eq in E0; lia|]. cbn [obind].
    pose proof (Z.mod_pos_bound v n ltac:(lia)) as Hvb.
    pose proof (Z.mod_pos_bound (acc * c) (n * n) HN) as Hb.
    rewrite rem_nonneg_mod by nia.
    destruct (IH ((acc * c) mod (n * n)) ((A + v mod n) mod n) (R * r))
      as (res & R' & Hrun & Hres & HR' & Eres).
    + exact Hb.
    + apply Z.mod_pos_bound; lia.
    + now apply gcd_mul_units.
    + rewrite Z.mod_mod by lia. apply class_mul; assumption || lia.
    + exists res, R'. repeat split; try assumption; try lia.
      rewrite Eres. f_equal. f_equal. f_equal.
      cbn [zsum fold_right]. fold (zsum votes).
      rewrite Z.add_mod_idemp_l by lia.
      replace (A + v mod n + zsum votes) with (v mod n + (A + zsum votes))
        by ring.
      rewrite Z.add_mod_idemp_l by lia. f_equal. ring.
Qed.

End PaillierClasses.

Section PaillierPlaintexts.
Import HomomorphicEncryption.

Variable this : Engine.
Variables (pk : PublicKey) (sk : PrivateKey).
Hypothesis keys : paillier_key_pair pk sk.

Lemma paillier_modulus : 1 < pk_n pk.
Proof.
  destruct keys as (p & q & Hp & Hq & Hpq & Hkeys).
  apply (derive_keys_inv p q Hp Hq Hpq) in Hkeys as (-> & _).
  cbn [pk_n]. now apply n_gt_1.
Qed.

Lemma paillier_public_shape :
  pk = mkPublicKey (pk_n pk) (pk_n pk + 1) (pk_n pk * pk_n pk).
Proof.
  destruct keys as (p & q & Hp & Hq & Hpq & Hkeys).
  apply (derive_keys_inv p q Hp Hq Hpq) in Hkeys as (-> & _). reflexivity.
Qed.

(** Decryption reads the exponent of [g] off the class of a ciphertext. *)
Lemma decrypt_class (c M R : Z) :
  0 <= M < pk_n pk -> M <= MAX_SAFE_INTEGER -> Z.gcd R (pk_n pk) = 1 ->
  c mod (pk_n pk * pk_n pk)
  = ((1 + 1 * pk_n pk) ^ M * R ^ pk_n pk) mod (pk_n pk * pk_n pk) ->
  forall arg, default_to arg (privateKey this) = Some sk ->
  decrypt this (toString c) arg = Ret (Finite M).
Proof.
  intros HM Hsafe HR Hc arg Harg.
  destruct keys as (p & q & Hp & Hq & Hpq & Hkeys).
  apply (derive_keys_inv p q Hp Hq Hpq) in Hkeys
    as (Epk & lam & mu & Esk & Hlam & Dp & Dq & Hmu & Hone).
  rewrite Epk in HM, HR, Hc. cbn [pk_n] in HM, HR, Hc.
  unfold decrypt. rewrite Harg, BigInt_toString. cbn [obind].
  rewrite Esk. cbn [sk_lambda sk_mu sk_n sk_nsq].
  pose proof (decrypt_arithmetic p q Hp Hq Hpq lam mu Hlam Dp Dq Hone
                ltac:(lia) c M R HM HR Hc) as Hd.
  destruct (modPow c lam (p * q * (p * q))) as [cl|e]; [|discriminate].
  cbn [obind] in Hd |- *.
  destruct (L cl (p * q)) as [l|e]; [|discriminate].
  cbn [obind] in Hd |- *. rewrite Hd. cbn [obind].
  f_equal. apply Number_small. lia.
Qed.

End PaillierPlaintexts.

(** Decrypting what [encrypt] returned gives the vote back, reduced into
    [[0, n)]: a vote in that range is recovered exactly, and any other
    integer vote, a negative one included, comes back as its residue
    modulo [n]. *)
Theorem decrypt_encrypt_round_trip
  (this : HomomorphicEncryption.Engine)
  (pk : HomomorphicEncryption.PublicKey) (sk : HomomorphicEncryption.PrivateKey)
  (v : Z) (w w' : World) (e : HomomorphicEncryption.EncryptedVote) :
  paillier_key_pair pk sk ->
  v mod HomomorphicEncryption.pk_n pk <= MAX_SAFE_INTEGER ->
  HomomorphicEncryption.encrypt this v (Some pk) w = (Ret e, w') ->
  HomomorphicEncryption.decrypt this (HomomorphicEncryption.ciphertext e) (Some sk)
  = Ret (Finite (v mod HomomorphicEncryption.pk_n pk)).
Proof.
  intros Hkeys Hsafe He.
  pose proof (paillier_modulus pk sk Hkeys) as Hn.
  pose proof (paillier_public_shape pk sk Hkeys) as Hshape.
  apply (encrypt_class _ Hn this pk Hshape) in He as (r & c & -> & Hc & Hr & Ec).
  apply (decrypt_class this pk sk Hkeys c _ r); auto.
  apply Z.mod_pos_bound. lia.
Qed.

Lemma decrypt_encrypt_round_trip_witness :
  HomomorphicEncryption.decrypt sample_engine "289944"
    (Some (HomomorphicEncryption.mkPrivateKey 252 422 551 303601))
  = Ret (Finite ((-1) mod 551)).
Proof.
  apply (decrypt_encrypt_round_trip sample_engine sample_publicKey
           (HomomorphicEncryption.mkPrivateKey 252 422 551 303601) (-1)
           sample_world
           (snd (HomomorphicEncryption.encrypt sample_engine (-1)
                   (Some sample_publicKey) sample_world))
           (HomomorphicEncryption.mkEncryptedVote "289944" "530")).
  - exists 19, 29. split; [apply trial_division_sound; reflexivity|].
    split; [apply trial_division_sound; reflexivity|].
    split; [lia|vm_compute; reflexivity].
  - vm_compute. discriminate.
  - vm_compute. reflexivity.
Defined.

Section TallyFacts.
Import HomomorphicEncryption.

Variable this : Engine.
Variables (pk : PublicKey) (sk : PrivateKey).
Hypothesis keys : paillier_key_pair pk sk.

(** The homomorphic sum of encryptions is a ciphertext of the sum. *)
Lemma addEncrypted_class (votes : list Z) (refs : list VoteRef) :
  Forall2 (encrypts this pk) votes refs ->
  forall arg, default_to arg (publicKey this) = Some pk ->
  exists res R,
    addEncrypted this refs arg = Ret (toString res)
    /\ Z.gcd R (pk_n pk) = 1
    /\ res mod (pk_n pk * pk_n pk)
       = ((1 + 1 * pk_n pk) ^ (zsum votes mod pk_n pk) * R ^ pk_n pk)
           mod (pk_n pk * pk_n pk).
Proof.
  intros Hall arg Harg.
  pose proof (paillier_modulus pk sk keys) as Hn.
  pose proof (paillier_public_shape pk sk keys) as Hshape.
  destruct (addEncrypted_loop_class (pk_n pk) Hn this pk Hshape votes refs Hall
              1 0 1) as (res & R & Hrun & _ & HR & Eres).
  - nia.
  - lia.
  - apply Z.gcd_1_l.
  - now rewrite Z.pow_0_r, Z.pow_1_l by lia.
  - exists res, R. unfold addEncrypted. rewrite Harg.
    replace (pk_nsq pk) with (pk_n pk * pk_n pk) by (rewrite Hshape; reflexivity).
    rewrite Hrun. cbn [obind]. repeat split; assumption.
Qed.

End TallyFacts.

(** The tally of any number of votes: decrypting the homomorphic sum of
    encryptions of [v_1 ... v_k], passed as strings or as objects, returns
    [v_1 + ... + v_k] reduced modulo [n].  An empty list tallies to 0, and a
    sum that reaches [n] wraps around. *)
Theorem tally_of_encryptions
  (this : HomomorphicEncryption.Engine)
  (pk : HomomorphicEncryption.PublicKey) (sk : HomomorphicEncryption.PrivateKey)
  (votes : list Z) (refs : list HomomorphicEncryption.VoteRef) :
  paillier_key_pair pk sk ->
  Forall2 (encrypts this pk) votes refs ->
  zsum votes mod HomomorphicEncryption.pk_n pk <= MAX_SAFE_INTEGER ->
  (sum <~ HomomorphicEncryption.addEncrypted this refs (Some pk) ;;
   HomomorphicEncryption.decrypt this sum (Some sk))
  = Ret (Finite (zsum votes mod HomomorphicEncryption.pk_n pk)).
Proof.
  intros Hkeys Hall Hsafe.
  pose proof (paillier_modulus pk sk Hkeys) as Hn.
  destruct (addEncrypted_class this pk sk Hkeys votes refs Hall (Some pk) eq_refl)
    as (res & R & -> & HR & Eres).
  cbn [obind].
  apply (decrypt_class this pk sk Hkeys res _ R); auto.
  apply Z.mod_pos_bound. lia.
Qed.

Lemma tally_of_encryptions_witness :
  (sum <~ HomomorphicEncryption.addEncrypted sample_engine
            [HomomorphicEncryption.VoteString "246415";
             HomomorphicEncryption.VoteObject (Some "289944"%string) None;
             HomomorphicEncryption.VoteObject None (Some (Some "246415"%string))]
            (Some sample_publicKey) ;;
   HomomorphicEncryption.decrypt sample_engine sum
     (Some (HomomorphicEncryption.mkPrivateKey 252 422 551 303601)))
  = Ret (Finite (zsum [3; 550; 3] mod 551)).
Proof.
  apply (tally_of_encryptions sample_engine sample_publicKey
           (HomomorphicEncryption.mkPrivateKey 252 422 551 303601)
           [3; 550; 3]).
  - exists 19, 29. split; [apply trial_division_sound; reflexivity|].
    split; [apply trial_division_sound; reflexivity|].
    split; [lia|vm_compute; reflexivity].
  - repeat constructor.
    + exists sample_world,
        (snd (HomomorphicEncryption.encrypt sample_engine 3
                (Some sample_publicKey) sample_world)),
        (HomomorphicEncryption.mkEncryptedVote "246415" "530").
      split; vm_compute; reflexivity.
    + exists sample_world,
        (snd (HomomorphicEncryption.encrypt sample_engine 550
                (Some sample_publicKey) sample_world)),
        (HomomorphicEncryption.mkEncryptedVote "289944" "530").
      split; vm_compute; reflexivity.
    + exists sample_world,
        (snd (HomomorphicEncryption.encrypt sample_engine 3
                (Some sample_publicKey) sample_world)),
        (HomomorphicEncryption.mkEncryptedVote "246415" "530").
      split; vm_compute; reflexivity.
  - vm_compute. discriminate.
Defined.

(** [verifyTally] on encryptions under the engine's own key pair: the
    calculated sum is the sum of the votes modulo [n], and the check passes
    exactly when the expected sum is that number. *)
Theorem verifyTally_of_encryptions
  (this : HomomorphicEncryption.Engine)
  (pk : HomomorphicEncryption.PublicKey) (sk : HomomorphicEncryption.PrivateKey)
  (votes : list Z) (refs : list HomomorphicEncryption.VoteRef)
  (expected : JSNumber) (arg : option HomomorphicEncryption.PublicKey) :
  paillier_key_pair pk sk ->
  HomomorphicEncryption.default_to arg (HomomorphicEncryption.publicKey this)
    = Some pk ->
  HomomorphicEncryption.privateKey this = Some sk ->
  Forall2 (encrypts this pk) votes refs ->
  zsum votes mod HomomorphicEncryption.pk_n pk <= MAX_SAFE_INTEGER ->
  exists check,
    Tally.verifyTally this refs expected arg = Ret check
    /\ Tally.calculatedSum check
       = Finite (zsum votes mod HomomorphicEncryption.pk_n pk)
    /\ (Tally.tc_isValid check = true
        <-> expected = Finite (zsum votes mod HomomorphicEncryption.pk_n pk)).
Proof.
  intros Hkeys Harg Hsk Hall Hsafe.
  pose proof (paillier_modulus pk sk Hkeys) as Hn.
  destruct (addEncrypted_class this pk sk Hkeys votes refs Hall arg Harg)
    as (res & R & Hsum & HR & Eres).
  unfold Tally.verifyTally. rewrite Hsum. cbn [obind].
  rewrite (decrypt_class this pk sk Hkeys res
             (zsum votes mod HomomorphicEncryption.pk_n pk) R); auto;
    [|apply Z.mod_pos_bound; lia].
  cbn [obind]. eexists. split; [reflexivity|].
  cbn [Tally.calculatedSum Tally.tc_isValid]. split; [reflexivity|].
  unfold Tally.strict_equal. destruct expected as [z|b].
  - split.
    + intros H. apply Z.eqb_eq in H. now rewrite H.
    + intros [= ->]. apply Z.eqb_refl.
  - split; discriminate.
Qed.

Lemma verifyTally_of_encryptions_witness :
  exists check,
    Tally.verifyTally sample_engine
      [HomomorphicEncryption.VoteString "246415";
       HomomorphicEncryption.VoteObject (Some "289944"%string) None]
      (Finite 2) None = Ret check
    /\ Tally.calculatedSum check = Finite (zsum [3; 550] mod 551)
    /\ (Tally.tc_isValid check = true
        <-> Finite 2 = Finite (zsum [3; 550] mod 551)).
Proof.
  apply (verifyTally_of_encryptions sample_engine sample_publicKey
           (HomomorphicEncryption.mkPrivateKey 252 422 551 303601)
           [3; 550]).
  - exists 19, 29. split; [apply trial_division_sound; reflexivity|].
    split; [apply trial_division_sound; reflexivity|].
    split; [lia|vm_compute; reflexivity].
  - reflexivity.
  - reflexivity.
  - repeat constructor.
    + exists sample_world,
        (snd (HomomorphicEncryption.encrypt sample_engine 3
                (Some sample_publicKey) sample_world)),
        (HomomorphicEncryption.mkEncryptedVote "246415" "530").
      split; vm_compute; reflexivity.
    + exists sample_world,
        (snd (HomomorphicEncryption.encrypt sample_engine 550
                (Some sample_publicKey) sample_world)),
        (HomomorphicEncryption.mkEncryptedVote "289944" "530").
      split; vm_compute; reflexivity.
  - vm_compute. discriminate.
Defined.

(** ** Batching the homomorphic addition *)

Section Batching.
Import HomomorphicEncryption.

Variable nsq : Z.
Hypothesis nsq_big : 1 < nsq.

Lemma rem_mul_idemp_l (a b : Z) : Z.rem (Z.rem a nsq * b) nsq = Z.rem (a * b) nsq.
Proof. apply Zmult_rem_idemp_l. Qed.

Lemma rem_mul_idemp_r (a b : Z) : Z.rem (a * Z.rem b nsq) nsq = Z.rem (a * b) nsq.
Proof. apply Zmult_rem_idemp_r. Qed.

(** The accumulator only scales what the loop computes from 1. *)
Lemma addEncrypted_loop_scale (refs : list VoteRef) :
  forall acc,
    addEncrypted_loop refs nsq (Z.rem acc nsq)
    = (b <~ addEncrypted_loop refs nsq 1 ;; Ret (Z.rem (acc * b) nsq)).
Proof.
  assert (H1 : Z.rem 1 nsq = 1) by (apply Z.rem_small; lia).
  induction refs as [|ref refs IH]; intros acc.
  - cbn [addEncrypted_loop obind]. now rewrite Z.mul_1_r.
  - cbn [addEncrypted_loop].
    destruct (vote_ciphertext ref) as [s|e]; [|reflexivity]. cbn [obind].
    destruct (BigInt s) as [c|e]; [|reflexivity]. cbn [obind].
    unfold bigint_rem.
    destruct (nsq =? 0) eqn:E0; [apply Z.eqb_eq in E0; lia|]. cbn [obind].
    rewrite rem_mul_idemp_l, Z.mul_1_l.
    rewrite (IH (acc * c)), (IH c).
    destruct (addEncrypted_loop refs nsq 1) as [b|e]; [|reflexivity].
    cbn [obind]. rewrite rem_mul_idemp_r. f_equal. f_equal. ring.
Qed.

Lemma addEncrypted_loop_app (xs ys : list VoteRef) :
  forall acc,
    addEncrypted_loop (xs ++ ys) nsq acc
    = (r <~ addEncrypted_loop xs nsq acc ;; addEncrypted_loop ys nsq r).
Proof.
  induction xs as [|x xs IH]; intros acc; [reflexivity|].
  cbn [app addEncrypted_loop].
  destruct (vote_ciphertext x) as [s|e]; [|reflexivity]. cbn [obind].
  destruct (BigInt s) as [c|e]; [|reflexivity]. cbn [obind].
  destruct (bigint_rem (acc * c) nsq) as [r|e]; [|reflexivity]. cbn [obind].
  apply IH.
Qed.

(** What the loop returns from 1 is its own remainder modulo [nsq]. *)
Lemma addEncrypted_loop_reduced (refs : list VoteRef) (r : Z) :
  addEncrypted_loop refs nsq 1 = Ret r -> Z.rem r nsq = r.
Proof.
  destruct refs as [|ref refs]; cbn [addEncrypted_loop].
  - intros [= <-]. apply Z.rem_small. lia.
  - destruct (vote_ciphertext ref) as [s|e]; [|discriminate]. cbn [obind].
    destruct (BigInt s) as [c|e]; [|discriminate]. cbn [obind].
    unfold bigint_rem.
    destruct (nsq =? 0) eqn:E0; [apply Z.eqb_eq in E0; lia|]. cbn [obind].
    rewrite addEncrypted_loop_scale.
    destruct (addEncrypted_loop refs nsq 1) as [b|e]; [|discriminate].
    cbn [obind]. intros [= <-]. apply Zrem_rem.
Qed.

End Batching.

(** Homomorphic addition can be done in batches: for a key with
    [nsq > 1], adding a list of votes in one call gives the same result, the
    same exception included, as adding its two halves separately and then
    adding the two partial sums. *)
Theorem addEncrypted_in_batches
  (this : HomomorphicEncryption.Engine) (pk : HomomorphicEncryption.PublicKey)
  (xs ys : list HomomorphicEncryption.VoteRef) :
  1 < HomomorphicEncryption.pk_nsq pk ->
  HomomorphicEncryption.addEncrypted this (xs ++ ys) (Some pk)
  = (a <~ HomomorphicEncryption.addEncrypted this xs (Some pk) ;;
     b <~ HomomorphicEncryption.addEncrypted this ys (Some pk) ;;
     HomomorphicEncryption.addEncrypted this
       [HomomorphicEncryption.VoteString a; HomomorphicEncryption.VoteString b]
       (Some pk)).
Proof.
  intros Hn. unfold HomomorphicEncryption.addEncrypted.
  cbn [HomomorphicEncryption.default_to].
  set (N := HomomorphicEncryption.pk_nsq pk) in *.
  rewrite addEncrypted_loop_app.
  destruct (HomomorphicEncryption.addEncrypted_loop xs N 1) as [a|e] eqn:Ha;
    [|reflexivity].
  cbn [obind].
  pose proof (addEncrypted_loop_reduced N Hn xs a Ha) as Hra.
  rewrite <- Hra at 1. rewrite (addEncrypted_loop_scale N Hn).
  destruct (HomomorphicEncryption.addEncrypted_loop ys N 1) as [b|e] eqn:Hb;
    [|reflexivity].
  cbn [obind].
  pose proof (addEncrypted_loop_reduced N Hn ys b Hb) as Hrb.
  cbn [HomomorphicEncryption.addEncrypted_loop
       HomomorphicEncryption.vote_ciphertext obind].
  rewrite !BigInt_toString. cbn [obind]. unfold bigint_rem.
  destruct (N =? 0) eqn:E0; [apply Z.eqb_eq in E0; lia|]. cbn [obind].
  rewrite Z.mul_1_l, Hra. reflexivity.
Qed.

Lemma addEncrypted_in_batches_witness :
  HomomorphicEncryption.addEncrypted sample_engine
    ([HomomorphicEncryption.VoteString "246415";
      HomomorphicEncryption.VoteString "289944"]
     ++ [HomomorphicEncryption.VoteString "76280"])
    (Some sample_publicKey)
  = (a <~ HomomorphicEncryption.addEncrypted sample_engine
            [HomomorphicEncryption.VoteString "246415";
             HomomorphicEncryption.VoteString "289944"]
            (Some sample_publicKey) ;;
     b <~ HomomorphicEncryption.addEncrypted sample_engine
            [HomomorphicEncryption.VoteString "76280"] (Some sample_publicKey) ;;
     HomomorphicEncryption.addEncrypted sample_engine
       [HomomorphicEncryption.VoteString a; HomomorphicEncryption.VoteString b]
       (Some sample_publicKey)).
Proof.
  apply (addEncrypted_in_batches sample_engine sample_publicKey).
  reflexivity.
Defined.

(** ** Shamir sharing: range, failure and shape *)

Section ReconstructEdges.
Import HomomorphicEncryption.

Lemma in_indexed (l : list Share) :
  forall o j s,
    nth_error l j = Some s ->
    In ((o + j)%nat, s) (combine (seq o (List.length l)) l).
Proof.
  induction l as [|t l IH]; intros o j s H; [destruct j; discriminate|].
  cbn [List.length seq combine]. destruct j as [|j]; cbn [nth_error] in H.
  - injection H as ->. left. f_equal. lia.
  - right. replace (o + S j)%nat with (S o + j)%nat by lia. now apply IH.
Qed.

Lemma zprod_factor_coprime (m : Z) (l : list Z) :
  Z.gcd (zprod l) m = 1 -> forall a, In a l -> Z.gcd a m = 1.
Proof.
  induction l as [|b l IH]; intros H a Hin; [destruct Hin|].
  unfold zprod in H. cbn [fold_right] in H. fold (zprod l) in H.
  assert (Hleft : Z.gcd b m = 1).
  { pose proof (Z.gcd_nonneg b m) as Hnn.
    assert (Hd : (Z.gcd b m | 1)).
    { rewrite <- H. apply Z.gcd_greatest.
      - apply Z.divide_mul_l, Z.gcd_divide_l.
      - apply Z.gcd_divide_r. }
    apply Z.divide_1_r_nonneg; assumption. }
  assert (Hright : Z.gcd (zprod l) m = 1).
  { pose proof (Z.gcd_nonneg (zprod l) m) as Hnn.
    assert (Hd : (Z.gcd (zprod l) m | 1)).
    { rewrite <- H. apply Z.gcd_greatest.
      - apply Z.divide_mul_r, Z.gcd_divide_l.
      - apply Z.gcd_divide_r. }
    apply Z.divide_1_r_nonneg; assumption. }
  destruct Hin as [<-|Hin]; [exact Hleft|now apply IH].
Qed.

Variable m : Z.
Hypothesis m_big : 2 <= m.
Variable shares : list Share.

(** Every row the outer loop got through had an invertible denominator. *)
Lemma reconstruct_loop_units (rows : list (nat * Share)) :
  forall secret secret',
    reconstruct_loop rows shares m secret = Ret secret' ->
    forall i si, In (i, si) rows ->
      Z.gcd (zprod (map (fun x => id si - x) (index_others i (indexed shares)))) m
      = 1.
Proof.
  induction rows as [|[i0 s0] rows IH]; intros secret secret' H i si Hin;
    [destruct Hin|].
  cbn [reconstruct_loop] in H.
  destruct (lagrange_loop_spec m m_big i0 (id s0) (indexed shares) 1 1)
    as (num & den & Hrun & _ & Hden).
  rewrite Hrun in H. cbn [obind] in H.
  destruct (modInv den m) as [x|e] eqn:Hinv; [|discriminate]. cbn [obind] in H.
  repeat (rewrite (bigint_rem_ret m m_big) in H; cbn [obind] in H).
  destruct Hin as [[= <- <-]|Hin]; [|exact (IH _ _ H i si Hin)].
  apply modInv_inv in Hinv as (_ & Hunit & _).
  rewrite Z.mul_1_l in Hden.
  now rewrite <- Z.gcd_mod_l, <- Hden, Z.gcd_mod_l.
Qed.

Lemma reconstructSecret_needs_units (s : Z) :
  reconstructSecret shares m = Ret s -> units_by_position m shares.
Proof.
  unfold reconstructSecret. intros H.
  destruct (reconstruct_loop (indexed shares) shares m 0) as [secret|e] eqn:Hloop;
    [|discriminate].
  intros i j si sj Hi Hj Hij.
  pose proof (reconstruct_loop_units _ _ _ Hloop i si (in_indexed shares 0 i si Hi))
    as Hunit.
  apply (zprod_factor_coprime m _ Hunit).
  apply in_map_iff. exists (id sj). split; [reflexivity|].
  unfold index_others. apply in_map_iff. exists (j, sj). split; [reflexivity|].
  apply filter_In. split; [exact (in_indexed shares 0 j sj Hj)|].
  cbn [fst]. apply negb_true_iff, Nat.eqb_neq. exact Hij.
Qed.

Lemma units_by_position_nodup : units_by_position m shares -> NoDup shares.
Proof.
  intros Hunits. apply NoDup_nth_error. intros i j Hi E.
  destruct (Nat.eq_dec i j) as [|Hij]; [assumption|exfalso].
  destruct (nth_error shares i) as [si|] eqn:Hsi;
    [|apply nth_error_None in Hsi; lia].
  symmetry in E. pose proof (Hunits i j si si Hsi E Hij) as Hg.
  rewrite Z.sub_diag, Z.gcd_0_l in Hg. lia.
Qed.

Lemma units_by_position_differences :
  units_by_position m shares -> invertible_differences m shares.
Proof.
  intros Hunits s t Hs Ht Hne.
  apply In_nth_error in Hs as [i Hi]. apply In_nth_error in Ht as [j Hj].
  apply (Hunits i j s t Hi Hj). intros ->. congruence.
Qed.

End ReconstructEdges.

(** Whatever the shares, a value [reconstructSecret] returns for a positive
    modulus lies in [[0, modulus)]: the closing normalisation makes up for
    the negative remainders of the loop. *)
Theorem reconstructSecret_range
  (shares : list HomomorphicEncryption.Share) (modulus secret : Z) :
  0 < modulus ->
  HomomorphicEncryption.reconstructSecret shares modulus = Ret secret ->
  0 <= secret < modulus.
Proof.
  intros Hm. unfold HomomorphicEncryption.reconstructSecret.
  destruct (HomomorphicEncryption.reconstruct_loop _ _ _ _) as [s|e];
    [|discriminate].
  cbn [obind]. unfold bigint_rem.
  destruct (modulus =? 0) eqn:E0; [apply Z.eqb_eq in E0; lia|]. cbn [obind].
  intros [= <-].
  pose proof (rem_abs_lt s modulus Hm) as Hb.
  rewrite rem_nonneg_mod by lia. apply Z.mod_pos_bound. lia.
Qed.

Lemma reconstructSecret_range_witness : 0 <= 252 < 551.
Proof.
  apply (reconstructSecret_range
           [HomomorphicEncryption.mkShare 5 121; HomomorphicEncryption.mkShare 2 52;
            HomomorphicEncryption.mkShare 4 159] 551 252).
  - lia.
  - vm_compute. reflexivity.
Defined.

(** For a modulus of at least 2, [reconstructSecret] returns a value exactly
    when any two shares at different positions have identifiers whose
    difference is invertible modulo the modulus; otherwise (a repeated
    identifier, or a difference that shares a factor with the modulus) it
    throws. *)
Theorem reconstructSecret_returns_iff
  (shares : list HomomorphicEncryption.Share) (modulus : Z) :
  2 <= modulus ->
  (exists secret, HomomorphicEncryption.reconstructSecret shares modulus = Ret secret)
  <-> units_by_position modulus shares.
Proof.
  intros Hm. split.
  - intros [secret H]. exact (reconstructSecret_needs_units modulus Hm shares secret H).
  - intros Hunits. eexists.
    apply (reconstructSecret_spec modulus Hm shares).
    + exact (units_by_position_nodup modulus Hm shares Hunits).
    + exact (units_by_position_differences modulus shares Hunits).
Qed.

Lemma reconstructSecret_returns_iff_witness :
  (exists secret,
      HomomorphicEncryption.reconstructSecret
        [HomomorphicEncryption.mkShare 1 458; HomomorphicEncryption.mkShare 1 458]
        551 = Ret secret)
  <-> units_by_position 551
        [HomomorphicEncryption.mkShare 1 458; HomomorphicEncryption.mkShare 1 458].
Proof.
  apply (reconstructSecret_returns_iff
           [HomomorphicEncryption.mkShare 1 458; HomomorphicEncryption.mkShare 1 458]
           551).
  lia.
Defined.

Section SharesShape.
Import HomomorphicEncryption.

Lemma firstn_subset {A : Type} (k : nat) :
  forall (l : list A) (a : A), In a (firstn k l) -> In a l.
Proof.
  induction k as [|k IH]; intros [|b l] a H; cbn [firstn] in H;
    try contradiction.
  destruct H as [<-|H]; [now left|right; now apply IH].
Qed.

Variable m : Z.
Hypothesis m_pos : 0 < m.
Hypothesis m_bytes : (binary_length m + 7) / 8 <= 2147483647.

Lemma binary_length_pos (x : Z) : 0 < binary_length x.
Proof.
  unfold binary_length.
  destruct (x =? 0); [lia|].
  destruct (x <? 0) eqn:E.
  - apply Z.ltb_lt in E. pose proof (Z.log2_nonneg (- x)). lia.
  - pose proof (Z.log2_nonneg x). lia.
Qed.

Lemma generateRandomBigInt_total (w : World) :
  exists a w', generateRandomBigInt m w = (Ret a, w') /\ 0 <= a < m.
Proof.
  unfold generateRandomBigInt, bind, lift.
  destruct (randomBytes ((binary_length m + 7) / 8) w) as [[buffer|e] w1] eqn:Hr.
  - unfold bigint_rem.
    destruct (m =? 0) eqn:E0; [apply Z.eqb_eq in E0; lia|].
    do 2 eexists. split; [reflexivity|].
    apply EncryptFacts.randomBytes_inv in Hr as (Hall & _).
    assert (Hnn : 0 <= bytes_to_bigint buffer).
    { apply EncryptFacts.bytes_to_bigint_nonneg.
      apply (Forall_impl _ (P := fun b => 0 <= b < 256)); [|exact Hall].
      intros b Hb. apply Hb. }
    rewrite rem_nonneg_mod by lia. apply Z.mod_pos_bound. lia.
  - exfalso. unfold randomBytes in Hr.
    pose proof (binary_length_pos m) as Hl.
    assert (H0 : 0 <= (binary_length m + 7) / 8) by (apply Z.div_pos; lia).
    destruct (_ <? 0) eqn:E1; [apply Z.ltb_lt in E1; lia|].
    destruct (_ >? 2147483647) eqn:E2;
      [rewrite Z.gtb_ltb in E2; apply Z.ltb_lt in E2; lia|].
    cbn [orb] in Hr. discriminate Hr.
Qed.

Lemma random_coefficients_total (count : nat) :
  forall w, exists l w',
    random_coefficients count m w = (Ret l, w')
    /\ Forall (fun a => 0 <= a) l.
Proof.
  induction count as [|count IH]; intros w.
  - exists [], w. split; [reflexivity|constructor].
  - cbn [random_coefficients]. unfold bind at 1.
    destruct (generateRandomBigInt_total w) as (a & w1 & -> & Ha).
    unfold bind at 1.
    destruct (IH w1) as (l & w2 & -> & Hl).
    exists (a :: l), w2. split; [reflexivity|]. constructor; [lia|exact Hl].
Qed.

End SharesShape.

(** For a positive modulus (of a size [randomBytes] can serve) and a
    non-negative secret, [generateSecretShares] always returns: [n] shares,
    numbered 1 to [n] in this order, with values in [[0, modulus)]. *)
Theorem generateSecretShares_shape
  (secret : Z) (n k : nat) (modulus : Z) (w : World) :
  0 < modulus -> (binary_length modulus + 7) / 8 <= 2147483647 ->
  0 <= secret ->
  exists shares w',
    HomomorphicEncryption.generateSecretShares secret n k modulus w
      = (Ret shares, w')
    /\ map HomomorphicEncryption.id shares = map Z.of_nat (seq 1 n)
    /\ Forall (fun s => 0 <= HomomorphicEncryption.value s < modulus) shares.
Proof.
  intros Hm Hbytes Hs.
  unfold HomomorphicEncryption.generateSecretShares, bind, lift.
  destruct (random_coefficients_total modulus Hm Hbytes (k - 1) w)
    as (l & w1 & -> & Hl).
  rewrite (shares_loop_spec modulus Hm).
  - do 2 eexists. split; [reflexivity|]. split.
    + rewrite map_map. cbn [HomomorphicEncryption.id]. reflexivity.
    + apply Forall_forall. intros s Hin.
      apply in_map_iff in Hin as (x & <- & _).
      cbn [HomomorphicEncryption.value]. apply Z.mod_pos_bound. lia.
  - apply Forall_forall. intros a Ha. apply firstn_subset in Ha.
    destruct Ha as [<-|Ha]; [exact Hs|].
    revert a Ha. now apply Forall_forall.
Qed.

Lemma generateSecretShares_shape_witness :
  exists shares w',
    HomomorphicEncryption.generateSecretShares 252 5 3 551 sample_world
      = (Ret shares, w')
    /\ map HomomorphicEncryption.id shares = map Z.of_nat (seq 1 5)
    /\ Forall (fun s => 0 <= HomomorphicEncryption.value s < 551) shares.
Proof.
  apply (generateSecretShares_shape 252 5 3 551 sample_world).
  - lia.
  - vm_compute. discriminate.
  - lia.
Defined.

(** ** Key generation and threshold decryption *)

Section PrimeCandidates.
Import HomomorphicEncryption.

(** The masking and the two forced bits of [generatePrime]. *)
Lemma candidate_bits (x bits : Z) :
  0 <= x -> 1 <= bits ->
  let c := Z.lor (Z.lor (Z.land x (Z.shiftl 1 bits - 1)) (Z.shiftl 1 (bits - 1))) 1 in
  2 ^ (bits - 1) <= c < 2 ^ bits /\ Z.odd c = true.
Proof.
  intros Hx Hbits c.
  assert (Hmask : Z.shiftl 1 bits - 1 = Z.ones bits).
  { rewrite Z.ones_equiv, Z.shiftl_1_l. reflexivity. }
  assert (Hlow : Z.land x (Z.shiftl 1 bits - 1) = x mod 2 ^ bits)
    by (rewrite Hmask; apply Z.land_ones; lia).
  assert (Hpow : 0 < 2 ^ bits) by (apply Z.pow_pos_nonneg; lia).
  pose proof (Z.mod_pos_bound x (2 ^ bits) Hpow) as Hb.
  set (x1 := x mod 2 ^ bits) in *.
  assert (Hlog1 : Z.log2 x1 <= bits - 1).
  { destruct (Z.eq_dec x1 0) as [->|Hnz]; [cbn; lia|].
    assert (Z.log2 x1 < bits) by (apply Z.log2_lt_pow2; lia). lia. }
  assert (Hodd : Z.odd c = true).
  { unfold c. rewrite <- Z.bit0_odd, Z.lor_spec.
    change (Z.testbit 1 0) with true. apply orb_true_r. }
  assert (Hc0 : 0 <= c).
  { unfold c. apply Z.lor_nonneg. split; [|lia].
    apply Z.lor_nonneg. split; [rewrite Hlow; lia|].
    rewrite Z.shiftl_1_l. apply Z.pow_nonneg. lia. }
  assert (Hcpos : 0 < c).
  { destruct (Z.eq_dec c 0) as [E|E]; [|lia]. rewrite E in Hodd. discriminate. }
  assert (Hlog : Z.log2 c = bits - 1).
  { unfold c. rewrite Z.log2_lor; try lia.
    - rewrite Z.log2_lor.
      + rewrite Hlow, Z.shiftl_1_l, Z.log2_pow2 by lia.
        change (Z.log2 1) with 0. lia.
      + rewrite Hlow. lia.
      + rewrite Z.shiftl_1_l. apply Z.pow_nonneg. lia.
    - apply Z.lor_nonneg. split; [rewrite Hlow; lia|].
      rewrite Z.shiftl_1_l. apply Z.pow_nonneg. lia. }
  split; [|exact Hodd].
  pose proof (Z.log2_spec c Hcpos) as Hspec. rewrite Hlog in Hspec.
  replace (Z.succ (bits - 1)) with bits in Hspec by lia. exact Hspec.
Qed.

Variable isProbablyPrime : Z -> Z -> bool.

(** What [generatePrime] returns was forced odd, passed the sieve and was
    accepted by the primality test. *)
Lemma generatePrime_loop_sieve (fuel : nat) (bits : Z) :
  forall w w' c,
    generatePrime_loop isProbablyPrime fuel bits w = (Ret c, w') ->
    isProbablyPrime c 15 = true /\ Z.odd c = true
    /\ Forall (fun s => c mod s <> 0) [3; 5; 7; 11; 13; 17].
Proof.
  induction fuel as [|fuel IH]; intros w w' c H; cbn [generatePrime_loop] in H;
    [discriminate|].
  unfold bind at 1 in H.
  destruct (randomBytes ((bits + 7) / 8) w) as [[buffer|e] w1] eqn:Hr;
    [|discriminate].
  set (cand := Z.lor (Z.lor (Z.land (bytes_to_bigint buffer) (Z.shiftl 1 bits - 1))
                        (Z.shiftl 1 (bits - 1))) 1) in *.
  destruct (_ || _) eqn:Hsieve in H; [eapply IH; exact H|].
  destruct (isProbablyPrime cand 15) eqn:Ho; [|eapply IH; exact H].
  injection H as <- _.
  split; [exact Ho|]. split.
  - unfold cand. rewrite <- Z.bit0_odd, Z.lor_spec.
    change (Z.testbit 1 0) with true. apply orb_true_r.
  - repeat (apply orb_false_iff in Hsieve as [Hsieve ?]).
    repeat constructor;
      match goal with
      | Hs : (Z.rem cand ?s =? 0) = false |- cand mod ?s <> 0 =>
          apply Z.eqb_neq in Hs; intros Hm; apply Hs;
          apply Z.rem_divide; [lia|]; apply Z.mod_divide; [lia|exact Hm]
      end.
Qed.

(** For a positive number of bits, the result has exactly that many. *)
Lemma generatePrime_loop_bits (fuel : nat) (bits : Z) :
  1 <= bits ->
  forall w w' c,
    generatePrime_loop isProbablyPrime fuel bits w = (Ret c, w') ->
    2 ^ (bits - 1) <= c < 2 ^ bits.
Proof.
  intros Hbits.
  induction fuel as [|fuel IH]; intros w w' c H; cbn [generatePrime_loop] in H;
    [discriminate|].
  unfold bind at 1 in H.
  destruct (randomBytes ((bits + 7) / 8) w) as [[buffer|e] w1] eqn:Hr;
    [|discriminate].
  apply EncryptFacts.randomBytes_inv in Hr as (Hall & _).
  assert (Hnn : 0 <= bytes_to_bigint buffer).
  { apply EncryptFacts.bytes_to_bigint_nonneg.
    apply (Forall_impl _ (P := fun b => 0 <= b < 256)); [|exact Hall].
    intros b Hb. apply Hb. }
  pose proof (candidate_bits (bytes_to_bigint buffer) bits Hnn Hbits) as Hcand.
  cbv zeta in Hcand.
  set (cand := Z.lor (Z.lor (Z.land (bytes_to_bigint buffer) (Z.shiftl 1 bits - 1))
                        (Z.shiftl 1 (bits - 1))) 1) in *.
  destruct (_ || _) in H; [eapply IH; exact H|].
  destruct (isProbablyPrime cand 15); [|eapply IH; exact H].
  injection H as <- _. apply Hcand.
Qed.


End PrimeCandidates.

Section SmallDifferences.


End SmallDifferences.

Section GenerateKeysShape.
Import HomomorphicEncryption.

Variable isProbablyPrime : Z -> Z -> bool.

(** The anatomy of a successful [generateKeys()]. *)
Lemma generateKeys_inv (this this' : Engine) (w w' : World) (keys : GeneratedKeys) :
  generateKeys isProbablyPrime this w = (Ret (keys, this'), w') ->
  exists p q pk sk shares w1 w2,
    (exists w0 w0', generatePrime_half isProbablyPrime (keySize this) w0 = (Ret p, w0'))
    /\ (exists w0 w0', generatePrime_half isProbablyPrime (keySize this) w0 = (Ret q, w0'))
    /\ derive_keys p q = Ret (pk, sk)
    /\ generateSecretShares (sk_lambda sk) 5 3 (pk_n pk) w1 = (Ret shares, w2)
    /\ keys = mkGeneratedKeys pk sk
                (mkKeyShares (Some shares) (sk_mu sk) (pk_n pk) (pk_nsq pk) 5 3) 5 3
    /\ this' = mkEngine (keySize this) (Some pk) (Some sk)
                 (Some (mkKeyShares (Some shares) (sk_mu sk) (pk_n pk) (pk_nsq pk) 5 3))
                 (Some (mkThresholdParams 5 3)).
Proof.
  intros H. unfold generateKeys in H.
  unfold bind at 1 in H.
  destruct (generatePrime_half isProbablyPrime (keySize this) w)
    as [[p|e] w1] eqn:Hp; [|discriminate].
  unfold bind at 1 in H.
  destruct (generatePrime_half isProbablyPrime (keySize this) w1)
    as [[q|e] w2] eqn:Hq; [|discriminate].
  unfold bind at 1 in H. unfold lift in H.
  destruct (derive_keys p q) as [[pk sk]|e] eqn:Hkeys; [|discriminate].
  unfold bind in H.
  destruct (generateSecretShares _ _ _ _ w2) as [[shares|e] w3] eqn:Hshares;
    [|discriminate].
  unfold ret in H. injection H as <- <- _.
  exists p, q, pk, sk, shares, w2, w3.
  repeat split; eauto.
Qed.

Lemma lcm_bound (a b l : Z) : 0 < a -> 0 < b -> lcm a b = Ret l -> 0 < l <= a * b.
Proof.
  intros Ha Hb. unfold lcm. rewrite gcd_spec by lia. cbn [obind].
  pose proof (Z.gcd_nonneg a b) as Hg0.
  assert (Hg : 0 < Z.gcd a b).
  { destruct (Z.eq_dec (Z.gcd a b) 0) as [E|E]; [|lia].
    apply Z.gcd_eq_0_l in E. lia. }
  unfold bigint_div.
  destruct (Z.gcd a b =? 0) eqn:E; [apply Z.eqb_eq in E; lia|].
  intros [= <-]. rewrite Z.quot_div_nonneg by nia.
  destruct (Z.gcd_divide_r a b) as [b' Hb'].
  assert (Hb'pos : 0 < b') by nia.
  assert (El : a * b / Z.gcd a b = a * b').
  { rewrite Hb' at 1. rewrite Z.mul_assoc. apply Z.div_mul. lia. }
  rewrite El. set (g := Z.gcd a b) in *. clearbody g. split; nia.
Qed.

Lemma derive_keys_lambda (p q : Z) (pk : PublicKey) (sk : PrivateKey) :
  derive_keys p q = Ret (pk, sk) -> lcm (p - 1) (q - 1) = Ret (sk_lambda sk).
Proof.
  unfold derive_keys. intros H.
  destruct (lcm (p - 1) (q - 1)) as [lam|e]; [|discriminate]. cbn [obind] in H.
  destruct (modPow _ _ _) as [gl|e] in H; [|discriminate]. cbn [obind] in H.
  destruct (L _ _) as [l|e] in H; [|discriminate]. cbn [obind] in H.
  destruct (modInv _ _) as [mu|e] in H; [|discriminate]. cbn [obind] in H.
  injection H as _ <-. reflexivity.
Qed.

End GenerateKeysShape.

Section ThresholdAfterKeys.
Import HomomorphicEncryption.

Variables p q : Z.
Hypothesis p_prime : Z.prime p.
Hypothesis q_prime : Z.prime q.
Hypothesis p_odd : Z.odd p = true.
Hypothesis q_odd : Z.odd q = true.
Hypothesis p_3 : p mod 3 <> 0.
Hypothesis q_3 : q mod 3 <> 0.

Variable P : list Z.

Let n := p * q.




End ThresholdAfterKeys.

(** The bound of 2000 attempts, spelled out. *)
Lemma generatePrime_unfold (isProbablyPrime : Z -> Z -> bool) (bits : Z) :
  HomomorphicEncryption.generatePrime isProbablyPrime bits
  = HomomorphicEncryption.generatePrime_loop isProbablyPrime 2000 bits.
Proof. reflexivity. Qed.

(** A prime [generatePrime(bits)] returns has exactly [bits] bits, is odd,
    has none of 3, 5, 7, 11, 13, 17 as a divisor (so it is none of them
    either) and was accepted by the primality test. *)
Theorem generatePrime_exact_bits
  (isProbablyPrime : Z -> Z -> bool) (bits : Z) (w w' : World) (c : Z) :
  1 <= bits ->
  HomomorphicEncryption.generatePrime isProbablyPrime bits w = (Ret c, w') ->
  2 ^ (bits - 1) <= c < 2 ^ bits
  /\ Z.odd c = true
  /\ Forall (fun s => c mod s <> 0) [3; 5; 7; 11; 13; 17]
  /\ isProbablyPrime c 15 = true.
Proof.
  intros Hbits H. rewrite generatePrime_unfold in H.
  split; [exact (generatePrime_loop_bits isProbablyPrime _ bits Hbits w w' c H)|].
  destruct (generatePrime_loop_sieve isProbablyPrime _ bits w w' c H)
    as (Ho & Hodd & Hs).
  auto.
Qed.


Lemma generatePrime_exact_bits_witness :
  2 ^ (5 - 1) <= 19 < 2 ^ 5
  /\ Z.odd 19 = true
  /\ Forall (fun s => 19 mod s <> 0) [3; 5; 7; 11; 13; 17]
  /\ five_bit_prime 19 15 = true.
Proof.
  apply (generatePrime_exact_bits five_bit_prime 5 sample_world
           (snd (HomomorphicEncryption.generatePrime five_bit_prime 5 sample_world))
           19).
  - lia.
  - vm_compute. reflexivity.
Defined.


(** The engine after a successful [generateKeys()], for a primality test
    that accepts primes only and two different primes drawn: the key pair
    is a Paillier pair and is installed together with five shares, numbered
    1 to 5, of the private exponent [lambda], which lies in [(0, n)]; the
    shares live in [[0, n)] and the threshold is 3 of 5. *)
Theorem generateKeys_installs_keys_and_shares
  (isProbablyPrime : Z -> Z -> bool)
  (this this' : HomomorphicEncryption.Engine) (w w' : World)
  (keys : HomomorphicEncryption.GeneratedKeys) :
  (forall c, isProbablyPrime c 15 = true -> Z.prime c) ->
  HomomorphicEncryption.generateKeys isProbablyPrime this w
    = (Ret (keys, this'), w') ->
  (forall r, HomomorphicEncryption.pk_n (HomomorphicEncryption.gk_publicKey keys)
             <> r * r) ->
  let pk := HomomorphicEncryption.gk_publicKey keys in
  let sk := HomomorphicEncryption.gk_privateKey keys in
  let ks := HomomorphicEncryption.gk_privateKeyShares keys in
  paillier_key_pair pk sk
  /\ this' = HomomorphicEncryption.mkEngine (HomomorphicEncryption.keySize this)
               (Some pk) (Some sk) (Some ks)
               (Some (HomomorphicEncryption.mkThresholdParams 5 3))
  /\ 0 < HomomorphicEncryption.sk_lambda sk < HomomorphicEncryption.pk_n pk
  /\ (HomomorphicEncryption.ks_mu ks, HomomorphicEncryption.ks_n ks,
      HomomorphicEncryption.ks_nsq ks)
     = (HomomorphicEncryption.sk_mu sk, HomomorphicEncryption.pk_n pk,
        HomomorphicEncryption.pk_nsq pk)
  /\ (HomomorphicEncryption.ks_thresholdN ks, HomomorphicEncryption.ks_thresholdK ks)
     = (5, 3)
  /\ exists shares,
       HomomorphicEncryption.ks_shares ks = Some shares
       /\ map HomomorphicEncryption.id shares = [1; 2; 3; 4; 5]
       /\ Forall (fun s => 0 <= HomomorphicEncryption.value s
                                < HomomorphicEncryption.pk_n pk) shares.
Proof.
  intros Hsound Hgen Hsquare pk sk ks.
  pose proof (generateKeys_paillier isProbablyPrime this this' w w' keys
                Hsound Hgen Hsquare) as (Hpair & _ & _).
  apply generateKeys_inv in Hgen
    as (p & q & pk0 & sk0 & shares & w1 & w2 & _ & _ & Hkeys & Hshares & -> & ->).
  subst pk sk ks.
  cbn [HomomorphicEncryption.gk_publicKey HomomorphicEncryption.gk_privateKey
       HomomorphicEncryption.gk_privateKeyShares HomomorphicEncryption.ks_mu
       HomomorphicEncryption.ks_n HomomorphicEncryption.ks_nsq
       HomomorphicEncryption.ks_thresholdN HomomorphicEncryption.ks_thresholdK
       HomomorphicEncryption.ks_shares] in *.
  destruct Hpair as (p' & q' & Hp & Hq & Hpq & Hkeys').
  pose proof (derive_keys_lambda p' q' pk0 sk0 Hkeys') as Hlcm.
  pose proof (Z.prime_ge_2 p' Hp) as Hp2. pose proof (Z.prime_ge_2 q' Hq) as Hq2.
  apply lcm_bound in Hlcm; [|lia|lia].
  pose proof (derive_keys_modulus p' q' pk0 sk0 Hkeys') as Hn.
  split; [exists p', q'; auto|]. split; [reflexivity|].
  split; [rewrite Hn; nia|]. split; [reflexivity|]. split; [reflexivity|].
  exists shares. split; [reflexivity|].
  assert (Hnpos : 0 < HomomorphicEncryption.pk_n pk0) by (rewrite Hn; nia).
  apply (generateSecretShares_inv (HomomorphicEncryption.pk_n pk0) Hnpos)
    in Hshares as (P & _ & _ & ->); [|lia|lia].
  split; [rewrite map_map; reflexivity|].
  apply Forall_forall. intros s Hin. apply in_map_iff in Hin as (x & <- & _).
  cbn [HomomorphicEncryption.value]. apply Z.mod_pos_bound. rewrite Hn. nia.
Qed.

Lemma generateKeys_installs_keys_and_shares_witness :
  exists keys,
    fst (HomomorphicEncryption.generateKeys five_bit_prime
           (HomomorphicEncryption.mkEngine 10 None None None None) sample_world)
      = Ret (keys, sample_engine)
    /\ paillier_key_pair (HomomorphicEncryption.gk_publicKey keys)
         (HomomorphicEncryption.gk_privateKey keys)
    /\ 0 < HomomorphicEncryption.sk_lambda (HomomorphicEncryption.gk_privateKey keys)
         < HomomorphicEncryption.pk_n (HomomorphicEncryption.gk_publicKey keys).
Proof.
  pose (run := HomomorphicEncryption.generateKeys five_bit_prime
                 (HomomorphicEncryption.mkEngine 10 None None None None)
                 sample_world).
  pose (keys := match fst run with
                | Ret (k, _) => k
                | Throw _ =>
                    HomomorphicEncryption.mkGeneratedKeys sample_publicKey
                      (HomomorphicEncryption.mkPrivateKey 0 0 0 0)
                      (HomomorphicEncryption.mkKeyShares None 0 0 0 0 0) 0 0
                end).
  assert (Hrun : run = (Ret (keys, sample_engine), snd run))
    by (vm_compute; reflexivity).
  assert (Hsquare : forall r,
             HomomorphicEncryption.pk_n (HomomorphicEncryption.gk_publicKey keys)
             <> r * r).
  { intros r Hr.
    assert (E : HomomorphicEncryption.pk_n
                  (HomomorphicEncryption.gk_publicKey keys) = 551)
      by (vm_compute; reflexivity).
    rewrite E in Hr.
    assert (Hb : -24 < r < 24) by nia.
    assert (Hs : r * r <= 529) by nia. lia. }
  pose proof (generateKeys_installs_keys_and_shares five_bit_prime
                (HomomorphicEncryption.mkEngine 10 None None None None)
                sample_engine sample_world (snd run) keys
                five_bit_prime_sound Hrun Hsquare) as (Hpair & _ & Hlam & _).
  exists keys. split; [|split; assumption].
  change (fst run = Ret (keys, sample_engine)). now rewrite Hrun.
Defined.

(** ** Zero-knowledge proofs: what verification depends on *)

Module VerifyFacts.
Import ZeroKnowledgeProof.

Lemma first_invalid_commitment (proofs : list SigmaProof) (c1 c2 : Commitment) :
  first_invalid proofs c1 = first_invalid proofs c2.
Proof.
  induction proofs as [|p proofs IH]; [reflexivity|].
  cbn [first_invalid].
  change (verifySigmaProof p c2) with (verifySigmaProof p c1).
  now rewrite IH.
Qed.

(** The branches [generateProof] builds, one per candidate index. *)
Lemma generateSigmaProof_inv (isVoted : bool) (commitment : Commitment)
  (index : Z) (w w' : World) (p : SigmaProof) :
  generateSigmaProof isVoted commitment index w = (Ret p, w') ->
  candidateIndex p = index
  /\ sp_type p = (if isVoted then "real"%string else "simulated"%string)
  /\ (sp_c p = None <-> isVoted = true).
Proof.
  unfold generateSigmaProof. intros H.
  unfold bind at 1 in H.
  destruct (randomBytes 32 w) as [[r|e] w1]; [|discriminate].
  unfold bind at 1 in H. unfold lift at 1 in H.
  destruct (scalar_of_hex (hex_of_bytes r)) as [rScalar|e]; [|discriminate].
  unfold bind at 1 in H. unfold lift at 1 in H.
  destruct (Secp256k1.multiply Secp256k1.BASE rScalar) as [a|e]; [|discriminate].
  destruct isVoted.
  - unfold bind, lift in H.
    destruct (Secp256k1.toHex a false) as [aHex|e]; [|discriminate].
    unfold ret in H. injection H as <- _. cbn. intuition congruence.
  - unfold bind at 1 in H.
    destruct (randomBytes 32 w1) as [[c|e] w2]; [|discriminate].
    unfold bind at 1 in H.
    destruct (randomBytes 32 w2) as [[z|e] w3]; [|discriminate].
    unfold bind at 1 in H. unfold lift at 1 in H.
    destruct (scalar_of_hex (hex_of_bytes c)) as [cScalar|e]; [|discriminate].
    unfold bind at 1 in H. unfold lift at 1 in H.
    destruct (scalar_of_hex (hex_of_bytes z)) as [zScalar|e]; [|discriminate].
    unfold bind, lift in H.
    destruct (Secp256k1.toHex a false) as [aHex|e]; [|discriminate].
    unfold ret in H. injection H as <- _. cbn.
    split; [reflexivity|]. split; [reflexivity|]. split; discriminate.
Qed.

Lemma generateProof_loop_inv (vote : Z) (commitment : Commitment)
  (indices : list nat) :
  forall w w' ps,
    generateProof_loop vote commitment indices w = (Ret ps, w') ->
    map candidateIndex ps = map Z.of_nat indices
    /\ Forall (fun p => sp_type p
                        = (if vote =? candidateIndex p
                           then "real"%string else "simulated"%string)) ps.
Proof.
  induction indices as [|i indices IH]; intros w w' ps H;
    cbn [generateProof_loop] in H.
  - injection H as <- _. split; [reflexivity|constructor].
  - unfold bind at 1 in H.
    destruct (generateSigmaProof _ commitment (Z.of_nat i) w) as [[p|e] w1] eqn:Hp;
      [|discriminate].
    unfold bind at 1 in H.
    destruct (generateProof_loop vote commitment indices w1) as [[others|e] w2]
      eqn:Ho; [|discriminate].
    unfold ret in H. injection H as <- _.
    apply generateSigmaProof_inv in Hp as (Hi & Ht & _).
    apply IH in Ho as (Hidx & Hall).
    split; [cbn [map]; now rewrite Hi, Hidx|].
    constructor; [now rewrite Hi|exact Hall].
Qed.

(** How many of the indices [0 .. count-1], shifted by [start], equal [vote]. *)
Lemma count_real (vote : Z) (count : nat) :
  forall start ps,
    map candidateIndex ps = map Z.of_nat (seq start count) ->
    Forall (fun p => sp_type p
                     = (if vote =? candidateIndex p
                        then "real"%string else "simulated"%string)) ps ->
    List.length (filter (fun p => String.eqb (sp_type p) "real") ps)
    = if (Z.of_nat start <=? vote) && (vote <? Z.of_nat (start + count))
      then 1%nat else 0%nat.
Proof.
  induction count as [|count IH]; intros start ps Hidx Hall.
  - destruct ps; [|discriminate]. cbn [filter List.length].
    replace (start + 0)%nat with start by lia.
    destruct (Z.leb_spec (Z.of_nat start) vote), (Z.ltb_spec vote (Z.of_nat start));
      cbn; lia || reflexivity.
  - destruct ps as [|p ps]; [discriminate|].
    cbn [seq map] in Hidx. injection Hidx as Hp Hrest.
    inversion Hall as [|? ? Htype Hall']; subst.
    cbn [filter]. rewrite Htype, Hp.
    specialize (IH (S start) ps Hrest Hall').
    destruct (Z.eqb_spec vote (Z.of_nat start)) as [->|Hne].
    + cbn [String.eqb Ascii.eqb Bool.eqb List.length]. rewrite IH.
      replace (Z.of_nat (S start) <=? Z.of_nat start) with false
        by (symmetry; apply Z.leb_gt; lia).
      replace (Z.of_nat start <=? Z.of_nat start) with true
        by (symmetry; apply Z.leb_le; lia).
      replace (Z.of_nat start <? Z.of_nat (start + S count)) with true
        by (symmetry; apply Z.ltb_lt; lia).
      reflexivity.
    + change (String.eqb "simulated" "real") with false. cbv iota.
      rewrite IH. replace (S start + count)%nat with (start + S count)%nat by lia.
      destruct (Z.leb_spec (Z.of_nat (S start)) vote),
               (Z.leb_spec (Z.of_nat start) vote); cbn [andb]; try reflexivity; lia.
Qed.

End VerifyFacts.

(** [verifyProof] never looks at the commitment, nor at the candidates
    beyond their number: the verdict, reason included, is the same for any
    two commitments and any two candidate lists of equal length. *)
Theorem verifyProof_ignores_commitment {A B : Type}
  (proof : ZeroKnowledgeProof.ProofBundle)
  (c1 c2 : ZeroKnowledgeProof.Commitment)
  (candidates1 : list A) (candidates2 : list B) :
  List.length candidates1 = List.length candidates2 ->
  ZeroKnowledgeProof.verifyProof proof c1 candidates1
  = ZeroKnowledgeProof.verifyProof proof c2 candidates2.
Proof.
  intros Hlen. unfold ZeroKnowledgeProof.verifyProof.
  rewrite Hlen, (VerifyFacts.first_invalid_commitment _ c1 c2). reflexivity.
Qed.

Lemma verifyProof_ignores_commitment_witness :
  ZeroKnowledgeProof.verifyProof forged_bundle forged_commitment ["Alice"%string]
  = ZeroKnowledgeProof.verifyProof forged_bundle
      (ZeroKnowledgeProof.mkCommitment "" "" "") [7].
Proof.
  apply (verifyProof_ignores_commitment forged_bundle forged_commitment
           (ZeroKnowledgeProof.mkCommitment "" "" "") ["Alice"%string] [7]).
  reflexivity.
Defined.

(** No real branch is needed: a bundle made of well-formed branches none
    of which is tagged [real], sealed with the challenge [generateChallenge]
    computes from them, is declared valid against any commitment, for any
    candidate list of the same length. *)
Theorem verifyProof_accepts_simulated_bundles {A : Type}
  (branches : list ZeroKnowledgeProof.SigmaProof) (timestamp : Z)
  (commitment : ZeroKnowledgeProof.Commitment) (candidates : list A) :
  List.length branches = List.length candidates ->
  Forall (fun p => ZeroKnowledgeProof.sp_type p <> "real"%string
                   /\ well_formed_simulated p = true) branches ->
  ZeroKnowledgeProof.verifyProof
    (ZeroKnowledgeProof.mkProofBundle branches
       (ZeroKnowledgeProof.generateChallenge branches) timestamp)
    commitment candidates
  = ZeroKnowledgeProof.mkVerdict true None.
Proof.
  intros Hlen Hall.
  assert (Hvalid : ZeroKnowledgeProof.isValid
                     (ZeroKnowledgeProof.verifyProof
                        (ZeroKnowledgeProof.mkProofBundle branches
                           (ZeroKnowledgeProof.generateChallenge branches) timestamp)
                        commitment candidates) = true).
  { apply SigmaFacts.verifyProof_valid. cbn [ZeroKnowledgeProof.proofs
      ZeroKnowledgeProof.challenge].
    split; [exact Hlen|]. split; [|reflexivity].
    intros p Hin. rewrite Forall_forall in Hall. destruct (Hall p Hin) as [Ht Hw].
    now rewrite SigmaFacts.verifySigmaProof_simulated. }
  unfold ZeroKnowledgeProof.verifyProof in *.
  destruct (negb _); [discriminate|].
  destruct (ZeroKnowledgeProof.first_invalid _ _); [discriminate|].
  destruct (negb _); [discriminate|reflexivity].
Qed.

Lemma verifyProof_accepts_simulated_bundles_witness :
  ZeroKnowledgeProof.verifyProof
    (ZeroKnowledgeProof.mkProofBundle [forged_branch; forged_branch]
       (ZeroKnowledgeProof.generateChallenge [forged_branch; forged_branch]) 0)
    forged_commitment ["Alice"%string; "Bob"%string]
  = ZeroKnowledgeProof.mkVerdict true None.
Proof.
  apply (verifyProof_accepts_simulated_bundles [forged_branch; forged_branch] 0
           forged_commitment ["Alice"%string; "Bob"%string]).
  - reflexivity.
  - repeat constructor; try discriminate; vm_compute; reflexivity.
Defined.

(** The bundle [generateProof] returns has one branch per candidate, in the
    order of the candidates and carrying their indices; a branch is tagged
    [real] when its index is the vote and [simulated] otherwise, so there is
    one real branch for a vote inside the candidate list and none at all
    for a vote outside it; the challenge is the one [generateChallenge]
    computes from the branches. *)
Theorem generateProof_structure {A : Type}
  (vote : Z) (candidates : list A) (commitment : ZeroKnowledgeProof.Commitment)
  (w w' : World) (bundle : ZeroKnowledgeProof.ProofBundle) :
  ZeroKnowledgeProof.generateProof vote candidates commitment w
    = (Ret bundle, w') ->
  map ZeroKnowledgeProof.candidateIndex (ZeroKnowledgeProof.proofs bundle)
    = map Z.of_nat (seq 0 (List.length candidates))
  /\ Forall (fun p => ZeroKnowledgeProof.sp_type p
                      = (if vote =? ZeroKnowledgeProof.candidateIndex p
                         then "real"%string else "simulated"%string))
       (ZeroKnowledgeProof.proofs bundle)
  /\ List.length
       (filter (fun p => String.eqb (ZeroKnowledgeProof.sp_type p) "real")
          (ZeroKnowledgeProof.proofs bundle))
     = (if (0 <=? vote) && (vote <? Z.of_nat (List.length candidates))
        then 1%nat else 0%nat)
  /\ ZeroKnowledgeProof.challenge bundle
     = ZeroKnowledgeProof.generateChallenge (ZeroKnowledgeProof.proofs bundle).
Proof.
  unfold ZeroKnowledgeProof.generateProof. intros H.
  unfold bind at 1 in H.
  destruct (ZeroKnowledgeProof.generateProof_loop vote commitment _ w)
    as [[ps|e] w1] eqn:Hloop; [|discriminate].
  unfold bind, Date_now, ret in H. injection H as <- _.
  cbn [ZeroKnowledgeProof.proofs ZeroKnowledgeProof.challenge].
  apply VerifyFacts.generateProof_loop_inv in Hloop as (Hidx & Hall).
  split; [exact Hidx|]. split; [exact Hall|]. split; [|reflexivity].
  exact (VerifyFacts.count_real vote (List.length candidates) 0 ps Hidx Hall).
Qed.

Lemma generateProof_structure_witness :
  exists bundle,
    fst (ZeroKnowledgeProof.generateProof 5 ["Alice"%string; "Bob"%string]
           forged_commitment sample_world) = Ret bundle
    /\ map ZeroKnowledgeProof.candidateIndex (ZeroKnowledgeProof.proofs bundle)
       = [0; 1]
    /\ List.length
         (filter (fun p => String.eqb (ZeroKnowledgeProof.sp_type p) "real")
            (ZeroKnowledgeProof.proofs bundle)) = 0%nat.
Proof.
  pose (run := ZeroKnowledgeProof.generateProof 5 ["Alice"%string; "Bob"%string]
                 forged_commitment sample_world).
  pose (bundle := match fst run with
                  | Ret b => b
                  | Throw _ => ZeroKnowledgeProof.mkProofBundle [] "" 0
                  end).
  assert (Hrun : run = (Ret bundle, snd run)) by (vm_compute; reflexivity).
  pose proof (generateProof_structure 5 ["Alice"%string; "Bob"%string]
                forged_commitment sample_world (snd run) bundle Hrun)
    as (Hidx & _ & Hcount & _).
  exists bundle. split; [|split; assumption].
  change (fst run = Ret bundle). now rewrite Hrun.
Defined.

(** The commitment object gives the vote away: its [voteScalar] field is
    the SHA-256 digest of the vote reduced modulo the curve order, in
    hexadecimal, whatever the randomness, and [randomnessScalar] is the same
    function of the randomness. *)
Theorem generateCommitment_discloses_scalars
  (vote randomness : string) (c : ZeroKnowledgeProof.Commitment) :
  ZeroKnowledgeProof.generateCommitment vote randomness = Ret c ->
  ZeroKnowledgeProof.voteScalar c = toString16 (sha256_int vote mod Secp256k1.n)
  /\ ZeroKnowledgeProof.randomnessScalar c
     = toString16 (sha256_int randomness mod Secp256k1.n).
Proof.
  unfold ZeroKnowledgeProof.generateCommitment. intros H.
  destruct (Secp256k1.fromHex ZeroKnowledgeProof.h_hex) as [h|e]; [|discriminate].
  cbn [obind] in H.
  destruct (ZeroKnowledgeProof.scalar_of_hex (sha256_hex vote)) as [vs|e] eqn:Hv;
    [|discriminate].
  cbn [obind] in H.
  destruct (ZeroKnowledgeProof.scalar_of_hex (sha256_hex randomness)) as [rs|e]
    eqn:Hr; [|discriminate].
  cbn [obind] in H.
  destruct (Secp256k1.multiply Secp256k1.BASE vs) as [gv|e]; [|discriminate].
  cbn [obind] in H.
  destruct (Secp256k1.multiply h rs) as [hr|e]; [|discriminate].
  cbn [obind] in H.
  destruct (Secp256k1.toHex _ false) as [hex|e]; [|discriminate].
  cbn [obind] in H. injection H as <-.
  cbn [ZeroKnowledgeProof.voteScalar ZeroKnowledgeProof.randomnessScalar].
  rewrite ScalarFacts.scalar_of_sha256 in Hv, Hr.
  injection Hv as <-. injection Hr as <-. split; reflexivity.
Qed.

Lemma generateCommitment_discloses_scalars_witness :
  exists c,
    ZeroKnowledgeProof.generateCommitment "1" "530" = Ret c
    /\ ZeroKnowledgeProof.voteScalar c = toString16 (sha256_int "1" mod Secp256k1.n)
    /\ ZeroKnowledgeProof.randomnessScalar c
       = toString16 (sha256_int "530" mod Secp256k1.n).
Proof.
  pose (run := ZeroKnowledgeProof.generateCommitment "1" "530").
  pose (c := match run with
             | Ret c => c
             | Throw _ => ZeroKnowledgeProof.mkCommitment "" "" ""
             end).
  assert (Hrun : run = Ret c) by (vm_compute; reflexivity).
  exists c. split; [exact Hrun|].
  exact (generateCommitment_discloses_scalars "1" "530" c Hrun).
Defined.

(** ** Mixnets: permutations, and when a shuffle returns *)

Module ShuffleFacts.
Import Mixnets.

Lemma fisher_yates_total (i : nat) :
  forall p w, exists p' w', fisher_yates i p w = (Ret p', w').
Proof.
  induction i as [|i IH]; intros p w; cbn [fisher_yates].
  - now exists p, w.
  - unfold bind, Math_random_below. apply IH.
Qed.

Lemma rerandomize_total (vote : JSValue) (w : World) :
  readable_vote vote = true ->
  exists fields w', rerandomize vote w = (Ret (JObject fields), w').
Proof.
  intros Hv. unfold rerandomize, bind.
  change (randomBytes 32 w) with
    (Ret (map (fun i => (entropy w (drawn w + i)%nat) mod 256) (seq 0 32)),
     mkWorld (entropy w) (drawn w + 32)%nat (clock w) (reads w)).
  cbv iota.
  destruct vote; try discriminate Hv; cbn [JS.get_ciphertext lift];
    unfold Date_now, ret; do 2 eexists; reflexivity.
Qed.

Lemma rerandomize_readable (vote vote' : JSValue) (w w' : World) :
  rerandomize vote w = (Ret vote', w') ->
  readable_vote vote = true /\ readable_vote vote' = true.
Proof.
  intros H. split.
  - apply MixnetFacts.rerandomize_inv in H as (_ & old & r & Hold & _).
    destruct vote; try reflexivity; discriminate Hold.
  - unfold rerandomize, bind in H.
    destruct (randomBytes 32 w) as [[bytes|e] w1]; [|discriminate].
    destruct (lift (JS.get_ciphertext vote) w1) as [[c|e] w2]; [|discriminate].
    unfold Date_now, ret in H. injection H as <- _. reflexivity.
Qed.

Lemma rerandomize_all_total (votes : list JSValue) :
  forallb readable_vote votes = true ->
  forall w, exists votes' w',
    rerandomize_all votes w = (Ret votes', w')
    /\ forallb readable_vote votes' = true.
Proof.
  induction votes as [|vote votes IH]; intros Hall w; cbn [rerandomize_all].
  - exists [], w. split; reflexivity.
  - cbn [forallb] in Hall. apply andb_prop in Hall as [Hv Hvs].
    destruct (rerandomize_total vote w Hv) as (fields & w1 & Hr).
    unfold bind at 1. rewrite Hr. unfold bind at 1.
    destruct (IH Hvs w1) as (votes' & w2 & Hrs & Hread). rewrite Hrs.
    exists (JObject fields :: votes'), w2. split; [reflexivity|].
    cbn [forallb readable_vote]. exact Hread.
Qed.

Lemma rerandomize_all_readable (votes : list JSValue) :
  forall w w' votes',
    rerandomize_all votes w = (Ret votes', w') ->
    forallb readable_vote votes = true /\ forallb readable_vote votes' = true.
Proof.
  induction votes as [|vote votes IH]; intros w w' votes' H;
    cbn [rerandomize_all] in H.
  - injection H as <- _. split; reflexivity.
  - unfold bind at 1 in H.
    destruct (rerandomize vote w) as [[v|e] w1] eqn:Hv; [|discriminate].
    unfold bind at 1 in H.
    destruct (rerandomize_all votes w1) as [[vs|e] w2] eqn:Hvs; [|discriminate].
    unfold ret in H. injection H as <- _.
    apply rerandomize_readable in Hv as [Hin Hout].
    apply IH in Hvs as [Hins Houts].
    cbn [forallb]. now rewrite Hin, Hout, Hins, Houts.
Qed.

Lemma forallb_permutation {A : Type} (f : A -> bool) (l l' : list A) :
  Permutation l l' -> forallb f l = forallb f l'.
Proof.
  induction 1 as [|x l l' _ IH|x y l|l l' l'' _ IH1 _ IH2]; cbn [forallb].
  - reflexivity.
  - now rewrite IH.
  - destruct (f x), (f y); reflexivity.
  - now rewrite IH1.
Qed.

Lemma generateShuffleProof_inv (originalVotes shuffledVotes : list JSValue)
  (permutation : list Z) (r : Z) (w w' : World) (proof : ShuffleProof) :
  generateShuffleProof originalVotes shuffledVotes permutation r w = (Ret proof, w') ->
  round proof = r /\ sp_nodeId proof = ("mix-node-" ++ toString r)%string
  /\ verified proof = true /\ String.length (sp_commitment proof) = 64%nat.
Proof.
  unfold generateShuffleProof, bind, Date_now, ret. intros [= <- _].
  cbn [round sp_nodeId verified sp_commitment].
  split; [reflexivity|]. split; [reflexivity|]. split; [reflexivity|].
  apply MixnetFacts.length_sha256_hex.
Qed.

(** One round, seen from its input. *)
Lemma performShuffle_total (votes : list JSValue) (r : Z) (w : World) :
  forallb readable_vote votes = true ->
  exists result w',
    performShuffle votes r w = (Ret result, w')
    /\ forallb readable_vote (sr_shuffledVotes result) = true.
Proof.
  intros Hall. unfold performShuffle, generatePermutation.
  destruct (fisher_yates_total (List.length votes - 1)
              (map Z.of_nat (seq 0 (List.length votes))) w) as (p & w1 & Hp).
  unfold bind at 1. rewrite Hp.
  assert (Hperm : Permutation p (map Z.of_nat (seq 0 (List.length votes))))
    by (eapply MixnetFacts.generatePermutation_perm; exact Hp).
  apply MixnetFacts.permuted_votes in Hperm.
  rewrite <- (forallb_permutation _ _ _ Hperm) in Hall.
  destruct (rerandomize_all_total _ Hall w1) as (votes' & w2 & Hr & Hread).
  unfold bind at 1. rewrite Hr.
  unfold bind, generateShuffleProof, Date_now, ret.
  do 2 eexists. split; [reflexivity|exact Hread].
Qed.

Lemma performShuffle_readable (votes : list JSValue) (r : Z) (w w' : World)
  (result : ShuffleResult) :
  performShuffle votes r w = (Ret result, w') ->
  forallb readable_vote votes = true
  /\ round (sr_proof result) = r
  /\ sp_nodeId (sr_proof result) = ("mix-node-" ++ toString r)%string
  /\ verified (sr_proof result) = true
  /\ String.length (sp_commitment (sr_proof result)) = 64%nat.
Proof.
  unfold performShuffle. intros H. unfold bind at 1 in H.
  destruct (generatePermutation (List.length votes) w) as [[p|e] w1] eqn:Hp;
    [|discriminate].
  unfold bind at 1 in H.
  destruct (rerandomize_all _ w1) as [[votes'|e] w2] eqn:Hr; [|discriminate].
  unfold bind at 1 in H.
  destruct (generateShuffleProof votes votes' p r w2) as [[proof|e] w3] eqn:Hproof;
    [|discriminate].
  unfold ret in H. injection H as <- _. cbn [sr_proof].
  split; [|exact (generateShuffleProof_inv _ _ _ _ _ _ _ Hproof)].
  apply rerandomize_all_readable in Hr as [Hin _].
  apply MixnetFacts.generatePermutation_perm in Hp.
  apply MixnetFacts.permuted_votes in Hp.
  now rewrite <- (forallb_permutation _ _ _ Hp).
Qed.

Lemma shuffle_rounds_total (left : nat) :
  forall r votes proofs0 w,
    forallb readable_vote votes = true ->
    exists votes' proofs' w',
      shuffle_rounds left r votes proofs0 w = (Ret (votes', proofs'), w').
Proof.
  induction left as [|left IH]; intros r votes proofs0 w Hall;
    cbn [shuffle_rounds].
  - now exists votes, proofs0, w.
  - destruct (performShuffle_total votes r w Hall) as (result & w1 & Hrun & Hread).
    unfold bind. rewrite Hrun. apply IH. exact Hread.
Qed.

Lemma shuffle_rounds_proofs (left : nat) :
  forall r votes proofs0 w w' votes' proofs',
    shuffle_rounds left r votes proofs0 w = (Ret (votes', proofs'), w') ->
    (exists ps, proofs' = proofs0 ++ ps
                /\ Forall2 proof_of_round
                     (map (fun i => r + Z.of_nat i) (seq 0 left)) ps)
    /\ ((0 < left)%nat -> forallb readable_vote votes = true).
Proof.
  induction left as [|left IH]; intros r votes proofs0 w w' votes' proofs' H;
    cbn [shuffle_rounds] in H.
  - injection H as <- <- _. split; [|lia].
    exists []. split; [now rewrite app_nil_r|constructor].
  - unfold bind in H.
    destruct (performShuffle votes r w) as [[result|e] w1] eqn:Hrun; [|discriminate].
    apply performShuffle_readable in Hrun as (Hread & Hproof).
    apply IH in H as ((ps & -> & Hps) & _).
    split; [|intros _; exact Hread].
    exists (sr_proof result :: ps). split; [now rewrite <- app_assoc|].
    cbn [seq map]. constructor.
    + rewrite Z.add_0_r. exact Hproof.
    + rewrite <- seq_shift, map_map.
      erewrite map_ext; [exact Hps|]. intros i. cbn. lia.
Qed.

End ShuffleFacts.

(** [generatePermutation(length)] always returns, and what it returns is a
    rearrangement of the indices [0 .. length-1], none lost and none
    repeated. *)
Theorem generatePermutation_rearranges_indices (length : nat) (w : World) :
  exists p w',
    Mixnets.generatePermutation length w = (Ret p, w')
    /\ Permutation p (map Z.of_nat (seq 0 length)).
Proof.
  destruct (ShuffleFacts.fisher_yates_total (length - 1)
              (map Z.of_nat (seq 0 length)) w) as (p & w' & H).
  exists p, w'. split; [exact H|].
  eapply MixnetFacts.generatePermutation_perm. exact H.
Qed.

(** With at least one round configured, [shuffleVotes] returns a result
    exactly when no vote of the list is [null] or [undefined]; such an
    element makes the first round throw. *)
Theorem shuffleVotes_returns_iff
  (this : Mixnets.Mixnets) (votes : list JSValue) (w : World) :
  (0 < Mixnets.shuffleRounds this)%nat ->
  (exists result w', Mixnets.shuffleVotes this votes w = (Ret result, w'))
  <-> forallb readable_vote votes = true.
Proof.
  intros Hrounds. unfold Mixnets.shuffleVotes. split.
  - intros (result & w' & H). unfold bind in H.
    destruct (Mixnets.shuffle_rounds _ _ _ _ w) as [[[outs proofs]|e] w1] eqn:Hrun;
      [|discriminate].
    apply ShuffleFacts.shuffle_rounds_proofs in Hrun as (_ & Hread). auto.
  - intros Hall.
    destruct (ShuffleFacts.shuffle_rounds_total (Mixnets.shuffleRounds this) 0
                votes [] w Hall) as (votes' & proofs' & w' & Hrun).
    unfold bind. rewrite Hrun. unfold ret. do 2 eexists. reflexivity.
Qed.

Lemma shuffleVotes_returns_iff_witness :
  (exists result w',
      Mixnets.shuffleVotes Mixnets.constructor [sample_vote; JNull] sample_world
      = (Ret result, w'))
  <-> forallb readable_vote [sample_vote; JNull] = true.
Proof.
  apply (shuffleVotes_returns_iff Mixnets.constructor [sample_vote; JNull]
           sample_world).
  cbn. lia.
Defined.

(** The proofs [shuffleVotes] returns: one per round, in the order of the
    rounds; the proof of round [i] carries the round number [i], the node
    name [mix-node-i], a 64-character commitment and [verified: true], no
    mix node having been consulted; the result also reports the number of
    registered mix nodes and the number of rounds. *)
Theorem shuffleVotes_proofs
  (this : Mixnets.Mixnets) (votes : list JSValue) (w w' : World)
  (result : Mixnets.MixnetResult) :
  Mixnets.shuffleVotes this votes w = (Ret result, w') ->
  Forall2 proof_of_round (map Z.of_nat (seq 0 (Mixnets.shuffleRounds this)))
    (Mixnets.proofs result)
  /\ Mixnets.mr_mixNodes result = List.length (Mixnets.mixNodes this)
  /\ Mixnets.rounds result = Mixnets.shuffleRounds this.
Proof.
  unfold Mixnets.shuffleVotes, bind. intros H.
  destruct (Mixnets.shuffle_rounds _ _ _ _ w) as [[[outs proofs]|e] w1] eqn:Hrun;
    [|discriminate].
  unfold ret in H. injection H as <- _.
  cbn [Mixnets.proofs Mixnets.mr_mixNodes Mixnets.rounds].
  apply ShuffleFacts.shuffle_rounds_proofs in Hrun as ((ps & -> & Hps) & _).
  cbn [app]. split; [|split; reflexivity].
  erewrite map_ext; [exact Hps|]. intros i. cbn. lia.
Qed.

Lemma shuffleVotes_proofs_witness :
  let result :=
    match fst (Mixnets.shuffleVotes Mixnets.constructor [sample_vote] sample_world)
    with
    | Ret r => r
    | Throw _ => Mixnets.mkMixnetResult [] [] 0 0
    end in
  Forall2 proof_of_round (map Z.of_nat (seq 0 3)) (Mixnets.proofs result)
  /\ Mixnets.mr_mixNodes result = 0%nat
  /\ Mixnets.rounds result = 3%nat.
Proof.
  intros result.
  apply (shuffleVotes_proofs Mixnets.constructor [sample_vote] sample_world
           (snd (Mixnets.shuffleVotes Mixnets.constructor [sample_vote]
                   sample_world))
           result).
  vm_compute. reflexivity.
Defined.

(** ** Receipts *)

Module ReceiptFacts.
Import ReceiptGeneration.

(** *** The verification code *)






(** *** Sorting keys *)

Lemma ascii_compare_lt (a b : ascii) :
  Ascii.compare a b = Lt <-> (N_of_ascii a < N_of_ascii b)%N.
Proof. unfold Ascii.compare. apply N.compare_lt_iff. Qed.

Lemma ascii_compare_eq (a b : ascii) : Ascii.compare a b = Eq <-> a = b.
Proof.
  split; [apply Ascii.compare_eq_iff|].
  intros ->. unfold Ascii.compare. apply N.compare_refl.
Qed.

Lemma string_compare_refl (s : string) : String.compare s s = Eq.
Proof.
  induction s as [|c s IH]; [reflexivity|]. cbn [String.compare].
  now rewrite (proj2 (ascii_compare_eq c c) eq_refl).
Qed.

Lemma string_compare_lt_trans (s1 : string) :
  forall s2 s3,
    String.compare s1 s2 = Lt -> String.compare s2 s3 = Lt ->
    String.compare s1 s3 = Lt.
Proof.
  induction s1 as [|c1 s1 IH]; intros [|c2 s2] [|c3 s3] H12 H23;
    cbn [String.compare] in *; try discriminate; try reflexivity.
  destruct (Ascii.compare c1 c2) eqn:E12; try discriminate;
    destruct (Ascii.compare c2 c3) eqn:E23; try discriminate.
  - apply ascii_compare_eq in E12, E23. subst c2 c3.
    rewrite (proj2 (ascii_compare_eq c1 c1) eq_refl). now apply (IH s2).
  - apply ascii_compare_eq in E12. subst c2. now rewrite E23.
  - apply ascii_compare_eq in E23. subst c3. now rewrite E12.
  - apply ascii_compare_lt in E12, E23.
    assert (E13 : Ascii.compare c1 c3 = Lt)
      by (apply ascii_compare_lt; exact (N.lt_trans _ _ _ E12 E23)).
    now rewrite E13.
Qed.

Lemma leb_trans (s1 s2 s3 : string) :
  String.leb s1 s2 = true -> String.leb s2 s3 = true -> String.leb s1 s3 = true.
Proof.
  unfold String.leb. intros H12 H23.
  destruct (String.compare s1 s2) eqn:E12; try discriminate;
    destruct (String.compare s2 s3) eqn:E23; try discriminate.
  - apply String.compare_eq_iff in E12, E23. subst. now rewrite string_compare_refl.
  - apply String.compare_eq_iff in E12. subst. now rewrite E23.
  - apply String.compare_eq_iff in E23. subst. now rewrite E12.
  - now rewrite (string_compare_lt_trans s1 s2 s3).
Qed.

Lemma leb_refl (s : string) : String.leb s s = true.
Proof. unfold String.leb. now rewrite string_compare_refl. Qed.

Lemma insert_sorted_perm (k : string) (l : list string) :
  Permutation (insert_sorted k l) (k :: l).
Proof.
  induction l as [|h t IH]; cbn [insert_sorted]; [reflexivity|].
  destruct (String.leb k h); [reflexivity|].
  rewrite IH. apply perm_swap.
Qed.

Lemma insert_sorted_sorted (k : string) (l : list string) :
  sorted l -> sorted (insert_sorted k l).
Proof.
  induction 1 as [|h t Hall Hs IH]; cbn [insert_sorted].
  - constructor; constructor.
  - destruct (String.leb k h) eqn:E.
    + constructor; [|now constructor].
      constructor; [exact E|].
      apply Forall_forall. intros x Hx. rewrite Forall_forall in Hall.
      apply (leb_trans k h x E). now apply Hall.
    + constructor; [|exact IH].
      apply Forall_forall. intros x Hx.
      apply (Permutation_in _ (insert_sorted_perm k t)) in Hx.
      destruct Hx as [<-|Hx].
      * destruct (String.leb_total h k) as [Hhk|Hkh]; [exact Hhk|congruence].
      * rewrite Forall_forall in Hall. now apply Hall.
Qed.

Lemma sort_perm (l : list string) : Permutation (sort l) l.
Proof.
  induction l as [|k l IH]; [reflexivity|]. cbn [sort fold_right].
  fold (sort l). rewrite insert_sorted_perm. now constructor.
Qed.

Lemma sort_sorted (l : list string) : sorted (sort l).
Proof.
  induction l as [|k l IH]; [constructor|]. cbn [sort fold_right].
  now apply insert_sorted_sorted.
Qed.

Lemma sorted_unique (l : list string) :
  sorted l -> forall l', sorted l' -> Permutation l l' -> l = l'.
Proof.
  induction 1 as [|k l Hall Hs IH]; intros l' Hs' Hperm.
  - apply Permutation_nil in Hperm. now subst.
  - destruct Hs' as [|k' l' Hall' Hs'].
    + apply Permutation_sym, Permutation_nil in Hperm. discriminate.
    + assert (Hk : k = k').
      { assert (Hin : In k (k' :: l')) by (apply (Permutation_in _ Hperm); now left).
        assert (Hin' : In k' (k :: l))
          by (apply (Permutation_in _ (Permutation_sym Hperm)); now left).
        rewrite Forall_forall in Hall, Hall'.
        destruct Hin as [->|Hin]; [reflexivity|].
        destruct Hin' as [->|Hin']; [reflexivity|].
        apply String.leb_antisym; [now apply Hall|now apply Hall']. }
      subst k'. f_equal. apply IH; [exact Hs'|].
      now apply Permutation_cons_inv in Hperm.
Qed.

Lemma sort_permutation (l l' : list string) :
  Permutation l l' -> sort l = sort l'.
Proof.
  intros H. apply sorted_unique; try apply sort_sorted.
  rewrite !sort_perm. exact H.
Qed.

(** *** Looking properties up *)

Lemma assoc_map {A B : Type} (f : A -> B) (key : string) (l : list (string * A)) :
  assoc key (map (fun kv => (fst kv, f (snd kv))) l) = option_map f (assoc key l).
Proof.
  induction l as [|[k a] l IH]; [reflexivity|]. cbn [map assoc fst snd].
  destruct (String.eqb k key); [reflexivity|exact IH].
Qed.

Lemma assoc_permutation {A : Type} (key : string) (l l' : list (string * A)) :
  Permutation l l' -> NoDup (map fst l) -> assoc key l = assoc key l'.
Proof.
  induction 1 as [|[k a] l l' Hp IH|[k a] [k' a'] l|l l' l'' Hp1 IH1 Hp2 IH2];
    intros Hnd.
  - reflexivity.
  - cbn [assoc]. cbn [map fst] in Hnd. inversion Hnd; subst.
    destruct (String.eqb k key); [reflexivity|now apply IH].
  - cbn [assoc]. cbn [map fst] in Hnd. inversion Hnd as [|? ? Hnot _]; subst.
    destruct (String.eqb_spec k' key) as [->|]; [|reflexivity].
    destruct (String.eqb_spec k key) as [->|]; [|reflexivity].
    exfalso. apply Hnot. now left.
  - rewrite IH1 by exact Hnd. apply IH2.
    apply (Permutation_NoDup (Permutation_map fst Hp1) Hnd).
Qed.

Lemma assoc_set_field_other {A : Type} (f : JSValue -> A) (key key' : string)
  (v : JSValue) (fields : list (string * JSValue)) :
  key <> key' ->
  assoc key (map (fun kv => (fst kv, f (snd kv))) (JS.set_field key' v fields))
  = assoc key (map (fun kv => (fst kv, f (snd kv))) fields).
Proof.
  intros Hne. induction fields as [|[k a] fields IH]; cbn [JS.set_field map assoc fst snd].
  - destruct (String.eqb_spec key' key) as [->|]; [now contradiction Hne|reflexivity].
  - destruct (String.eqb_spec k key') as [->|Hk]; cbn [map assoc fst snd].
    + destruct (String.eqb_spec key' key) as [->|]; [now contradiction Hne|reflexivity].
    + destruct (String.eqb k key); [reflexivity|exact IH].
Qed.

(** An object is rendered from what its properties look up to. *)
Lemma stringify_with_object (K : list string) (fields fields' : list (string * JSValue)) :
  (forall k, In k K ->
     assoc k (map (fun kv => (fst kv, stringify_with K (snd kv))) fields)
     = assoc k (map (fun kv => (fst kv, stringify_with K (snd kv))) fields')) ->
  stringify_with K (JObject fields) = stringify_with K (JObject fields').
Proof.
  intros H. cbn [stringify_with].
  assert (G : forall K0, incl K0 K ->
            flat_map (fun k => match assoc k (map (fun kv => (fst kv, stringify_with K (snd kv))) fields) with
                               | Some (Some t) => [JS.quote k ++ ":" ++ t]%string
                               | _ => []
                               end) K0
            = flat_map (fun k => match assoc k (map (fun kv => (fst kv, stringify_with K (snd kv))) fields') with
                                 | Some (Some t) => [JS.quote k ++ ":" ++ t]%string
                                 | _ => []
                                 end) K0).
  { induction K0 as [|k K0 IH]; intros Hincl; [reflexivity|].
    cbn [flat_map]. rewrite (H k) by (apply Hincl; now left).
    f_equal. apply IH. intros x Hx. apply Hincl. now right. }
  now rewrite (G K (incl_refl K)).
Qed.

Lemma in_property_list (replacer : list string) :
  forall seen k, In k (property_list replacer seen) -> In k replacer.
Proof.
  induction replacer as [|h t IH]; intros seen k H; cbn [property_list] in H;
    [contradiction|].
  destruct (existsb (String.eqb h) seen).
  - right. now apply (IH seen).
  - destruct H as [<-|H]; [now left|right; now apply (IH (h :: seen))].
Qed.

End ReceiptFacts.


(** The receipt hash does not depend on the order in which the object
    lists its properties: two objects with the same properties (of distinct
    names) in different orders have the same [generateReceiptHash]. *)
Theorem generateReceiptHash_field_order (fields fields' : list (string * JSValue)) :
  NoDup (map fst fields) -> Permutation fields fields' ->
  ReceiptGeneration.generateReceiptHash (JObject fields)
  = ReceiptGeneration.generateReceiptHash (JObject fields').
Proof.
  intros Hnd Hperm. unfold ReceiptGeneration.generateReceiptHash.
  cbn [ReceiptGeneration.Object_keys JS.spread obind].
  rewrite (ReceiptFacts.sort_permutation (map fst fields) (map fst fields'))
    by (now apply Permutation_map).
  set (K := ReceiptGeneration.property_list _ []).
  rewrite (ReceiptFacts.stringify_with_object K fields fields'); [reflexivity|].
  intros k _. apply ReceiptFacts.assoc_permutation.
  - apply (Permutation_map (fun kv => (fst kv, ReceiptGeneration.stringify_with K (snd kv)))).
    exact Hperm.
  - now rewrite map_map.
Qed.

Lemma generateReceiptHash_field_order_witness :
  ReceiptGeneration.generateReceiptHash
    (JObject [("voteId", JString "v1"); ("electionId", JNumber 7)]%string)
  = ReceiptGeneration.generateReceiptHash
      (JObject [("electionId", JNumber 7); ("voteId", JString "v1")]%string).
Proof.
  apply (generateReceiptHash_field_order
           [("voteId", JString "v1"); ("electionId", JNumber 7)]%string
           [("electionId", JNumber 7); ("voteId", JString "v1")]%string).
  - repeat constructor; cbn; intuition discriminate.
  - apply perm_swap.
Defined.

(** The replacer array built from the top-level keys also filters nested
    objects: a property of a nested object whose name is not a top-level
    key of the receipt never reaches the hashed text, so setting it to any
    value leaves [generateReceiptHash] unchanged. *)
Theorem generateReceiptHash_ignores_nested_property
  (before after : list (string * JSValue)) (key : string)
  (inner : list (string * JSValue)) (name : string) (v : JSValue) :
  ~ In name (map fst before ++ key :: map fst after) ->
  ReceiptGeneration.generateReceiptHash
    (JObject (before ++ (key, JObject (JS.set_field name v inner)) :: after))
  = ReceiptGeneration.generateReceiptHash
      (JObject (before ++ (key, JObject inner) :: after)).
Proof.
  intros Hname. unfold ReceiptGeneration.generateReceiptHash.
  cbn [ReceiptGeneration.Object_keys JS.spread obind].
  rewrite !map_app. cbn [map fst].
  set (K := ReceiptGeneration.property_list _ []).
  assert (HK : forall k, In k K -> k <> name).
  { intros k Hk ->. apply Hname. unfold K in Hk.
    apply ReceiptFacts.in_property_list in Hk.
    apply (Permutation_in _ (ReceiptFacts.sort_perm _)) in Hk. exact Hk. }
  assert (Hinner : ReceiptGeneration.stringify_with K (JObject (JS.set_field name v inner))
                   = ReceiptGeneration.stringify_with K (JObject inner)).
  { apply ReceiptFacts.stringify_with_object. intros k Hk.
    apply ReceiptFacts.assoc_set_field_other. now apply HK. }
  rewrite (ReceiptFacts.stringify_with_object K
             (before ++ (key, JObject (JS.set_field name v inner)) :: after)
             (before ++ (key, JObject inner) :: after)); [reflexivity|].
  intros k _. rewrite !map_app. cbn [map fst snd]. now rewrite Hinner.
Qed.

Lemma generateReceiptHash_ignores_nested_property_witness :
  ReceiptGeneration.generateReceiptHash
    (JObject [("voteId", JString "v1");
              ("voteCommitment",
               JObject (JS.set_field "point" (JString "forged")
                          [("point", JString "04ab")]))]%string)
  = ReceiptGeneration.generateReceiptHash
      (JObject [("voteId", JString "v1");
                ("voteCommitment", JObject [("point", JString "04ab")])]%string).
Proof.
  apply (generateReceiptHash_ignores_nested_property
           [("voteId", JString "v1")]%string [] "voteCommitment"
           [("point", JString "04ab")]%string "point" (JString "forged")).
  cbn. intuition discriminate.
Defined.

Module ReceiptRoundTrip.
Import ReceiptGeneration.

(** The receipt data [generateReceipt] returns: the ten properties it
    hashed, then the hash. *)
Lemma generateReceipt_inv (uuidv4 : M string) (toISOString : Z -> string)
  (voteData encryptedVote zkProof : JSValue) (w w' : World) (receipt : Receipt) :
  generateReceipt uuidv4 toISOString voteData encryptedVote zkProof w
    = (Ret receipt, w') ->
  exists fields,
    generateReceiptHash (JObject fields) = Ret (receiptHash receipt)
    /\ receiptData receipt
       = JObject (fields ++ [("receiptHash"%string, JString (receiptHash receipt))])
    /\ map fst fields
       = ["receiptId"; "voteId"; "electionId"; "userId"; "timestamp";
          "verificationCode"; "voteCommitment"; "proofHash"; "electionHash";
          "receiptVersion"]%string
    /\ JS.lookup "receiptId" fields = JString (receiptId receipt)
    /\ JS.lookup "verificationCode" fields = JString (verificationCode receipt).
Proof.
  unfold generateReceipt. intros H.
  unfold bind at 1 in H. destruct (uuidv4 w) as [[rid|e] w1]; [|discriminate].
  unfold bind at 1 in H.
  destruct (generateVerificationCode w1) as [[code|e] w2]; [|discriminate].
  unfold bind at 1 in H. unfold lift at 1 in H.
  destruct (get "voteId" voteData) as [voteId|e]; [|discriminate].
  unfold bind at 1 in H. unfold lift at 1 in H.
  destruct (get "electionId" voteData) as [electionId|e]; [|discriminate].
  unfold bind at 1 in H. unfold lift at 1 in H.
  destruct (get "userId" voteData) as [userId|e]; [|discriminate].
  unfold bind at 1 in H. unfold Date_now at 1 in H.
  unfold bind at 1 in H. unfold lift at 1 in H.
  destruct (get "commitment" encryptedVote) as [voteCommitment|e]; [|discriminate].
  unfold bind at 1 in H. unfold lift at 1 in H.
  destruct (hashData zkProof) as [proofHash|e]; [|discriminate].
  unfold bind at 1 in H. unfold lift at 1 in H.
  destruct (get "electionHash" voteData) as [electionHash|e]; [|discriminate].
  unfold bind at 1 in H. unfold lift at 1 in H.
  match type of H with
  | context [generateReceiptHash (JObject ?f)] => set (fields := f) in *
  end.
  destruct (generateReceiptHash (JObject fields)) as [h|e] eqn:Hh; [|discriminate].
  unfold ret in H. injection H as <- _.
  cbn [receiptHash receiptData receiptId verificationCode].
  exists fields. split; [exact Hh|]. subst fields.
  split; [reflexivity|]. split; [reflexivity|]. split; reflexivity.
Qed.

Lemma without_key_absent (key : string) (fields : list (string * JSValue)) (v : JSValue) :
  ~ In key (map fst fields) ->
  without_key key (fields ++ [(key, v)]) = fields.
Proof.
  intros Hnot. unfold without_key. rewrite filter_app. cbn [filter fst].
  rewrite String.eqb_refl. cbn [negb]. rewrite app_nil_r.
  apply filter_all. intros [k a] Hin. cbn [fst].
  apply negb_true_iff, String.eqb_neq. intros ->.
  apply Hnot. apply in_map_iff. now exists (key, a).
Qed.

Lemma lookup_app_absent (key : string) (fields : list (string * JSValue)) (v : JSValue) :
  ~ In key (map fst fields) -> JS.lookup key (fields ++ [(key, v)]) = v.
Proof.
  induction fields as [|[k a] fields IH]; intros Hnot; cbn [app JS.lookup].
  - now rewrite String.eqb_refl.
  - cbn [map fst] in Hnot.
    destruct (String.eqb_spec k key) as [->|_]; [exfalso; apply Hnot; now left|].
    apply IH. intros Hin. apply Hnot. now right.
Qed.

(** Verifying an object made of hashed properties followed by their hash. *)
Lemma verifyReceipt_sealed (toISOString : Z -> string)
  (fields : list (string * JSValue)) (h : string) (w : World) :
  ~ In "receiptHash"%string (map fst fields) ->
  generateReceiptHash (JObject fields) = Ret h ->
  verifyReceipt toISOString (JObject (fields ++ [("receiptHash"%string, JString h)])) w
  = (Ret (mkVerification true (Some h) (Some (JString h))
            (Some (toISOString (clock w (reads w)))) None),
     mkWorld (entropy w) (drawn w) (clock w) (S (reads w))).
Proof.
  intros Hnot Hh. unfold verifyReceipt, destructure.
  cbn [get JS.spread obind fst snd].
  rewrite (lookup_app_absent _ _ _ Hnot), (without_key_absent _ _ _ Hnot).
  cbn [obind fst snd]. rewrite Hh. cbn [obind fst snd].
  unfold same_string. now rewrite String.eqb_refl.
Qed.

End ReceiptRoundTrip.

(** A receipt [generateReceipt] returned passes [verifyReceipt]: the
    recomputed hash is the hash stored in the receipt data and the check
    answers [isValid: true], at any later time and whatever the identifier
    and date formats are. *)
Theorem verifyReceipt_accepts_generated_receipt
  (uuidv4 : M string) (toISOString : Z -> string)
  (voteData encryptedVote zkProof : JSValue) (w w' later : World)
  (receipt : ReceiptGeneration.Receipt) :
  ReceiptGeneration.generateReceipt uuidv4 toISOString voteData encryptedVote
    zkProof w = (Ret receipt, w') ->
  fst (ReceiptGeneration.verifyReceipt toISOString
         (ReceiptGeneration.receiptData receipt) later)
  = Ret (ReceiptGeneration.mkVerification true
           (Some (ReceiptGeneration.receiptHash receipt))
           (Some (JString (ReceiptGeneration.receiptHash receipt)))
           (Some (toISOString (clock later (reads later)))) None).
Proof.
  intros H.
  apply ReceiptRoundTrip.generateReceipt_inv in H
    as (fields & Hh & -> & Hkeys & _).
  rewrite (ReceiptRoundTrip.verifyReceipt_sealed toISOString fields _ later);
    [reflexivity| |exact Hh].
  rewrite Hkeys. cbn. intuition discriminate.
Qed.

Lemma verifyReceipt_accepts_generated_receipt_witness :
  exists receipt,
    fst (ReceiptGeneration.generateReceipt (ret "uuid-1"%string)
           (fun t => toString t)
           (JObject [("voteId", JString "v1"); ("electionId", JNumber 7)]%string)
           (JObject [("commitment", JString "04ab")]%string)
           (JString "proof") sample_world) = Ret receipt
    /\ fst (ReceiptGeneration.verifyReceipt (fun t => toString t)
              (ReceiptGeneration.receiptData receipt) sample_world)
       = Ret (ReceiptGeneration.mkVerification true
                (Some (ReceiptGeneration.receiptHash receipt))
                (Some (JString (ReceiptGeneration.receiptHash receipt)))
                (Some (toString (clock sample_world (reads sample_world)))) None).
Proof.
  pose (run := ReceiptGeneration.generateReceipt (ret "uuid-1"%string)
                 (fun t => toString t)
                 (JObject [("voteId", JString "v1"); ("electionId", JNumber 7)]%string)
                 (JObject [("commitment", JString "04ab")]%string)
                 (JString "proof") sample_world).
  pose (receipt := match fst run with
                   | Ret r => r
                   | Throw _ => ReceiptGeneration.mkReceipt "" "" "" JNull
                   end).
  assert (Hrun : run = (Ret receipt, snd run)) by (vm_compute; reflexivity).
  exists receipt. split; [change (fst run = Ret receipt); now rewrite Hrun|].
  exact (verifyReceipt_accepts_generated_receipt (ret "uuid-1"%string)
           (fun t => toString t) _ _ _ sample_world (snd run) sample_world
           receipt Hrun).
Defined.

(** Every receipt of a batch passes [verifyReceipt], and the batch has one
    receipt per entry of the input. *)
Theorem generateBatchReceipts_all_verify
  (uuidv4 : M string) (toISOString : Z -> string)
  (votesData : list JSValue) (w w' : World)
  (receipts : list ReceiptGeneration.Receipt) :
  ReceiptGeneration.generateBatchReceipts uuidv4 toISOString votesData w
    = (Ret receipts, w') ->
  List.length receipts = List.length votesData
  /\ Forall (fun receipt =>
               forall later,
                 fst (ReceiptGeneration.verifyReceipt toISOString
                        (ReceiptGeneration.receiptData receipt) later)
                 = Ret (ReceiptGeneration.mkVerification true
                          (Some (ReceiptGeneration.receiptHash receipt))
                          (Some (JString (ReceiptGeneration.receiptHash receipt)))
                          (Some (toISOString (clock later (reads later)))) None))
       receipts.
Proof.
  revert w w' receipts.
  induction votesData as [|voteData rest IH]; intros w w' receipts H;
    cbn [ReceiptGeneration.generateBatchReceipts] in H.
  - injection H as <- _. split; [reflexivity|constructor].
  - unfold bind at 1 in H. unfold lift at 1 in H.
    destruct (ReceiptGeneration.get "voteData" voteData) as [vd|e]; [|discriminate].
    unfold bind at 1 in H. unfold lift at 1 in H.
    destruct (ReceiptGeneration.get "encryptedVote" voteData) as [ev|e];
      [|discriminate].
    unfold bind at 1 in H. unfold lift at 1 in H.
    destruct (ReceiptGeneration.get "zkProof" voteData) as [zk|e]; [|discriminate].
    unfold bind at 1 in H.
    destruct (ReceiptGeneration.generateReceipt uuidv4 toISOString vd ev zk w)
      as [[receipt|e] w1] eqn:Hreceipt; [|discriminate].
    unfold bind at 1 in H.
    destruct (ReceiptGeneration.generateBatchReceipts uuidv4 toISOString rest w1)
      as [[others|e] w2] eqn:Hothers; [|discriminate].
    unfold ret in H. injection H as <- _.
    apply IH in Hothers as [Hlen Hall].
    split; [cbn [List.length]; now rewrite Hlen|].
    constructor; [|exact Hall].
    intros later.
    apply ReceiptRoundTrip.generateReceipt_inv in Hreceipt
      as (fields & Hh & -> & Hkeys & _).
    rewrite (ReceiptRoundTrip.verifyReceipt_sealed toISOString fields _ later);
      [reflexivity| |exact Hh].
    rewrite Hkeys. cbn. intuition discriminate.
Qed.

Lemma generateBatchReceipts_all_verify_witness :
  exists receipts,
    fst (ReceiptGeneration.generateBatchReceipts (ret "uuid-1"%string)
           (fun t => toString t)
           [JObject [("voteData", JObject [("voteId", JString "v1")]);
                     ("encryptedVote", JObject [("commitment", JString "04ab")]);
                     ("zkProof", JString "proof")]%string]
           sample_world) = Ret receipts
    /\ List.length receipts = 1%nat.
Proof.
  pose (run := ReceiptGeneration.generateBatchReceipts (ret "uuid-1"%string)
                 (fun t => toString t)
                 [JObject [("voteData", JObject [("voteId", JString "v1")]);
                           ("encryptedVote", JObject [("commitment", JString "04ab")]);
                           ("zkProof", JString "proof")]%string]
                 sample_world).
  pose (receipts := match fst run with Ret r => r | Throw _ => [] end).
  assert (Hrun : run = (Ret receipts, snd run)) by (vm_compute; reflexivity).
  exists receipts. split; [change (fst run = Ret receipts); now rewrite Hrun|].
  exact (proj1 (generateBatchReceipts_all_verify (ret "uuid-1"%string)
                  (fun t => toString t) _ sample_world (snd run) receipts Hrun)).
Defined.

(** ** Keys survive storage *)

Module KeyStoreFacts.
Import HomomorphicEncryption KeyStore.

Lemma field_serialized (key : string) (fields : list (string * BigValue)) (z : Z) :
  ReceiptGeneration.assoc key fields = Some (VBigInt z) ->
  field key (serializeBigInt (VObject fields)) = Ret z.
Proof.
  intros H. unfold field. cbn [serializeBigInt ReceiptGeneration.get obind].
  assert (Hl : JS.lookup key (map (fun kv => (fst kv, serializeBigInt (snd kv))) fields)
               = JString (toString z)).
  { induction fields as [|[k a] fields IH]; [discriminate|].
    cbn [ReceiptGeneration.assoc] in H. cbn [map JS.lookup fst snd].
    destruct (String.eqb k key); [injection H as ->; reflexivity|now apply IH]. }
  rewrite Hl. cbn [BigInt_of]. apply BigInt_toString.
Qed.

Lemma setPublicKey_serialized (JSON_parse : string -> Outcome JSValue)
  (this : Engine) (pk : PublicKey) :
  setPublicKey JSON_parse this (serializeBigInt (publicKey_value pk))
  = (Ret pk, mkEngine (keySize this) (Some pk) (privateKey this)
               (privateKeyShares this) (thresholdParams this)).
Proof.
  unfold setPublicKey, publicKey_value.
  change (key_data JSON_parse (serializeBigInt (VObject ?f)))
    with (Ret (serializeBigInt (VObject f))).
  cbn [obind].
  rewrite (field_serialized "n" _ (pk_n pk)) by reflexivity. cbn [obind].
  rewrite (field_serialized "g" _ (pk_g pk)) by reflexivity. cbn [obind].
  rewrite (field_serialized "nsq" _ (pk_nsq pk)) by reflexivity. cbn [obind].
  now destruct pk.
Qed.

Lemma setPrivateKey_serialized (JSON_parse : string -> Outcome JSValue)
  (this : Engine) (sk : PrivateKey) :
  setPrivateKey JSON_parse this (serializeBigInt (privateKey_value sk))
  = (Ret sk, mkEngine (keySize this) (publicKey this) (Some sk)
               (privateKeyShares this) (thresholdParams this)).
Proof.
  unfold setPrivateKey, privateKey_value.
  change (key_data JSON_parse (serializeBigInt (VObject ?f)))
    with (Ret (serializeBigInt (VObject f))).
  cbn [obind].
  rewrite (field_serialized "lambda" _ (sk_lambda sk)) by reflexivity. cbn [obind].
  rewrite (field_serialized "mu" _ (sk_mu sk)) by reflexivity. cbn [obind].
  rewrite (field_serialized "n" _ (sk_n sk)) by reflexivity. cbn [obind].
  rewrite (field_serialized "nsq" _ (sk_nsq sk)) by reflexivity. cbn [obind].
  now destruct sk.
Qed.

End KeyStoreFacts.


(** End to end: on a fresh engine that loads a stored Paillier key pair
    with [setPublicKey] and [setPrivateKey], [encrypt] and [decrypt] with
    their default keys recover the vote modulo [n]. *)
Theorem restored_keys_decrypt
  (JSON_parse : string -> Outcome JSValue)
  (pk : HomomorphicEncryption.PublicKey) (sk : HomomorphicEncryption.PrivateKey)
  (v : Z) (w w' : World) (e : HomomorphicEncryption.EncryptedVote) :
  paillier_key_pair pk sk ->
  v mod HomomorphicEncryption.pk_n pk <= MAX_SAFE_INTEGER ->
  let voting :=
    snd (KeyStore.setPublicKey JSON_parse HomomorphicEncryption.constructor
           (KeyStore.serializeBigInt (KeyStore.publicKey_value pk))) in
  let tallying :=
    snd (KeyStore.setPrivateKey JSON_parse voting
           (KeyStore.serializeBigInt (KeyStore.privateKey_value sk))) in
  HomomorphicEncryption.encrypt voting v None w = (Ret e, w') ->
  HomomorphicEncryption.decrypt tallying (HomomorphicEncryption.ciphertext e) None
  = Ret (Finite (v mod HomomorphicEncryption.pk_n pk)).
Proof.
  intros Hkeys Hsafe voting tallying He.
  subst tallying voting.
  rewrite KeyStoreFacts.setPublicKey_serialized in *.
  rewrite KeyStoreFacts.setPrivateKey_serialized. cbn [snd] in *.
  pose proof (paillier_modulus pk sk Hkeys) as Hn.
  pose proof (paillier_public_shape pk sk Hkeys) as Hshape.
  assert (He' : HomomorphicEncryption.encrypt
                  (HomomorphicEncryption.mkEngine
                     (HomomorphicEncryption.keySize HomomorphicEncryption.constructor)
                     (Some pk) None None None) v (Some pk) w = (Ret e, w'))
    by exact He.
  apply (encrypt_class _ Hn _ pk Hshape) in He' as (r & c & -> & Hc & Hr & Ec).
  apply (decrypt_class _ pk sk Hkeys c _ r); auto.
  apply Z.mod_pos_bound. lia.
Qed.

Lemma restored_keys_decrypt_witness :
  HomomorphicEncryption.decrypt
    (snd (KeyStore.setPrivateKey (fun _ => Ret JNull)
            (snd (KeyStore.setPublicKey (fun _ => Ret JNull)
                    HomomorphicEncryption.constructor
                    (KeyStore.serializeBigInt
                       (KeyStore.publicKey_value sample_publicKey))))
            (KeyStore.serializeBigInt
               (KeyStore.privateKey_value
                  (HomomorphicEncryption.mkPrivateKey 252 422 551 303601)))))
    "246415" None
  = Ret (Finite (3 mod 551)).
Proof.
  apply (restored_keys_decrypt (fun _ => Ret JNull) sample_publicKey
           (HomomorphicEncryption.mkPrivateKey 252 422 551 303601) 3
           sample_world
           (snd (HomomorphicEncryption.encrypt sample_engine 3 None sample_world))
           (HomomorphicEncryption.mkEncryptedVote "246415" "530")).
  - exists 19, 29. split; [apply trial_division_sound; reflexivity|].
    split; [apply trial_division_sound; reflexivity|].
    split; [lia|vm_compute; reflexivity].
  - vm_compute. discriminate.
  - vm_compute. reflexivity.
Defined.

(** ** Threshold decryption without shares in use *)

(** [thresholdDecrypt(ciphertext, 0)] on an engine with loaded shares (any
    list, a modulus [n] other than 0 and [nsq] above 1) uses no share at
    all: the recombined exponent is 0 and the result is 0 for every
    ciphertext that is an integer literal, whatever was encrypted. *)
Theorem thresholdDecrypt_zero_threshold
  (this : HomomorphicEncryption.Engine) (ks : HomomorphicEncryption.KeyShares)
  (shares : list HomomorphicEncryption.Share) (ciphertext : string) (c : Z) :
  HomomorphicEncryption.privateKeyShares this = Some ks ->
  HomomorphicEncryption.ks_shares ks = Some shares ->
  HomomorphicEncryption.ks_n ks <> 0 ->
  1 < HomomorphicEncryption.ks_nsq ks ->
  BigInt ciphertext = Ret c ->
  HomomorphicEncryption.thresholdDecrypt this ciphertext 0 = Ret (Finite 0).
Proof.
  intros Hks Hshares Hn Hnsq Hc.
  unfold HomomorphicEncryption.thresholdDecrypt,
    HomomorphicEncryption.enough_shares,
    HomomorphicEncryption.performThresholdDecryption.
  rewrite Hks. destruct ks as [s mu n nsq tn tk].
  cbn [HomomorphicEncryption.ks_shares HomomorphicEncryption.ks_n
       HomomorphicEncryption.ks_nsq] in *.
  subst s.
  replace (Z.of_nat (List.length shares) >=? 0) with true
    by (symmetry; apply Z.geb_le; lia).
  rewrite Hc. cbn [obind].
  change (HomomorphicEncryption.slice0 shares 0) with (@nil HomomorphicEncryption.Share).
  cbn [List.length Z.of_nat Z.ltb Z.compare].
  replace (HomomorphicEncryption.reconstructSecret [] n) with (@Ret Z 0).
  2:{ unfold HomomorphicEncryption.reconstructSecret.
      change (HomomorphicEncryption.reconstruct_loop
                (HomomorphicEncryption.indexed []) [] n 0) with (@Ret Z 0).
      cbn [obind]. unfold bigint_rem.
      destruct (Z.eqb_spec n 0) as [|_]; [contradiction|].
      cbn [obind]. destruct (Z.eqb_spec n 0) as [|_]; [contradiction|].
      now rewrite Z.rem_0_l, Z.add_0_l, Z.rem_same. }
  cbn [obind].
  unfold modPow, toZn.
  destruct (Z.leb_spec nsq 0) as [|_]; [lia|].
  destruct (Z.eqb_spec nsq 1) as [|_]; [lia|].
  cbn [obind]. unfold HomomorphicEncryption.L, bigint_div.
  destruct (Z.eqb_spec n 0) as [|_]; [contradiction|].
  cbn [obind]. rewrite Z.sub_diag, Z.quot_0_l by assumption.
  unfold bigint_rem.
  destruct (Z.eqb_spec n 0) as [|_]; [contradiction|].
  rewrite Z.mul_0_l, Z.rem_0_l by assumption. cbn [obind].
  reflexivity.
Qed.

Lemma thresholdDecrypt_zero_threshold_witness :
  HomomorphicEncryption.thresholdDecrypt sample_engine "246415" 0
  = Ret (Finite 0)
  /\ HomomorphicEncryption.decrypt sample_engine "246415" None
     = Ret (Finite 3).
Proof.
  split; [|vm_compute; reflexivity].
  pose (ks := match HomomorphicEncryption.privateKeyShares sample_engine with
              | Some ks => ks
              | None => HomomorphicEncryption.mkKeyShares None 0 0 0 0 0
              end).
  pose (shares := match HomomorphicEncryption.ks_shares ks with
                  | Some l => l
                  | None => nil
                  end).
  apply (thresholdDecrypt_zero_threshold sample_engine ks shares "246415" 246415).
  - vm_compute. reflexivity.
  - vm_compute. reflexivity.
  - vm_compute. discriminate.
  - vm_compute. reflexivity.
  - vm_compute. reflexivity.
Defined.
